(** * MVCAPA: the penalised optimal-partitioning engine of skchange

    A shallow embedding of [skchange/anomaly_detectors/mvcapa.py].

    Conventions of the embedding.
    - Python integers are [Z]; array lengths are [nat].
    - Floating-point numbers are idealised as exact rationals [Q]; the
      properties below are statements of exact arithmetic.  The only use
      the source makes of NaN is as the "unset" sentinel of the backtrack
      array, which is an [option] here.
    - A NumPy 1-d array is a [list]; a 2-d array is a list of rows.
    - Exceptions are values of [exn]; code that may raise returns [res]. *)

From Stdlib Require Import String ZArith QArith List Lia Lqa Bool Sorted Permutation.
Import ListNotations.

Set Implicit Arguments.

(** ** Exceptions *)

Inductive exn : Type :=
| ValueError (msg : string)
| IndexError
| OutOfFuel.

Inductive res (A : Type) : Type :=
| Ok (a : A)
| Raise (e : exn).

Arguments Ok {A} a.
Arguments Raise {A} e.

Definition bind {A B : Type} (m : res A) (k : A -> res B) : res B :=
  match m with
  | Ok a => k a
  | Raise e => Raise e
  end.

Notation "x <- m ;; k" := (bind m (fun x => k))
  (at level 61, m at next level, right associativity).
Notation "' pat <- m ;; k" := (bind m (fun x => match x with pat => k end))
  (at level 61, pat pattern, m at next level, right associativity).

Fixpoint mapM {A B : Type} (f : A -> res B) (l : list A) : res (list B) :=
  match l with
  | [] => Ok []
  | a :: l' => b <- f a ;; bs <- mapM f l' ;; Ok (b :: bs)
  end.

(** ** Arrays *)

Module Np.

(** [a[i]] for a Python integer [i]: negative indices count from the end,
    anything else out of range raises. *)
Definition get {A : Type} (a : list A) (i : Z) : res A :=
  let n := Z.of_nat (length a) in
  let j := if (i <? 0)%Z then (i + n)%Z else i in
  if ((0 <=? j) && (j <? n))%Z then
    match nth_error a (Z.to_nat j) with
    | Some x => Ok x
    | None => Raise IndexError
    end
  else Raise IndexError.

Fixpoint upd {A : Type} (a : list A) (j : nat) (x : A) : list A :=
  match a, j with
  | [], _ => []
  | _ :: a', O => x :: a'
  | y :: a', S j' => y :: upd a' j' x
  end.

(** [a[i] = x], with the same index rule as [get]. *)
Definition set {A : Type} (a : list A) (i : Z) (x : A) : res (list A) :=
  let n := Z.of_nat (length a) in
  let j := if (i <? 0)%Z then (i + n)%Z else i in
  if ((0 <=? j) && (j <? n))%Z then Ok (upd a (Z.to_nat j) x)
  else Raise IndexError.

(** [np.arange(lo, hi)] *)
Definition arange (lo hi : Z) : list Z :=
  map (fun k => (lo + Z.of_nat k)%Z) (seq 0 (Z.to_nat (hi - lo))).

(** [np.zeros(p)], [np.full(p, v)], [np.repeat(v, p)] *)
Definition full (p : Z) (v : Q) : list Q := repeat v (Z.to_nat p).
Definition zeros (p : Z) : list Q := full p 0.

Definition ltb (x y : Q) : bool := negb (Qle_bool y x).
Definition maximum (x y : Q) : Q := if Qle_bool x y then y else x.
Definition minimum (x y : Q) : Q := if Qle_bool x y then x else y.

Definition sum (a : list Q) : Q := fold_left Qplus a 0.

Fixpoint cumsum_from (acc : Q) (a : list Q) : list Q :=
  match a with
  | [] => []
  | x :: a' => (acc + x) :: cumsum_from (acc + x) a'
  end.

(** [np.cumsum(a)] *)
Definition cumsum (a : list Q) : list Q := cumsum_from 0 a.

(** [np.diff(a)] *)
Fixpoint diff (a : list Q) : list Q :=
  match a with
  | x :: ((y :: _) as a') => (y - x) :: diff a'
  | _ => []
  end.

(** Elementwise binary operation on two 1-d arrays under NumPy's
    broadcasting rule: equal lengths, or one of the two of length one. *)
Definition broadcast2 (f : Q -> Q -> Q) (a b : list Q) : res (list Q) :=
  if Nat.eqb (length a) (length b) then Ok (map (fun xy => f (fst xy) (snd xy)) (combine a b))
  else match a, b with
       | _, [y] => Ok (map (fun x => f x y) a)
       | [x], _ => Ok (map (fun y => f x y) b)
       | _, _ => Raise (ValueError "operands could not be broadcast together"%string)
       end.

(** [np.argmax(a)]: the first index holding the maximum; raises on an
    empty array. *)
Fixpoint argmax_from (a : list Q) (i best : nat) (bv : Q) : nat :=
  match a with
  | [] => best
  | x :: a' => if ltb bv x then argmax_from a' (S i) i x
               else argmax_from a' (S i) best bv
  end.

Definition argmax (a : list Q) : res nat :=
  match a with
  | [] => Raise (ValueError "attempt to get argmax of an empty sequence"%string)
  | x :: a' => Ok (argmax_from a' 1 0 x)
  end.

(** [a.argsort()]: the indices that sort [a] ascending.  NumPy leaves the
    order of equal keys to the sorting algorithm; the stable order is used
    here, and nothing below depends on it. *)
Fixpoint insert_index (key : nat -> Q) (j : nat) (idx : list nat) : list nat :=
  match idx with
  | [] => [j]
  | i :: idx' => if Qle_bool (key j) (key i) then j :: i :: idx'
                 else i :: insert_index key j idx'
  end.

Definition argsort (a : list Q) : list nat :=
  fold_right (insert_index (fun i => nth i a 0)) [] (seq 0 (length a)).

(** [a[idx]] for an index array produced by [argsort]. *)
Definition take (a : list Q) (idx : list nat) : list Q :=
  map (fun i => nth i a 0) idx.

End Np.

(** ** Penalised Saving Optimizer *)

Definition eps : Q := 1 # 100000000.

(** [penalise_savings] (mvcapa.py, l.226-244).  The first [if] assigns
    [penalised_savings]; it is followed by an [if], not an [elif], so one of
    the two branches below always reassigns it. *)
Definition penalise_savings (savings : list (list Q)) (alpha : Q) (betas : list Q)
  : res (list Q) :=
  let penalised_savings :=
    if forallb (fun b => Np.ltb b eps) betas
    then Some (map (fun row => Np.sum row - alpha) savings)
    else None in
  b0 <- Np.get betas 0 ;;
  if forallb (fun b => Qeq_bool b b0) betas then
    let penalised_saving_matrix :=
      map (map (fun s => Np.maximum (s - b0) 0 - alpha)) savings in
    let penalised_savings := map Np.sum penalised_saving_matrix in
    Ok penalised_savings
  else
    mapM (fun saving_i =>
            let saving_order := Np.argsort (map Qopp saving_i) in
            d <- Np.broadcast2 Qminus (Np.take saving_i saving_order) betas ;;
            let penalised_saving := map (fun x => x - alpha) (Np.cumsum d) in
            argmax <- Np.argmax penalised_saving ;;
            Np.get penalised_saving (Z.of_nat argmax))
         savings.

(** The value the first [if] of [penalise_savings] assigns when every beta
    is below [eps]: the full row sum, less [alpha] once. *)
Definition full_row_sum_minus_alpha (row : list Q) (alpha : Q) : Q :=
  Np.sum row - alpha.

(** ** Anomaly Reconstructor *)

(** The [while i >= 0] loop of [get_anomalies] (l.214-222).  An unset entry
    is NaN in the source: [size] is then NaN and both tests fail.  The cursor
    strictly decreases, so [fuel] bounds the number of iterations. *)
Fixpoint get_anomalies_loop (fuel : nat) (anomaly_starts : list (option Z)) (i : Z)
    (collective_anomalies point_anomalies : list (Z * Z))
  : res (list (Z * Z) * list (Z * Z)) :=
  if (i <? 0)%Z then Ok (collective_anomalies, point_anomalies)
  else
    match fuel with
    | O => Raise OutOfFuel
    | S fuel' =>
        start_i <- Np.get anomaly_starts i ;;
        match start_i with
        | None =>
            get_anomalies_loop fuel' anomaly_starts (i - 1)
              collective_anomalies point_anomalies
        | Some start_i =>
            let size := (i - start_i + 1)%Z in
            if (1 <? size)%Z then
              get_anomalies_loop fuel' anomaly_starts (start_i - 1)
                (collective_anomalies ++ [(start_i, i)]) point_anomalies
            else if (size =? 1)%Z then
              get_anomalies_loop fuel' anomaly_starts (i - 1)
                collective_anomalies (point_anomalies ++ [(i, i)])
            else
              get_anomalies_loop fuel' anomaly_starts (i - 1)
                collective_anomalies point_anomalies
        end
    end.

Definition get_anomalies (anomaly_starts : list (option Z))
  : res (list (Z * Z) * list (Z * Z)) :=
  let size := length anomaly_starts in
  get_anomalies_loop size anomaly_starts (Z.of_nat size - 1) [] [].

(** ** Optimal-Partitioning DP *)

Section Engine.

Variable Params : Type.

(** The saving of one interval [start..end]: one value per component. *)
Variable saving_row : Params -> Z -> Z -> list Q.

(** Modelled from the spec: the saving capability of [skchange.costs]
    (not part of the sources at hand) is called with arrays of starts and
    ends and returns a matrix with one row per interval and one column per
    component. *)
Definition saving_func (params : Params) (starts ends : list Z) : list (list Q) :=
  map (fun se => saving_row params (fst se) (snd se)) (combine starts ends).

(** [find_affected_components] (l.247-262) *)
Definition find_affected_components (params : Params) (anomalies : list (Z * Z))
    (alpha : Q) (betas : list Q) : res (list (Z * Z * list nat)) :=
  mapM (fun a =>
          let '(start, end_) := a in
          saving <- Np.get (saving_func params [start] [end_]) 0 ;;
          let saving_order := Np.argsort (map Qopp saving) in
          d <- Np.broadcast2 Qminus (Np.take saving saving_order) betas ;;
          let penalised_saving := map (fun x => x - alpha) (Np.cumsum d) in
          argmax <- Np.argmax penalised_saving ;;
          Ok (start, end_, firstn (argmax + 1) saving_order))
       anomalies.

(** [optimise_savings] (l.265-277) *)
Definition optimise_savings (starts : list Z) (opt_savings : list Q)
    (next_savings : list (list Q)) (alpha : Q) (betas : list Q) : res (Q * Z) :=
  penalised_saving <- penalise_savings next_savings alpha betas ;;
  opt_at_starts <- mapM (Np.get opt_savings) starts ;;
  candidate_savings <- Np.broadcast2 Qplus opt_at_starts penalised_saving ;;
  argmax <- Np.argmax candidate_savings ;;
  start0 <- Np.get starts 0 ;;
  let opt_start := (start0 + Z.of_nat argmax)%Z in
  best <- Np.get candidate_savings (Z.of_nat argmax) ;;
  Ok (best, opt_start).

(** The DP table [opt_savings] and the backtrack array
    [opt_anomaly_starts]. *)
Definition dp_state : Type := (list Q * list (option Z))%type.

(** One iteration of the [for t in ts] loop of [run_base_capa]
    (l.299-324). *)
Definition capa_step (params : Params)
    (collective_alpha : Q) (collective_betas : list Q)
    (point_alpha : Q) (point_betas : list Q)
    (min_segment_length max_segment_length : Z)
    (t : Z) (st : dp_state) : res dp_state :=
  let '(opt_savings, opt_anomaly_starts) := st in
  let lower_start := Z.max 0 (t - max_segment_length + 1) in
  let upper_start := (t - min_segment_length + 2)%Z in
  let starts := Np.arange lower_start upper_start in
  let ends := repeat t (length starts) in
  let collective_savings := saving_func params starts ends in
  '(opt_collective_saving, opt_start) <-
    optimise_savings starts opt_savings collective_savings
      collective_alpha collective_betas ;;
  let t_array := [t] in
  let point_savings := saving_func params t_array t_array in
  '(opt_point_saving, _) <-
    optimise_savings t_array opt_savings point_savings point_alpha point_betas ;;
  opt_t <- Np.get opt_savings t ;;
  let savings := [opt_t; opt_collective_saving; opt_point_saving] in
  argmax <- Np.argmax savings ;;
  best <- Np.get savings (Z.of_nat argmax) ;;
  opt_savings' <- Np.set opt_savings (t + 1) best ;;
  if Nat.eqb argmax 1 then
    opt_anomaly_starts' <- Np.set opt_anomaly_starts t (Some opt_start) ;;
    Ok (opt_savings', opt_anomaly_starts')
  else if Nat.eqb argmax 2 then
    opt_anomaly_starts' <- Np.set opt_anomaly_starts t (Some t) ;;
    Ok (opt_savings', opt_anomaly_starts')
  else Ok (opt_savings', opt_anomaly_starts).

Fixpoint capa_loop (params : Params)
    (collective_alpha : Q) (collective_betas : list Q)
    (point_alpha : Q) (point_betas : list Q)
    (min_segment_length max_segment_length : Z)
    (ts : list Z) (st : dp_state) : res dp_state :=
  match ts with
  | [] => Ok st
  | t :: ts' =>
      st' <- capa_step params collective_alpha collective_betas
               point_alpha point_betas min_segment_length max_segment_length t st ;;
      capa_loop params collective_alpha collective_betas
        point_alpha point_betas min_segment_length max_segment_length ts' st'
  end.

(** The forward pass of [run_base_capa] (l.292-324): both arrays as they
    stand when the loop ends.  [n] is [X.shape[0]]. *)
Definition capa_forward (n : Z) (params : Params)
    (collective_alpha : Q) (collective_betas : list Q)
    (point_alpha : Q) (point_betas : list Q)
    (min_segment_length max_segment_length : Z) : res dp_state :=
  let opt_savings := Np.zeros (n + 1) in
  let opt_anomaly_starts := repeat (@None Z) (Z.to_nat n) in
  let ts := Np.arange (min_segment_length - 1) n in
  capa_loop params collective_alpha collective_betas point_alpha point_betas
    min_segment_length max_segment_length ts (opt_savings, opt_anomaly_starts).

(** [run_base_capa] (l.280-327) *)
Definition run_base_capa (X : list (list Q)) (params : Params)
    (collective_alpha : Q) (collective_betas : list Q)
    (point_alpha : Q) (point_betas : list Q)
    (min_segment_length max_segment_length : Z)
  : res (list Q * list (Z * Z) * list (Z * Z)) :=
  let n := Z.of_nat (length X) in
  '(opt_savings, opt_anomaly_starts) <-
    capa_forward n params collective_alpha collective_betas
      point_alpha point_betas min_segment_length max_segment_length ;;
  '(collective_anomalies, point_anomalies) <- get_anomalies opt_anomaly_starts ;;
  Ok (tl opt_savings, collective_anomalies, point_anomalies).

Variable saving_init_func : list (list Q) -> Params.

(** [run_mvcapa] (l.330-366) *)
Definition run_mvcapa (X : list (list Q))
    (collective_alpha : Q) (collective_betas : list Q)
    (point_alpha : Q) (point_betas : list Q)
    (min_segment_length max_segment_length : Z)
  : res (list Q * list (Z * Z * list nat) * list (Z * Z * list nat)) :=
  let params := saving_init_func X in
  '(opt_savings, collective_anomalies, point_anomalies) <-
    run_base_capa X params collective_alpha collective_betas
      point_alpha point_betas min_segment_length max_segment_length ;;
  collective_anomalies <-
    find_affected_components params collective_anomalies
      collective_alpha collective_betas ;;
  point_anomalies <-
    find_affected_components params point_anomalies point_alpha point_betas ;;
  Ok (opt_savings, collective_anomalies, point_anomalies).

End Engine.

(** ** Penalty Builder *)

Definition penalty_fn : Type := Z -> Z -> Z -> Q -> res (Q * list Q).

Section Penalties.

(** [np.log], [np.sqrt], [scipy.stats.chi2.ppf] and [chi2.pdf] are library
    functions; the penalty policies are parametric in them. *)
Variable np_log np_sqrt : Q -> Q.
Variable chi2_ppf chi2_pdf : Q -> Z -> Q.

Local Notation "# z" := (inject_Z z) (at level 1, format "# z").

(** [dense_capa_penalty] (l.38-63) *)
Definition dense_capa_penalty (n p n_params : Z) (scale : Q) : Q * list Q :=
  let psi := np_log #n in
  let penalty :=
    scale * (#(p * n_params) + 2 * np_sqrt (#(p * n_params) * psi) + 2 * psi) in
  (penalty, Np.zeros p).

(** [sparse_capa_penalty] (l.66-92) *)
Definition sparse_capa_penalty (n p n_params : Z) (scale : Q) : Q * list Q :=
  let psi := np_log #n in
  let dense_penalty := 2 * scale * psi in
  let sparse_penalty := 2 * scale * np_log #(n_params * p) in
  (dense_penalty, Np.full p sparse_penalty).

(** [penalty_func], local to [intermediate_capa_penalty] (l.121-130) *)
Definition penalty_func (n p n_params : Z) (scale : Q) (j : Z) : Q :=
  let psi := np_log #n in
  let c_j := chi2_ppf (1 - #j / #p) n_params in
  let f_j := chi2_pdf c_j n_params in
  scale * (2 * (psi + np_log #p)
           + #(j * n_params)
           + 2 * #p * c_j * f_j
           + 2 * np_sqrt ((#(j * n_params) + 2 * #p * c_j * f_j) * (psi + np_log #p))).

(** [intermediate_capa_penalty] (l.95-134) *)
Definition intermediate_capa_penalty (n p n_params : Z) (scale : Q)
  : res (Q * list Q) :=
  if (p <? 2)%Z then Raise (ValueError "p must be at least 2."%string)
  else
    let penalties := map (penalty_func n p n_params scale) (Np.arange 1 p) in
    last_penalty <- Np.get penalties (-1) ;;
    Ok (0, Np.diff ((0 :: penalties) ++ [last_penalty])).

(** [a[1:] = v] on an array [a] of length [p + 1]: [v] has length [p], or
    length one and is broadcast. *)
Definition assign_tail (a v : list Q) : res (list Q) :=
  match a with
  | [] => Raise (ValueError "could not broadcast input array"%string)
  | a0 :: a' =>
      if Nat.eqb (length v) (length a') then Ok (a0 :: v)
      else match v with
           | [x] => Ok (a0 :: repeat x (length a'))
           | _ => Raise (ValueError "could not broadcast input array"%string)
           end
  end.

(** [combined_capa_penalty] (l.137-175) *)
Definition combined_capa_penalty (n p n_params : Z) (scale : Q)
  : res (Q * list Q) :=
  if (p <? 2)%Z then Ok (dense_capa_penalty n 1 n_params scale)
  else
    let '(dense_alpha, dense_betas) := dense_capa_penalty n p n_params scale in
    let '(sparse_alpha, sparse_betas) := sparse_capa_penalty n p n_params scale in
    '(intermediate_alpha, intermediate_betas) <-
      intermediate_capa_penalty n p n_params scale ;;
    let dense_penalties := map (Qplus dense_alpha) (Np.cumsum dense_betas) in
    let sparse_penalties := map (Qplus sparse_alpha) (Np.cumsum sparse_betas) in
    let intermediate_penalties :=
      map (Qplus intermediate_alpha) (Np.cumsum intermediate_betas) in
    inner <- Np.broadcast2 Np.minimum sparse_penalties intermediate_penalties ;;
    mins <- Np.broadcast2 Np.minimum dense_penalties inner ;;
    pointwise_min_penalties <- assign_tail (Np.zeros (p + 1)) mins ;;
    Ok (0, Np.diff pointwise_min_penalties).

(** The [penalty] argument: a policy name or a callable. *)
Inductive penalty_arg : Type :=
| PenaltyName (name : string)
| PenaltyCallable (f : penalty_fn).

(** [capa_penalty_factory] (l.178-204) *)
Definition capa_penalty_factory (penalty : penalty_arg) : res penalty_fn :=
  match penalty with
  | PenaltyCallable f => Ok f
  | PenaltyName name =>
      if String.eqb name "dense" then
        Ok (fun n p n_params scale => Ok (dense_capa_penalty n p n_params scale))
      else if String.eqb name "sparse" then
        Ok (fun n p n_params scale => Ok (sparse_capa_penalty n p n_params scale))
      else if String.eqb name "intermediate" then Ok intermediate_capa_penalty
      else if String.eqb name "combined" then Ok combined_capa_penalty
      else Raise (ValueError ("Unknown penalty: " ++ name))
  end.

(** ** The estimator *)

Variable Params : Type.
Variable saving_row : Params -> Z -> Z -> list Q.
Variable saving_init_func : list (list Q) -> Params.

(** The attributes of [Mvcapa] the engine reads; [saving] is the pair
    [(saving_row, saving_init_func)] above. *)
Record Mvcapa : Type := {
  collective_penalty : penalty_arg;
  collective_penalty_scale : Q;
  point_penalty : penalty_arg;
  point_penalty_scale : Q;
  min_segment_length : Z;
  max_segment_length : Z;
  ignore_point_anomalies : bool
}.

(** [Mvcapa.__init__] (l.431-459) *)
Definition Mvcapa_init (collective_penalty' : penalty_arg) (collective_penalty_scale' : Q)
    (point_penalty' : penalty_arg) (point_penalty_scale' : Q)
    (min_segment_length' max_segment_length' : Z) (ignore_point_anomalies' : bool)
  : res Mvcapa :=
  let self := {| collective_penalty := collective_penalty';
                 collective_penalty_scale := collective_penalty_scale';
                 point_penalty := point_penalty';
                 point_penalty_scale := point_penalty_scale';
                 min_segment_length := min_segment_length';
                 max_segment_length := max_segment_length';
                 ignore_point_anomalies := ignore_point_anomalies' |} in
  if (self.(min_segment_length) <? 2)%Z then
    Raise (ValueError "min_segment_length must be at least 2."%string)
  else if (self.(max_segment_length) <? self.(min_segment_length))%Z then
    Raise (ValueError "max_segment_length must be at least min_segment_length."%string)
  else Ok self.

(** [X.shape[0]] and [X.shape[1]] of a frame given by its rows. *)
Definition shape0 (X : list (list Q)) : Z := Z.of_nat (length X).
Definition shape1 (X : list (list Q)) : Z := Z.of_nat (length (hd [] X)).

(** [check_capa_input] (l.18-35); a frame of rationals has no missing
    value. *)
Definition check_capa_input (X : list (list Q)) (min_segment_length' : Z)
  : res (list (list Q)) :=
  let n := shape0 X in
  if (n <? min_segment_length')%Z then
    Raise (ValueError "X must have at least min_segment_length samples"%string)
  else Ok X.

(** [Mvcapa._get_penalty_components] (l.476-491) *)
Definition get_penalty_components (self : Mvcapa) (X : list (list Q))
  : res (Q * list Q * Q * list Q) :=
  let n := shape0 X in
  let p := shape1 X in
  let n_params := 1%Z in
  collective_penalty_func <- capa_penalty_factory self.(collective_penalty) ;;
  '(collective_alpha, collective_betas) <-
    collective_penalty_func n p n_params self.(collective_penalty_scale) ;;
  point_penalty_func <- capa_penalty_factory self.(point_penalty) ;;
  '(point_alpha, point_betas) <-
    point_penalty_func n p n_params self.(point_penalty_scale) ;;
  Ok (collective_alpha, collective_betas, point_alpha, point_betas).

(** The fitted estimator: [self] with the attributes [_fit] adds. *)
Record FittedMvcapa : Type := {
  estimator : Mvcapa;
  collective_alpha_ : Q;
  collective_betas_ : list Q;
  point_alpha_ : Q;
  point_betas_ : list Q
}.

(** [Mvcapa._fit] (l.493-523) *)
Definition fit (self : Mvcapa) (X : list (list Q)) : res FittedMvcapa :=
  X <- check_capa_input X self.(min_segment_length) ;;
  '(ca, cb, pa, pb) <- get_penalty_components self X ;;
  Ok {| estimator := self;
        collective_alpha_ := ca; collective_betas_ := cb;
        point_alpha_ := pa; point_betas_ := pb |}.

(** [Mvcapa._predict] (l.525-550), up to the call of the output
    formatter: the anomalies the engine returns. *)
Definition predict_anomalies (self : FittedMvcapa) (X : list (list Q))
  : res (list Q * list (Z * Z * list nat) * list (Z * Z * list nat)) :=
  X <- check_capa_input X self.(estimator).(min_segment_length) ;;
  run_mvcapa saving_row saving_init_func X
    self.(collective_alpha_) self.(collective_betas_)
    self.(point_alpha_) self.(point_betas_)
    self.(estimator).(min_segment_length) self.(estimator).(max_segment_length).

End Penalties.

(** * Specifications *)

(** ** The penalised saving of a row, in the words of the design notes *)

Module Spec.

Fixpoint insert_desc (x : Q) (l : list Q) : list Q :=
  match l with
  | [] => [x]
  | y :: l' => if Qle_bool y x then x :: y :: l' else y :: insert_desc x l'
  end.

(** "sort the row's component savings in descending order" *)
Definition sort_desc (row : list Q) : list Q := fold_right insert_desc [] row.

Definition list_max (d : Q) (l : list Q) : Q :=
  match l with
  | [] => d
  | x :: l' => fold_left Np.maximum l' x
  end.

(** "for subset sizes k = 1..p, compute cumulative_saving(k) - betas[k-1];
    take the maximum over k, then subtract alpha" *)
Definition penalised_saving (row : list Q) (alpha : Q) (betas : list Q) : Q :=
  let sorted := sort_desc row in
  list_max 0
    (map (fun k => Np.sum (firstn k sorted) - nth (k - 1) betas 0)
         (seq 1 (length row)))
  - alpha.

End Spec.

Definition ascending (betas : list Q) : Prop := StronglySorted Qle betas.

(** The saving of the [k] largest components less the first [k] betas. *)
Definition cumulative_penalised (sorted betas : list Q) (k : nat) : Q :=
  Np.sum (firstn k sorted) - Np.sum (firstn k betas).

(** [v] is the largest of the values [f k], [k] ranging over [ks]. *)
Definition is_max_over (f : nat -> Q) (ks : list nat) (v : Q) : Prop :=
  (exists k, In k ks /\ v == f k) /\ (forall k, In k ks -> f k <= v).

(** The general branch is taken exactly when some beta differs from the
    first one. *)
Definition betas_differ (betas : list Q) : Prop :=
  exists b, In b betas /\ ~ b == hd 0 betas.

(** What the general branch of [penalise_savings] returns for one row. *)
Definition cumulative_row_spec (alpha : Q) (betas row : list Q) (v : Q) : Prop :=
  exists sorted,
    Permutation sorted row /\
    StronglySorted (fun x y => y <= x) sorted /\
    is_max_over (fun k => cumulative_penalised sorted betas k - alpha)
                (seq 1 (length row)) v.

(** ** Penalty curves *)

(** The penalty a policy [(alpha, betas)] charges for [k] affected
    components: alpha plus the first [k] betas. *)
Definition cumulative_penalty (pen : Q * list Q) (k : nat) : Q :=
  fst pen + Np.sum (firstn k (snd pen)).

(** The cumulative curve [alpha + cumsum(betas)] of a policy, and the
    pointwise minimum of three curves. *)
Definition curve (pen : Q * list Q) : list Q :=
  map (Qplus (fst pen)) (Np.cumsum (snd pen)).

Definition min_curve (dense sparse intermediate : Q * list Q) : list Q :=
  map (fun xy => Np.minimum (fst xy) (snd xy))
    (combine (curve dense)
       (map (fun xy => Np.minimum (fst xy) (snd xy))
          (combine (curve sparse) (curve intermediate)))).

(** ** Configuration *)

Definition policy_names : list string :=
  ["dense"; "sparse"; "intermediate"; "combined"]%string.

Definition is_value_error {A : Type} (r : res A) : Prop :=
  exists msg, r = Raise (ValueError msg).

Definition is_ok {A : Type} (r : res A) : Prop :=
  exists a, r = Ok a.

(** ** The recurrence of the DP *)

(** The penalised saving of one interval's row, as [penalise_savings]
    returns it for the one-row matrix. *)
Definition penalised_value (alpha : Q) (betas row : list Q) : Q :=
  match penalise_savings [row] alpha betas with
  | Ok [v] => v
  | _ => 0
  end.

(** [s] is the first maximiser of [f] over [lo, hi). *)
Definition first_argmax (f : Z -> Q) (lo hi s : Z) : Prop :=
  (lo <= s < hi)%Z /\
  (forall s', (lo <= s' < hi)%Z -> f s' <= f s) /\
  (forall s', (lo <= s' < s)%Z -> f s' < f s).

(** [opt_savings[i]] and [opt_anomaly_starts[i]], for [0 <= i]. *)
Definition at_ (opt : list Q) (i : Z) : Q := nth (Z.to_nat i) opt 0.
Definition origin_at (origin : list (option Z)) (i : Z) : option Z :=
  nth (Z.to_nat i) origin None.

Section Recurrence.

Variable Params : Type.
Variable saving_row : Params -> Z -> Z -> list Q.
Variable params : Params.
Variable collective_alpha : Q.
Variable collective_betas : list Q.
Variable point_alpha : Q.
Variable point_betas : list Q.
Variable min_segment_length max_segment_length : Z.

(** Every row the saving function returns has one entry per beta. *)
Definition well_shaped : Prop :=
  collective_betas <> [] /\ point_betas <> [] /\
  forall s e, length (saving_row params s e) = length collective_betas /\
              length (saving_row params s e) = length point_betas.

(** Hypothesis 2 at [t] with start [s]; hypothesis 3 at [t]. *)
Definition collective_value (opt : list Q) (t s : Z) : Q :=
  at_ opt s + penalised_value collective_alpha collective_betas (saving_row params s t).
Definition point_value (opt : list Q) (t : Z) : Q :=
  at_ opt t + penalised_value point_alpha point_betas (saving_row params t t).

(** The three-way choice at [t], read off the final arrays. *)
Definition recurrence_at (opt : list Q) (origin : list (option Z)) (t : Z) : Prop :=
  exists s_star,
    first_argmax (collective_value opt t)
      (Z.max 0 (t - max_segment_length + 1)) (t - min_segment_length + 2) s_star /\
    let v0 := at_ opt t in
    let v1 := collective_value opt t s_star in
    let v2 := point_value opt t in
    (v1 <= v0 /\ v2 <= v0 /\ at_ opt (t + 1) = v0 /\ origin_at origin t = None) \/
    (v0 < v1 /\ v2 <= v1 /\ at_ opt (t + 1) = v1 /\ origin_at origin t = Some s_star) \/
    (v0 < v2 /\ v1 < v2 /\ at_ opt (t + 1) = v2 /\ origin_at origin t = Some t).

End Recurrence.

(** ** Reconstructed anomalies *)

(** Every set entry of the backtrack array is a start at or before its own
    index. *)
Definition origin_ok (origin : list (option Z)) : Prop :=
  forall i s, (0 <= i < Z.of_nat (length origin))%Z ->
              origin_at origin i = Some s -> (0 <= s <= i)%Z.

Definition disjoint (a b : Z * Z) : Prop := (snd a < fst b \/ snd b < fst a)%Z.

Definition pairwise_disjoint (l : list (Z * Z)) : Prop := ForallOrdPairs disjoint l.

Definition covers (l : list (Z * Z)) (j : Z) : Prop :=
  exists a, In a l /\ (fst a <= j <= snd a)%Z.

(** Later entries lie wholly before earlier ones. *)
Definition descending (l : list (Z * Z)) : Prop :=
  StronglySorted (fun a b => (snd b < fst a)%Z) l.

(** Earlier entries lie wholly before later ones. *)
Definition ascending_positions (l : list (Z * Z)) : Prop :=
  StronglySorted (fun a b => (snd a < fst b)%Z) l.

(** The state of the backward walk with cursor [i]: what has been emitted
    lies after the cursor and accounts for every set entry after it. *)
Record walk_inv (origin : list (option Z)) (i : Z) (coll pts : list (Z * Z)) : Prop := {
  wi_coll : Forall (fun a => (i < fst a /\ 0 <= fst a /\ fst a < snd a /\
                              snd a < Z.of_nat (length origin))%Z /\
                             origin_at origin (snd a) = Some (fst a)) coll;
  wi_pts : Forall (fun a => (i < fst a /\ 0 <= fst a /\ fst a = snd a /\
                             snd a < Z.of_nat (length origin))%Z /\
                            origin_at origin (snd a) = Some (fst a)) pts;
  wi_desc_coll : descending coll;
  wi_desc_pts : descending pts;
  wi_cross : forall c q, In c coll -> In q pts -> disjoint c q;
  wi_cover : forall j, (i < j < Z.of_nat (length origin))%Z ->
                       origin_at origin j <> None -> covers (coll ++ pts) j
}.

(** ** Penalty scales *)

(** A penalty that is linear in its scale, as the dense and sparse policies
    are: the base penalty multiplied by [scale]. *)
Definition scale_penalty (scale : Q) (base : Q * list Q) : Q * list Q :=
  (scale * fst base, map (Qmult scale) (snd base)).

Definition nonneg_penalty (base : Q * list Q) : Prop :=
  0 <= fst base /\ Forall (Qle 0) (snd base).

(** The number of anomalies in the engine's output. *)
Definition anomaly_count
    (r : list Q * list (Z * Z * list nat) * list (Z * Z * list nat)) : nat :=
  length (snd (fst r)) + length (snd r).

(** ** Concrete inputs *)

Module Inputs.

(** A frame of [n] rows and one column. *)
Definition frame (n : nat) : list (list Q) := repeat [0] n.

Definition init (_ : list (list Q)) : unit := tt.

(** One component; the interval 0..3 saves 22, the points 1 and 3 save 5
    each, everything else nothing. *)
Definition saving_a (_ : unit) (s e : Z) : list Q :=
  [if ((s =? 0) && (e =? 3))%Z then 22
   else if ((s =? e) && ((s =? 1) || (s =? 3)))%Z then 5
   else 0].

(** One component; the interval 0..2 saves 5, the interval 2..4 saves 10,
    everything else nothing. *)
Definition saving_b (_ : unit) (s e : Z) : list Q :=
  [if ((s =? 0) && (e =? 2))%Z then 5
   else if ((s =? 2) && (e =? 4))%Z then 10
   else 0].

(** Rational stand-ins for the library functions of the penalty policies. *)
Definition lg (x : Q) : Q := x - 1.
Definition sq (x : Q) : Q := x / 2.
Definition ppf (q : Q) (_ : Z) : Q := 1 - q.
Definition pdf (q : Q) (_ : Z) : Q := q.

(** A custom penalty callable, linear in its scale. *)
Definition linear_penalty (base : Q * list Q) : penalty_fn :=
  fun _ _ _ scale => Ok (scale_penalty scale base).

(** Construct, fit and predict on a frame of four rows, with the collective
    penalty 10 and the point penalty 1 at scale [s]. *)
Definition detect_at_scale (s : Q)
  : res (list Q * list (Z * Z * list nat) * list (Z * Z * list nat)) :=
  self <- Mvcapa_init (PenaltyCallable (linear_penalty (10, [0]))) s
            (PenaltyCallable (linear_penalty (1, [0]))) s 2 1000 false ;;
  fitted <- fit lg sq ppf pdf self (frame 4) ;;
  predict_anomalies saving_a init fitted (frame 4).

End Inputs.


(** * Further specifications *)

(** ** Segmentations and their value *)

Section Segmentation.

Variable Params : Type.
Variable saving_row : Params -> Z -> Z -> list Q.
Variable params : Params.
Variable collective_alpha : Q.
Variable collective_betas : list Q.
Variable point_alpha : Q.
Variable point_betas : list Q.
Variable min_segment_length max_segment_length : Z.

(** The penalised saving of the anomaly [(start, end)]: under the point
    penalty when [start = end], under the collective penalty otherwise. *)
Definition anomaly_value (a : Z * Z) : Q :=
  if (fst a =? snd a)%Z
  then penalised_value point_alpha point_betas (saving_row params (snd a) (snd a))
  else penalised_value collective_alpha collective_betas
         (saving_row params (fst a) (snd a)).

Definition total_value (seg : list (Z * Z)) : Q := Np.sum (map anomaly_value seg).

(** The anomalies the loop of [run_base_capa] considers on [n] samples: a
    point anomaly at any [t] from [min_segment_length - 1] on, a collective
    anomaly of a length between the two bounds. *)
Definition admissible (n : Z) (a : Z * Z) : Prop :=
  (0 <= fst a /\ snd a < n)%Z /\
  ((fst a = snd a /\ min_segment_length - 1 <= snd a)%Z \/
   (min_segment_length <= snd a - fst a + 1 <= max_segment_length)%Z).

End Segmentation.

(** [self.scores = np.diff(opt_savings, prepend=0.0)] ([Mvcapa._predict],
    l.551). *)
Definition anomaly_scores (opt_savings : list Q) : list Q :=
  Np.diff (0 :: opt_savings).



(** ** Penalties as functions of the scale *)

(** [pen] is [base] with its alpha and every beta multiplied by [s]. *)
Definition scaled_from (s : Q) (pen base : Q * list Q) : Prop :=
  fst pen == s * fst base /\ Forall2 (fun a b => a == s * b) (snd pen) (snd base).

(** * Changepoint utilities ([skchange/change_detectors/utils.py]) *)

Module ChangeUtils.

(** The bound of a slice [a[lo:hi]] on an array of length [n]: a negative
    index counts from the end, and the result is clipped to [0, n]. *)
Definition slice_bound (n x : Z) : Z :=
  if (x <? 0)%Z then Z.max (x + n) 0 else Z.min x n.

(** [a[lo:hi] = v] *)
Definition slice_fill (a : list Q) (lo hi : Z) (v : Q) : list Q :=
  let n := Z.of_nat (length a) in
  let l := slice_bound n lo in
  let h := slice_bound n hi in
  map (fun jx => if ((l <=? Z.of_nat (fst jx)) && (Z.of_nat (fst jx) <? h))%Z
                 then v else snd jx)
      (combine (seq 0 (length a)) a).

(** [changepoints_to_labels] (utils.py, l.7-26) *)
Definition changepoints_to_labels (changepoints : list Z) (n : Z) : res (list Q) :=
  let changepoints := ([-1] ++ changepoints ++ [n - 1])%Z in
  if (n <? 0)%Z then Raise (ValueError "negative dimensions are not allowed"%string)
  else
    let labels := Np.zeros n in
    Ok (fold_left
          (fun labels i =>
             slice_fill labels (nth i changepoints 0 + 1)%Z
               (nth (i + 1) changepoints 0 + 1)%Z (inject_Z (Z.of_nat i)))
          (seq 0 (length changepoints - 1)) labels).

(** The number of changepoints before position [j]. *)
Definition changepoints_before (changepoints : list Z) (j : Z) : nat :=
  length (filter (fun c => (c <? j)%Z) changepoints).

(** The loop of [changepoints_to_labels] from segment [i] on, the previous
    changepoint being [prev]. *)
Fixpoint fill_segments (i : nat) (prev : Z) (rest : list Z) (labels : list Q) : list Q :=
  match rest with
  | [] => labels
  | c :: rest' =>
      fill_segments (S i) c rest'
        (slice_fill labels (prev + 1) (c + 1) (inject_Z (Z.of_nat i)))
  end.

End ChangeUtils.

From Stdlib Require Qround.
(** ** Seeded binary segmentation

    [skchange/change_detectors/binary_segmentation.py].  The interval
    length, the step and the interval bounds are floats holding integers in
    the source; they are [Z] here and the [int(...)] around them is the
    identity.  The maximizers stay floats. *)

Module BinSeg.

(** [int(x)] of a float: truncation towards zero. *)
Definition int_ (x : Q) : Z := Z.quot (Qnum x) (Z.pos (Qden x)).




(** [(cpt >= starts) & (cpt < ends)] under NumPy's broadcasting rule. *)
Definition interval_mask (cpt : Q) (starts ends : list Z) : res (list bool) :=
  let ge := map (fun s => Qle_bool (inject_Z s) cpt) starts in
  let lt := map (fun e => Np.ltb cpt (inject_Z e)) ends in
  if Nat.eqb (length ge) (length lt)
  then Ok (map (fun xy : bool * bool => fst xy && snd xy) (combine ge lt))
  else match ge, lt with
       | _, [y] => Ok (map (fun x => x && y) ge)
       | [x], _ => Ok (map (fun y => x && y) lt)
       | _, _ => Raise (ValueError "operands could not be broadcast together"%string)
       end.

(** [scores[mask] = v] for a boolean mask, which must have the length of
    [scores]. *)
Definition assign_masked (scores : list Q) (mask : list bool) (v : Q) : res (list Q) :=
  if Nat.eqb (length mask) (length scores)
  then Ok (map (fun sm : Q * bool => if snd sm then v else fst sm) (combine scores mask))
  else Raise IndexError.

(** The [while np.any(scores > threshold)] loop of
    [greedy_changepoint_selection] (l.55-59). *)
Fixpoint greedy_loop (fuel : nat) (scores maximizers : list Q) (starts ends : list Z)
    (threshold : Q) (cpts : list Z) : res (list Z) :=
  if existsb (fun s => Np.ltb threshold s) scores then
    match fuel with
    | O => Raise OutOfFuel
    | S fuel' =>
        argmax <- Np.argmax scores ;;
        cpt <- Np.get maximizers (Z.of_nat argmax) ;;
        mask <- interval_mask cpt starts ends ;;
        scores <- assign_masked scores mask 0 ;;
        greedy_loop fuel' scores maximizers starts ends threshold (cpts ++ [int_ cpt])
    end
  else Ok cpts.

(** [cpts.sort()] on a list of integers. *)
Fixpoint insert_sorted (x : Z) (l : list Z) : list Z :=
  match l with
  | [] => [x]
  | y :: l' => if (x <=? y)%Z then x :: l else y :: insert_sorted x l'
  end.

Definition sort_ints (l : list Z) : list Z := fold_right insert_sorted [] l.

(** [greedy_changepoint_selection] (l.45-61). *)
Definition greedy_changepoint_selection (fuel : nat) (scores maximizers : list Q)
    (starts ends : list Z) (threshold : Q) : res (list Z) :=
  cpts <- greedy_loop fuel scores maximizers starts ends threshold [] ;;
  Ok (sort_ints cpts).

(** *** Notions for the statements about the seeded intervals *)



(** *** Notions for the statements about the greedy selection *)

(** Entry [i] of [scores] exceeds the threshold. *)
Definition above (threshold : Q) (scores : list Q) (i : nat) : Prop :=
  (i < length scores)%nat /\ threshold < nth i scores 0.

(** [m] lies in the half-open interval [starts[i], ends[i]). *)
Definition inside (starts ends : list Z) (i : nat) (m : Q) : Prop :=
  inject_Z (nth i starts 0%Z) <= m /\ m < inject_Z (nth i ends 0%Z).

Definition in_mask (starts ends : list Z) (m : Q) (i : nat) : bool :=
  Qle_bool (inject_Z (nth i starts 0%Z)) m && Np.ltb m (inject_Z (nth i ends 0%Z)).

(** [scores] after [scores[(cpt >= starts) & (cpt < ends)] = 0.0]. *)
Definition zeroed (starts ends : list Z) (cpt : Q) (scores : list Q) : list Q :=
  map (fun i => if in_mask starts ends cpt i then 0 else nth i scores 0)
      (seq 0 (length scores)).

Definition count_above (threshold : Q) (scores : list Q) : nat :=
  length (filter (fun s => Np.ltb threshold s) scores).

(** Interval [i] contains none of the maximizers of the intervals [pre]. *)
Definition uncovered (maximizers : list Q) (starts ends : list Z) (pre : list nat)
    (i : nat) : Prop :=
  forall k, In k pre -> ~ inside starts ends i (nth k maximizers 0).

(** [j] is the greedy choice after the intervals [pre] have been chosen: the
    first interval of the highest score among the intervals above the
    threshold that contain no maximizer chosen so far. *)
Definition greedy_choice (scores maximizers : list Q) (starts ends : list Z)
    (threshold : Q) (pre : list nat) (j : nat) : Prop :=
  above threshold scores j /\
  uncovered maximizers starts ends pre j /\
  forall i, above threshold scores i -> uncovered maximizers starts ends pre i ->
    nth i scores 0 <= nth j scores 0 /\ ((i < j)%nat -> nth i scores 0 < nth j scores 0).

Fixpoint greedy_trace (scores maximizers : list Q) (starts ends : list Z)
    (threshold : Q) (pre sel : list nat) : Prop :=
  match sel with
  | [] => True
  | j :: sel' =>
      greedy_choice scores maximizers starts ends threshold pre j /\
      greedy_trace scores maximizers starts ends threshold (pre ++ [j]) sel'
  end.

Section Run.

Variable Params : Type.
Variable score_func : Params -> Z -> Z -> Z -> Q.
Variable score_init_func : list (list Q) -> Params.



End Run.

End BinSeg.

(** A score for the runs on concrete inputs: the split 4 scores 9, the
    split 7 scores 5, every other split 1. *)
Module SegInputs.

Definition score (_ : unit) (s e k : Z) : Q :=
  inject_Z (if (k =? 4)%Z then 9 else if (k =? 7)%Z then 5 else 1).

End SegInputs.

(** ** The windows of the moving score

    [skchange/anomaly_detectors/moscore_anomaly.py].  The score function and
    [greedy_anomaly_selection], which the module imports, are parameters. *)

Module Moscore.

(** [np.concatenate(arrays)] of a tuple of 1-d arrays. *)
Definition concatenate (arrays : list (list Z)) : res (list Z) :=
  match arrays with
  | [] => Raise (ValueError "need at least one array to concatenate"%string)
  | _ :: _ => Ok (concat arrays)
  end.

Section Run.

Variable Params : Type.
Variable score_f : Params -> list Z -> list Z -> list Z -> list Z -> res (list Q).
Variable score_init_f : list (list Q) -> Params.
Variable greedy_anomaly_selection :
  list Q -> list Z -> list Z -> list Z -> list Z -> Q -> res (list (Z * Z)).

(** [run_moscore_anomaly] (l.19-53).  The second generator zips the kept
    start arrays with all of [anomaly_lengths]. *)
Definition run_moscore_anomaly (X : list (list Q)) (anomaly_lengths : list Z)
    (left_bandwidth right_bandwidth : Z) (threshold : Q)
  : res (list (Z * Z) * list Q * list Z * list Z) :=
  let n := Z.of_nat (length X) in
  let starts :=
    map (fun k => Np.arange left_bandwidth (n - k - right_bandwidth))
        (filter (fun k => (left_bandwidth + k + right_bandwidth <=? n)%Z) anomaly_lengths) in
  let ends :=
    map (fun sk : list Z * Z => map (fun start => (start + snd sk - 1)%Z) (fst sk))
        (filter (fun sk : list Z * Z =>
                   (left_bandwidth + snd sk + right_bandwidth <=? n)%Z)
                (combine starts anomaly_lengths)) in
  starts <- concatenate starts ;;
  ends <- concatenate ends ;;
  let background_starts := map (fun s => (s - left_bandwidth)%Z) starts in
  let background_ends := map (fun e => (e + right_bandwidth)%Z) ends in
  let params := score_init_f X in
  scores <- score_f params background_starts background_ends starts ends ;;
  anomalies <-
    greedy_anomaly_selection scores starts ends background_starts background_ends
      threshold ;;
  Ok (anomalies, scores, starts, ends).

End Run.

(** The window start..end has one of the lengths, and its background
    reaches from start - left_bandwidth >= 0 to end + right_bandwidth
    <= n - 2. *)
Definition window (n : Z) (anomaly_lengths : list Z) (left_bandwidth right_bandwidth : Z)
    (s e : Z) : Prop :=
  (0 <= s - left_bandwidth)%Z /\ (e + right_bandwidth <= n - 2)%Z /\
  exists k, In k anomaly_lengths /\ e = (s + k - 1)%Z.

End Moscore.

(** A score and a selection for the runs on concrete inputs. *)
Module MoscoreInputs.

Definition score (_ : unit) (background_starts background_ends starts ends : list Z)
  : res (list Q) :=
  Ok (map inject_Z starts).

Definition select (scores : list Q) (starts ends background_starts background_ends : list Z)
    (threshold : Q) : res (list (Z * Z)) :=
  Ok [].

End MoscoreInputs.


(** * Properties *)

(** ** Arrays *)

Lemma bind_Ok_inv {A B : Type} (m : res A) (k : A -> res B) (b : B) :
  bind m k = Ok b -> exists a, m = Ok a /\ k a = Ok b.
Proof. destruct m as [a|e]; simpl; intros H; [eauto | discriminate]. Qed.

Lemma bind_Ok {A B : Type} (a : A) (k : A -> res B) : bind (Ok a) k = k a.
Proof. reflexivity. Qed.

Lemma mapM_Ok_Forall2 {A B : Type} (f : A -> res B) (l : list A) (bs : list B) :
  mapM f l = Ok bs <-> Forall2 (fun a b => f a = Ok b) l bs.
Proof.
  revert bs; induction l as [|a l IH]; intros bs; simpl.
  - split; intros H.
    + injection H as <-. constructor.
    + inversion H. reflexivity.
  - split; intros H.
    + apply bind_Ok_inv in H. destruct H as (b & Hb & H).
      apply bind_Ok_inv in H. destruct H as (bs' & Hbs & H).
      injection H as <-. constructor; [exact Hb | apply IH; exact Hbs].
    + inversion H as [|a' b l' bs' Hb Hbs]; subst.
      rewrite Hb. simpl. apply IH in Hbs. rewrite Hbs. reflexivity.
Qed.

Module NpFacts.
Import Np.

Lemma ltb_true (x y : Q) : ltb x y = true <-> x < y.
Proof.
  unfold ltb. rewrite negb_true_iff. split; intros H.
  - apply Qnot_le_lt. intros Hle. apply Qle_bool_iff in Hle. congruence.
  - destruct (Qle_bool y x) eqn:E; [|reflexivity].
    apply Qle_bool_iff in E. lra.
Qed.

Lemma ltb_false (x y : Q) : ltb x y = false <-> y <= x.
Proof.
  unfold ltb. rewrite negb_false_iff. apply Qle_bool_iff.
Qed.

Lemma Qle_bool_false (x y : Q) : Qle_bool x y = false <-> y < x.
Proof.
  rewrite <- ltb_true. unfold ltb. rewrite negb_true_iff. tauto.
Qed.

Lemma maximum_ge_l (x y : Q) : x <= maximum x y.
Proof.
  unfold maximum. destruct (Qle_bool x y) eqn:E.
  - apply Qle_bool_iff in E. exact E.
  - lra.
Qed.

Lemma maximum_mono (x y x' y' : Q) : x <= x' -> y <= y' -> maximum x y <= maximum x' y'.
Proof.
  intros Hx Hy. unfold maximum.
  destruct (Qle_bool x y) eqn:E; destruct (Qle_bool x' y') eqn:E';
    try apply Qle_bool_iff in E; try apply Qle_bool_iff in E';
    try apply Qle_bool_false in E; try apply Qle_bool_false in E'; lra.
Qed.

Lemma get_inrange {A : Type} (a : list A) (i : Z) (d : A) :
  (0 <= i < Z.of_nat (length a))%Z -> get a i = Ok (nth (Z.to_nat i) a d).
Proof.
  intros Hi. unfold get.
  destruct (i <? 0)%Z eqn:E; [apply Z.ltb_lt in E; lia|].
  replace ((0 <=? i) && (i <? Z.of_nat (length a)))%Z with true
    by (symmetry; apply andb_true_iff; split; [apply Z.leb_le | apply Z.ltb_lt]; lia).
  destruct (nth_error a (Z.to_nat i)) as [x|] eqn:En.
  - f_equal. symmetry. apply nth_error_nth. exact En.
  - apply nth_error_None in En. lia.
Qed.

Lemma length_upd {A : Type} (a : list A) (j : nat) (x : A) :
  length (upd a j x) = length a.
Proof.
  revert j; induction a as [|y a IH]; intros [|j]; simpl; auto.
Qed.

Lemma nth_upd_eq {A : Type} (a : list A) (j : nat) (x d : A) :
  (j < length a)%nat -> nth j (upd a j x) d = x.
Proof.
  revert j; induction a as [|y a IH]; intros [|j] H; simpl in *; try lia; auto.
  apply IH. lia.
Qed.

Lemma nth_upd_ne {A : Type} (a : list A) (j k : nat) (x d : A) :
  j <> k -> nth k (upd a j x) d = nth k a d.
Proof.
  revert j k; induction a as [|y a IH]; intros [|j] [|k] H; simpl; auto; try lia.
Qed.

Lemma set_inrange {A : Type} (a : list A) (i : Z) (x : A) :
  (0 <= i < Z.of_nat (length a))%Z -> set a i x = Ok (upd a (Z.to_nat i) x).
Proof.
  intros Hi. unfold set.
  destruct (i <? 0)%Z eqn:E; [apply Z.ltb_lt in E; lia|].
  replace ((0 <=? i) && (i <? Z.of_nat (length a)))%Z with true
    by (symmetry; apply andb_true_iff; split; [apply Z.leb_le | apply Z.ltb_lt]; lia).
  reflexivity.
Qed.

Lemma length_arange (lo hi : Z) : length (arange lo hi) = Z.to_nat (hi - lo).
Proof. unfold arange. rewrite length_map, length_seq. reflexivity. Qed.

Lemma nth_arange (lo hi : Z) (k : nat) (d : Z) :
  (k < Z.to_nat (hi - lo))%nat -> nth k (arange lo hi) d = (lo + Z.of_nat k)%Z.
Proof.
  intros Hk. unfold arange.
  rewrite nth_indep with (d' := (lo + Z.of_nat 0)%Z) by (rewrite length_map, length_seq; lia).
  rewrite map_nth with (f := fun k => (lo + Z.of_nat k)%Z). rewrite seq_nth by lia. reflexivity.
Qed.

Lemma arange_cons (lo hi : Z) : (lo < hi)%Z -> arange lo hi = lo :: arange (lo + 1) hi.
Proof.
  intros H. unfold arange.
  replace (Z.to_nat (hi - lo)) with (S (Z.to_nat (hi - (lo + 1)))) by lia.
  simpl. f_equal; [f_equal; lia|].
  rewrite <- seq_shift, map_map. apply map_ext. intros k. lia.
Qed.

Lemma arange_nil (lo hi : Z) : (hi <= lo)%Z -> arange lo hi = [].
Proof.
  intros H. unfold arange. replace (Z.to_nat (hi - lo)) with O by lia. reflexivity.
Qed.

(** The result of [argmax_from] over [pre ++ a], when [best] is the first
    maximum of the prefix [pre]. *)
Lemma argmax_from_spec (a pre : list Q) (i best : nat) (bv : Q) :
  i = length pre -> bv = nth best pre 0 ->
  (best < length pre)%nat ->
  (forall j, (j < length pre)%nat -> nth j pre 0 <= bv) ->
  (forall j, (j < best)%nat -> nth j pre 0 < bv) ->
  let k := argmax_from a i best bv in
  (k < length (pre ++ a))%nat /\
  (forall j, (j < length (pre ++ a))%nat -> nth j (pre ++ a) 0 <= nth k (pre ++ a) 0) /\
  (forall j, (j < k)%nat -> nth j (pre ++ a) 0 < nth k (pre ++ a) 0).
Proof.
  revert pre i best bv.
  induction a as [|x a IH]; intros pre i best bv Hi Hbv Hb Hmax Hfirst; simpl.
  - rewrite app_nil_r. subst bv. auto.
  - replace (pre ++ x :: a) with ((pre ++ [x]) ++ a) by (rewrite <- app_assoc; reflexivity).
    assert (Hlen : S i = length (pre ++ [x]))
      by (rewrite length_app; simpl; lia).
    destruct (ltb bv x) eqn:E.
    + apply ltb_true in E.
      assert (Hx : nth i (pre ++ [x]) 0 = x)
        by (rewrite app_nth2 by lia; subst i; rewrite Nat.sub_diag; reflexivity).
      apply IH; auto.
      * lia.
      * intros j Hj. rewrite <- Hlen in Hj.
        destruct (Nat.eq_dec j i) as [->|Hne]; [rewrite Hx; lra|].
        rewrite app_nth1 by lia. specialize (Hmax j ltac:(lia)). lra.
      * intros j Hj. rewrite app_nth1 by lia.
        specialize (Hmax j ltac:(lia)). lra.
    + apply ltb_false in E.
      assert (Hbest : nth best (pre ++ [x]) 0 = bv)
        by (rewrite app_nth1 by lia; auto).
      apply IH; auto.
      * lia.
      * intros j Hj. rewrite <- Hlen in Hj.
        destruct (Nat.eq_dec j i) as [->|Hne].
        -- rewrite app_nth2 by lia. subst i. rewrite Nat.sub_diag. simpl. exact E.
        -- rewrite app_nth1 by lia. apply Hmax. lia.
      * intros j Hj. rewrite app_nth1 by lia. apply Hfirst. exact Hj.
Qed.

Lemma argmax_spec (a : list Q) :
  a <> [] ->
  exists k, argmax a = Ok k /\ (k < length a)%nat /\
    (forall j, (j < length a)%nat -> nth j a 0 <= nth k a 0) /\
    (forall j, (j < k)%nat -> nth j a 0 < nth k a 0).
Proof.
  destruct a as [|x a]; [congruence|]. intros _. simpl argmax.
  eexists. split; [reflexivity|].
  apply (@argmax_from_spec a [x] 1%nat 0%nat x); simpl; auto.
  - intros j Hj. replace j with 0%nat by lia. lra.
  - intros j Hj. lia.
Qed.

End NpFacts.

(** ** Penalised Saving Optimizer *)

(** C3 (defect): with all betas zero the value is not the full row sum less
    alpha once; alpha is subtracted once per component.  On the row [1, 2]
    with alpha = 1 and betas = [0, 0] the code returns 1, not 3 - 1 = 2. *)
Example penalise_savings_zero_betas_subtracts_alpha_per_component :
  forallb (fun b => Np.ltb b eps) [0; 0] = true /\
  exists v, penalise_savings [[1; 2]] 1 [0; 0] = Ok [v] /\
            v == 1 /\
            full_row_sum_minus_alpha [1; 2] 1 == 2 /\
            ~ v == full_row_sum_minus_alpha [1; 2] 1.
Proof.
  split; [reflexivity|].
  eexists. split; [vm_compute; reflexivity|].
  repeat split; try reflexivity.
  vm_compute. discriminate.
Qed.

(** C2 (as stated, refuted): on the row [3, 2] with alpha = 0 and the
    ascending betas [1, 2] the code returns 2, while the maximum over k of
    the k largest savings less betas[k-1] is 3. *)
Example penalise_savings_not_last_beta_only :
  Forall (Qle 0) [3; 2] /\ ascending [1; 2] /\ length [3; 2] = length [1; 2] /\
  exists v, penalise_savings [[3; 2]] 0 [1; 2] = Ok [v] /\
            v == 2 /\ Spec.penalised_saving [3; 2] 0 [1; 2] == 3 /\
            ~ v == Spec.penalised_saving [3; 2] 0 [1; 2].
Proof.
  split; [repeat constructor; discriminate|].
  split; [repeat constructor; discriminate|].
  split; [reflexivity|].
  eexists. split; [vm_compute; reflexivity|].
  repeat split; try reflexivity.
  vm_compute. discriminate.
Qed.

Module SortFacts.
Import Np NpFacts.

Lemma insert_index_perm (key : nat -> Q) (j : nat) (idx : list nat) :
  Permutation (insert_index key j idx) (j :: idx).
Proof.
  induction idx as [|i idx IH]; simpl; [reflexivity|].
  destruct (Qle_bool (key j) (key i)); [reflexivity|].
  rewrite IH. apply perm_swap.
Qed.

Lemma argsort_perm (a : list Q) : Permutation (argsort a) (seq 0 (length a)).
Proof.
  unfold argsort. induction (seq 0 (length a)) as [|j l IH]; simpl; [reflexivity|].
  rewrite insert_index_perm. constructor. exact IH.
Qed.

Lemma insert_index_sorted (key : nat -> Q) (j : nat) (idx : list nat) :
  StronglySorted (fun i k => key i <= key k) idx ->
  StronglySorted (fun i k => key i <= key k) (insert_index key j idx).
Proof.
  induction 1 as [|i idx Hs IH Hall]; simpl.
  - repeat constructor.
  - destruct (Qle_bool (key j) (key i)) eqn:E.
    + apply Qle_bool_iff in E. constructor; [constructor; assumption|].
      constructor; [exact E|].
      eapply Forall_impl; [|exact Hall]. simpl. intros k Hk. lra.
    + apply Qle_bool_false in E. constructor; [exact IH|].
      eapply Permutation_Forall; [symmetry; apply insert_index_perm|].
      constructor; [lra | exact Hall].
Qed.

Lemma argsort_sorted (a : list Q) :
  StronglySorted (fun i k => nth i a 0 <= nth k a 0) (argsort a).
Proof.
  unfold argsort. induction (seq 0 (length a)) as [|j l IH]; simpl.
  - constructor.
  - apply insert_index_sorted with (key := fun i => nth i a 0). exact IH.
Qed.

Lemma take_seq (a : list Q) : take a (seq 0 (length a)) = a.
Proof.
  unfold take. apply nth_ext with (d := 0) (d' := 0).
  - rewrite length_map, length_seq. reflexivity.
  - intros k Hk. rewrite length_map, length_seq in Hk.
    rewrite nth_indep with (d' := nth 0%nat a 0) by (rewrite length_map, length_seq; lia).
    rewrite map_nth with (f := fun i => nth i a 0) (d := 0%nat).
    rewrite seq_nth by lia. reflexivity.
Qed.

Lemma nth_map_opp (a : list Q) (i : nat) : nth i (map Qopp a) 0 = - nth i a 0.
Proof. change 0 with (- 0) at 1. apply map_nth. Qed.

(** Reading a row through the argsort of its negation sorts it in
    descending order. *)
Lemma take_argsort_desc (row : list Q) :
  let sorted := take row (argsort (map Qopp row)) in
  Permutation sorted row /\ StronglySorted (fun x y => y <= x) sorted /\
  length sorted = length row.
Proof.
  intros sorted. subst sorted.
  pose proof (argsort_perm (map Qopp row)) as Hp. rewrite length_map in Hp.
  split; [|split].
  - transitivity (take row (seq 0 (length row))).
    + unfold take. apply Permutation_map. exact Hp.
    + rewrite take_seq. reflexivity.
  - pose proof (argsort_sorted (map Qopp row)) as Hs. clear Hp.
    unfold take. induction Hs as [|i idx Hs IH Hall]; simpl; constructor.
    + exact IH.
    + apply Forall_map. eapply Forall_impl; [|exact Hall]. simpl.
      intros k Hk. rewrite !nth_map_opp in Hk. lra.
  - unfold take. rewrite length_map. apply Permutation_length in Hp.
    rewrite Hp, length_seq. reflexivity.
Qed.

Lemma fold_left_plus_acc (l : list Q) (acc : Q) :
  fold_left Qplus l acc == acc + fold_left Qplus l 0.
Proof.
  revert acc. induction l as [|x l IH]; intros acc; simpl; [lra|].
  rewrite IH. rewrite (IH (0 + x)). lra.
Qed.

Lemma sum_cons (x : Q) (l : list Q) : sum (x :: l) == x + sum l.
Proof. unfold sum. simpl. rewrite fold_left_plus_acc. lra. Qed.

Lemma sum_nil : sum [] == 0.
Proof. reflexivity. Qed.

Lemma length_cumsum_from (acc : Q) (a : list Q) : length (cumsum_from acc a) = length a.
Proof. revert acc; induction a as [|x a IH]; intros acc; simpl; auto. Qed.

Lemma nth_cumsum_from (a : list Q) (acc : Q) (k : nat) :
  (k < length a)%nat -> nth k (cumsum_from acc a) 0 == acc + sum (firstn (S k) a).
Proof.
  revert acc k. induction a as [|x a IH]; intros acc k Hk; simpl in Hk; [lia|].
  destruct k as [|k].
  - simpl. rewrite sum_cons, sum_nil. lra.
  - change (nth k (cumsum_from (acc + x) a) 0 == acc + sum (x :: firstn (S k) a)).
    rewrite IH by lia. rewrite sum_cons. lra.
Qed.

Lemma sum_firstn_sub (a b : list Q) (k : nat) :
  length a = length b ->
  sum (firstn k (map (fun xy => fst xy - snd xy) (combine a b)))
  == sum (firstn k a) - sum (firstn k b).
Proof.
  revert b k. induction a as [|x a IH]; intros [|y b] k Hlen; simpl in Hlen; try lia.
  - destruct k; simpl; rewrite sum_nil; lra.
  - destruct k as [|k]; simpl.
    + rewrite sum_nil. lra.
    + rewrite !sum_cons. rewrite IH by lia. lra.
Qed.

Lemma broadcast2_same (f : Q -> Q -> Q) (a b : list Q) :
  length a = length b ->
  broadcast2 f a b = Ok (map (fun xy => f (fst xy) (snd xy)) (combine a b)).
Proof.
  intros H. unfold broadcast2. rewrite H, Nat.eqb_refl. reflexivity.
Qed.

End SortFacts.


Lemma betas_differ_forallb (betas : list Q) :
  betas_differ betas -> forallb (fun b => Qeq_bool b (hd 0 betas)) betas = false.
Proof.
  intros (b & Hin & Hne).
  destruct (forallb _ betas) eqn:E; [|reflexivity].
  rewrite forallb_forall in E. specialize (E b Hin).
  apply Qeq_bool_iff in E. contradiction.
Qed.

(** The body of the general branch on one row: the maximum of the
    penalised cumulative savings of the row sorted in descending order. *)
Lemma penalise_row_general_max (row : list Q) (alpha : Q) (betas : list Q) :
  length row = length betas -> betas <> [] ->
  exists v,
    (d <- Np.broadcast2 Qminus (Np.take row (Np.argsort (map Qopp row))) betas ;;
     argmax <- Np.argmax (map (fun x => x - alpha) (Np.cumsum d)) ;;
     Np.get (map (fun x => x - alpha) (Np.cumsum d)) (Z.of_nat argmax)) = Ok v /\
    is_max_over
      (fun k => cumulative_penalised (Np.take row (Np.argsort (map Qopp row))) betas k - alpha)
      (seq 1 (length row)) v.
Proof.
  intros Hlen Hne.
  destruct (SortFacts.take_argsort_desc row) as (Hperm & Hsorted & Hlens).
  set (sorted := Np.take row (Np.argsort (map Qopp row))) in *.
  rewrite SortFacts.broadcast2_same by congruence. simpl bind.
  set (d := map (fun xy => fst xy - snd xy) (combine sorted betas)).
  set (pen := map (fun x => x - alpha) (Np.cumsum d)).
  assert (Hd : length d = length row).
  { unfold d. rewrite length_map, length_combine. lia. }
  assert (Hpen : length pen = length row).
  { unfold pen, Np.cumsum. rewrite length_map, SortFacts.length_cumsum_from. exact Hd. }
  assert (Hnth : forall j, (j < length row)%nat ->
            nth j pen 0 == cumulative_penalised sorted betas (S j) - alpha).
  { intros j Hj. unfold pen.
    rewrite nth_indep with (d' := 0 - alpha) by (rewrite <- Hpen in Hj; exact Hj).
    rewrite map_nth with (f := fun x => x - alpha).
    unfold Np.cumsum. rewrite SortFacts.nth_cumsum_from by lia.
    unfold d. rewrite SortFacts.sum_firstn_sub by congruence.
    unfold cumulative_penalised. lra. }
  destruct (@NpFacts.argmax_spec pen) as (k & Hk & Hklt & Hmax & _).
  { intros E. rewrite E in Hpen. simpl in Hpen. destruct betas; simpl in *; [congruence|lia]. }
  rewrite Hk. simpl bind.
  rewrite NpFacts.get_inrange with (d := 0) by lia. rewrite Nat2Z.id.
  eexists. split; [reflexivity|].
  split.
  - exists (S k). split; [apply in_seq; lia|]. apply Hnth. lia.
  - intros k' Hk'. apply in_seq in Hk'. destruct k' as [|j]; [lia|].
    rewrite <- Hnth by lia. apply Hmax. lia.
Qed.

Lemma penalise_row_general (row : list Q) (alpha : Q) (betas : list Q) :
  length row = length betas -> betas <> [] ->
  exists v,
    (d <- Np.broadcast2 Qminus (Np.take row (Np.argsort (map Qopp row))) betas ;;
     argmax <- Np.argmax (map (fun x => x - alpha) (Np.cumsum d)) ;;
     Np.get (map (fun x => x - alpha) (Np.cumsum d)) (Z.of_nat argmax)) = Ok v /\
    cumulative_row_spec alpha betas row v.
Proof.
  intros Hlen Hne.
  destruct (@penalise_row_general_max row alpha betas Hlen Hne) as (v & Hv & Hmax).
  exists v. split; [exact Hv|].
  destruct (SortFacts.take_argsort_desc row) as (Hperm & Hsorted & _).
  eexists. split; [exact Hperm|]. split; [exact Hsorted | exact Hmax].
Qed.

(** C2 (amended): when the betas are not all equal, each row's value is the
    maximum over k = 1..p of the sum of the k largest savings less the sum of
    the first k betas, less alpha once. *)
Theorem penalise_savings_cumulative_betas
    (savings : list (list Q)) (alpha : Q) (betas : list Q) :
  Forall (fun row => length row = length betas) savings ->
  betas_differ betas ->
  exists vals,
    penalise_savings savings alpha betas = Ok vals /\
    Forall2 (cumulative_row_spec alpha betas) savings vals.
Proof.
  intros Hrows Hdiff.
  pose proof (betas_differ_forallb Hdiff) as Hall.
  destruct betas as [|b0 betas'] eqn:Eb.
  { destruct Hdiff as (b & [] & _). }
  rewrite <- Eb in *. unfold penalise_savings.
  assert (Hget : Np.get betas 0 = Ok b0) by (rewrite Eb; reflexivity).
  rewrite Hget. simpl bind.
  replace (hd 0 betas) with b0 in Hall by (rewrite Eb; reflexivity).
  rewrite Hall.
  induction Hrows as [|row savings Hrow Hrows IH].
  - exists []. split; [reflexivity | constructor].
  - destruct IH as (vals & Hvals & Hspec).
    destruct (@penalise_row_general row alpha betas Hrow) as (v & Hv & Hvspec).
    { rewrite Eb. discriminate. }
    exists (v :: vals). split.
    + simpl mapM. rewrite Hv. simpl bind. rewrite Hvals. reflexivity.
    + constructor; assumption.
Qed.

Lemma penalise_savings_cumulative_betas_witness :
  exists vals,
    penalise_savings [[3; 2]] 0 [1; 2] = Ok vals /\
    Forall2 (cumulative_row_spec 0 [1; 2]) [[3; 2]] vals.
Proof.
  apply (@penalise_savings_cumulative_betas [[3; 2]] 0 [1; 2]).
  - repeat constructor.
  - exists 2. split; [simpl; auto|]. simpl. discriminate.
Defined.

(** ** Penalty Builder *)

Module PenaltyFacts.
Import Np NpFacts SortFacts.

Lemma minimum_compat (x y x' y' : Q) :
  x == x' -> y == y' -> minimum x y == minimum x' y'.
Proof.
  intros Hx Hy. unfold minimum.
  destruct (Qle_bool x y) eqn:E; destruct (Qle_bool x' y') eqn:E';
    try apply Qle_bool_iff in E; try apply Qle_bool_iff in E';
    try apply Qle_bool_false in E; try apply Qle_bool_false in E'; lra.
Qed.

Lemma length_diff (x : Q) (l : list Q) : length (diff (x :: l)) = length l.
Proof.
  revert x. induction l as [|y l IH]; intros x; [reflexivity|].
  change (S (length (diff (y :: l))) = S (length l)). rewrite IH. reflexivity.
Qed.

(** The differences of a curve sum back to the curve. *)
Lemma sum_firstn_diff (l : list Q) (x : Q) (k : nat) :
  (k <= length l)%nat -> sum (firstn k (diff (x :: l))) == nth k (x :: l) 0 - x.
Proof.
  revert x k. induction l as [|y l IH]; intros x k Hk; simpl in Hk.
  - replace k with 0%nat by lia. simpl. rewrite sum_nil. lra.
  - destruct k as [|k].
    + simpl. rewrite sum_nil. lra.
    + change (sum ((y - x) :: firstn k (diff (y :: l))) == nth k (y :: l) 0 - x).
      rewrite sum_cons, IH by lia. lra.
Qed.

Lemma get_last_ok (a : list Q) : a <> [] -> exists v, get a (-1) = Ok v.
Proof.
  intros Hne. unfold get. change (-1 <? 0)%Z with true. cbv iota.
  assert (Hlen : (0 < length a)%nat) by (destruct a; simpl; [congruence | lia]).
  replace ((0 <=? -1 + Z.of_nat (length a)) && (-1 + Z.of_nat (length a) <? Z.of_nat (length a)))%Z
    with true
    by (symmetry; apply andb_true_iff; split; [apply Z.leb_le | apply Z.ltb_lt]; lia).
  destruct (nth_error a (Z.to_nat (-1 + Z.of_nat (length a)))) as [v|] eqn:E.
  - exists v. reflexivity.
  - apply nth_error_None in E. lia.
Qed.

Lemma length_full (p : Z) (v : Q) : length (full p v) = Z.to_nat p.
Proof. apply repeat_length. Qed.

Lemma nth_map2 (f : Q -> Q -> Q) (a b : list Q) (k : nat) :
  length a = length b -> (k < length a)%nat ->
  nth k (map (fun xy => f (fst xy) (snd xy)) (combine a b)) 0 = f (nth k a 0) (nth k b 0).
Proof.
  revert b k. induction a as [|x a IH]; intros [|y b] k Hlen Hk; simpl in *; try lia.
  destruct k as [|k]; [reflexivity|]. apply IH; lia.
Qed.

Lemma length_map2 (f : Q -> Q -> Q) (a b : list Q) :
  length a = length b ->
  length (map (fun xy => f (fst xy) (snd xy)) (combine a b)) = length a.
Proof. intros H. rewrite length_map, length_combine. lia. Qed.

(** The cumulative curve [alpha + cumsum(betas)] at count [k]. *)
Lemma nth_penalty_curve (alpha : Q) (betas : list Q) (k : nat) :
  (k < length betas)%nat ->
  nth k (map (Qplus alpha) (cumsum betas)) 0 == cumulative_penalty (alpha, betas) (S k).
Proof.
  intros Hk.
  rewrite nth_indep with (d' := alpha + 0)
    by (rewrite length_map; unfold cumsum; rewrite length_cumsum_from; exact Hk).
  rewrite map_nth with (f := Qplus alpha). unfold cumsum.
  rewrite nth_cumsum_from by exact Hk. unfold cumulative_penalty. simpl. lra.
Qed.

Lemma length_penalty_curve (alpha : Q) (betas : list Q) :
  length (map (Qplus alpha) (cumsum betas)) = length betas.
Proof. rewrite length_map. apply length_cumsum_from. Qed.

End PenaltyFacts.

Section PenaltyProperties.

Variable np_log np_sqrt : Q -> Q.
Variable chi2_ppf chi2_pdf : Q -> Z -> Q.

Lemma intermediate_capa_penalty_ok (n p n_params : Z) (scale : Q) :
  (2 <= p)%Z ->
  exists betas,
    intermediate_capa_penalty np_log np_sqrt chi2_ppf chi2_pdf n p n_params scale
    = Ok (0, betas) /\ length betas = Z.to_nat p.
Proof.
  intros Hp. unfold intermediate_capa_penalty.
  destruct (p <? 2)%Z eqn:E; [apply Z.ltb_lt in E; lia|].
  set (penalties := map _ (Np.arange 1 p)).
  assert (Hlen : length penalties = Z.to_nat (p - 1)).
  { unfold penalties. rewrite length_map, NpFacts.length_arange. reflexivity. }
  destruct (@PenaltyFacts.get_last_ok penalties) as (v & Hv).
  { intros E'. rewrite E' in Hlen. simpl in Hlen. lia. }
  rewrite Hv. simpl bind. eexists. split; [reflexivity|].
  change (length (Np.diff (0 :: (penalties ++ [v]))) = Z.to_nat p).
  rewrite PenaltyFacts.length_diff, length_app, Hlen. simpl. lia.
Qed.

(** The combined policy returns the differences of the pointwise minimum
    of the three cumulative curves. *)
Lemma combined_capa_penalty_unfold (n p n_params : Z) (scale : Q) :
  (2 <= p)%Z ->
  exists ib,
    intermediate_capa_penalty np_log np_sqrt chi2_ppf chi2_pdf n p n_params scale
    = Ok (0, ib) /\
    length ib = Z.to_nat p /\
    combined_capa_penalty np_log np_sqrt chi2_ppf chi2_pdf n p n_params scale
    = Ok (0, Np.diff (0 :: min_curve (dense_capa_penalty np_log np_sqrt n p n_params scale)
                                     (sparse_capa_penalty np_log n p n_params scale)
                                     (0, ib))).
Proof.
  intros Hp.
  destruct (intermediate_capa_penalty_ok n n_params scale Hp) as (ib & Hi & Hib).
  exists ib. split; [exact Hi|]. split; [exact Hib|].
  unfold combined_capa_penalty.
  destruct (p <? 2)%Z eqn:E; [apply Z.ltb_lt in E; lia|].
  rewrite Hi. unfold min_curve, curve, dense_capa_penalty, sparse_capa_penalty.
  cbn [fst snd]. rewrite bind_Ok. cbv beta iota.
  set (da := scale * _). set (sa := 2 * scale * _). set (sb := 2 * scale * _).
  set (dp := map (Qplus da) (Np.cumsum (Np.zeros p))).
  set (sp := map (Qplus sa) (Np.cumsum (Np.full p sb))).
  set (ip := map (Qplus 0) (Np.cumsum ib)).
  assert (Hdp : length dp = Z.to_nat p)
    by (unfold dp; rewrite PenaltyFacts.length_penalty_curve; apply PenaltyFacts.length_full).
  assert (Hsp : length sp = Z.to_nat p)
    by (unfold sp; rewrite PenaltyFacts.length_penalty_curve; apply PenaltyFacts.length_full).
  assert (Hip : length ip = Z.to_nat p)
    by (unfold ip; rewrite PenaltyFacts.length_penalty_curve; exact Hib).
  rewrite SortFacts.broadcast2_same by congruence. rewrite bind_Ok.
  set (inner := map _ (combine sp ip)).
  assert (Hinner : length inner = Z.to_nat p)
    by (unfold inner; rewrite PenaltyFacts.length_map2; congruence).
  rewrite SortFacts.broadcast2_same by congruence. rewrite bind_Ok.
  set (mins := map _ (combine dp inner)).
  assert (Hmins : length mins = Z.to_nat p)
    by (unfold mins; rewrite PenaltyFacts.length_map2; congruence).
  assert (Hz : Np.zeros (p + 1) = 0 :: Np.zeros p).
  { unfold Np.zeros, Np.full. replace (Z.to_nat (p + 1)) with (S (Z.to_nat p)) by lia.
    reflexivity. }
  rewrite Hz. unfold assign_tail.
  replace (Nat.eqb (length mins) (length (Np.zeros p))) with true
    by (symmetry; apply Nat.eqb_eq; rewrite Hmins; symmetry; apply PenaltyFacts.length_full).
  rewrite bind_Ok. reflexivity.
Qed.

(** C5: for p >= 2 the combined policy returns alpha = 0 and betas whose
    cumulative penalty at every component count k in 1..p is the minimum of
    the dense, sparse and intermediate cumulative penalties at k. *)
Theorem combined_capa_penalty_pointwise_min (n p n_params : Z) (scale : Q) :
  (2 <= p)%Z ->
  exists betas intermediate,
    combined_capa_penalty np_log np_sqrt chi2_ppf chi2_pdf n p n_params scale
    = Ok (0, betas) /\
    intermediate_capa_penalty np_log np_sqrt chi2_ppf chi2_pdf n p n_params scale
    = Ok intermediate /\
    length betas = Z.to_nat p /\
    forall k, (1 <= k <= Z.to_nat p)%nat ->
      cumulative_penalty (0, betas) k ==
      Np.minimum
        (cumulative_penalty (dense_capa_penalty np_log np_sqrt n p n_params scale) k)
        (Np.minimum
           (cumulative_penalty (sparse_capa_penalty np_log n p n_params scale) k)
           (cumulative_penalty intermediate k)).
Proof.
  intros Hp.
  destruct (combined_capa_penalty_unfold n n_params scale Hp) as (ib & Hi & Hib & Hc).
  set (dense := dense_capa_penalty np_log np_sqrt n p n_params scale) in *.
  set (sparse := sparse_capa_penalty np_log n p n_params scale) in *.
  assert (Hdb : length (snd dense) = Z.to_nat p) by apply PenaltyFacts.length_full.
  assert (Hsb : length (snd sparse) = Z.to_nat p) by apply PenaltyFacts.length_full.
  assert (Hlc : forall pen, length (curve pen) = length (snd pen))
    by (intros pen; apply PenaltyFacts.length_penalty_curve).
  set (inner := map (fun xy => Np.minimum (fst xy) (snd xy))
                  (combine (curve sparse) (curve (0, ib)))).
  assert (Hlci : length (curve (0, ib)) = Z.to_nat p)
    by (rewrite Hlc; exact Hib).
  assert (Hinner : length inner = Z.to_nat p).
  { unfold inner. rewrite PenaltyFacts.length_map2.
    - rewrite Hlc. exact Hsb.
    - rewrite Hlci, Hlc. exact Hsb. }
  assert (Hmins : length (min_curve dense sparse (0, ib)) = Z.to_nat p).
  { unfold min_curve. fold inner. rewrite PenaltyFacts.length_map2.
    - rewrite Hlc. exact Hdb.
    - rewrite Hinner, Hlc. exact Hdb. }
  exists (Np.diff (0 :: min_curve dense sparse (0, ib))), (0, ib).
  split; [exact Hc|]. split; [exact Hi|].
  split; [rewrite PenaltyFacts.length_diff; exact Hmins|].
  intros k Hk. destruct k as [|j]; [lia|].
  pose proof (@PenaltyFacts.sum_firstn_diff (min_curve dense sparse (0, ib)) 0 (S j)
                ltac:(lia)) as Hsum.
  change (nth (S j) (0 :: min_curve dense sparse (0, ib)) 0)
    with (nth j (min_curve dense sparse (0, ib)) 0) in Hsum.
  unfold min_curve at 2 in Hsum. fold inner in Hsum.
  rewrite PenaltyFacts.nth_map2 in Hsum by (rewrite ?Hinner, ?Hlc, ?Hdb; lia).
  unfold inner in Hsum.
  rewrite PenaltyFacts.nth_map2 in Hsum by (rewrite ?Hlci, ?Hlc, ?Hsb; lia).
  assert (Hcurve : forall pen, (j < length (snd pen))%nat ->
             nth j (curve pen) 0 == cumulative_penalty pen (S j)).
  { intros [a b] Hj. apply PenaltyFacts.nth_penalty_curve. exact Hj. }
  assert (Hmin : Np.minimum (nth j (curve dense) 0)
                   (Np.minimum (nth j (curve sparse) 0) (nth j (curve (0, ib)) 0)) ==
                 Np.minimum (cumulative_penalty dense (S j))
                   (Np.minimum (cumulative_penalty sparse (S j))
                      (cumulative_penalty (0, ib) (S j)))).
  { apply PenaltyFacts.minimum_compat; [apply Hcurve; lia|].
    apply PenaltyFacts.minimum_compat; apply Hcurve; [|cbn [snd]]; lia. }
  rewrite <- Hmin. unfold cumulative_penalty at 1. cbn [fst snd]. lra.
Qed.

End PenaltyProperties.

Lemma combined_capa_penalty_pointwise_min_witness :
  let lg := fun x : Q => x - 1 in
  let sq := fun x : Q => x / 2 in
  let ppf := fun (q : Q) (_ : Z) => 1 - q in
  let pdf := fun (q : Q) (_ : Z) => q in
  (2 <= 3)%Z /\
  exists betas intermediate,
    combined_capa_penalty lg sq ppf pdf 10 3 1 2 = Ok (0, betas) /\
    intermediate_capa_penalty lg sq ppf pdf 10 3 1 2 = Ok intermediate /\
    length betas = Z.to_nat 3 /\
    forall k, (1 <= k <= Z.to_nat 3)%nat ->
      cumulative_penalty (0, betas) k ==
      Np.minimum
        (cumulative_penalty (dense_capa_penalty lg sq 10 3 1 2) k)
        (Np.minimum
           (cumulative_penalty (sparse_capa_penalty lg 10 3 1 2) k)
           (cumulative_penalty intermediate k)).
Proof.
  intros lg sq ppf pdf. split; [lia|].
  apply (@combined_capa_penalty_pointwise_min lg sq ppf pdf 10 3 1 2). lia.
Defined.

(** ** Configuration errors *)

Section ConfigurationProperties.

Variable np_log np_sqrt : Q -> Q.
Variable chi2_ppf chi2_pdf : Q -> Z -> Q.

Let factory := capa_penalty_factory np_log np_sqrt chi2_ppf chi2_pdf.
Let fit' := fit np_log np_sqrt chi2_ppf chi2_pdf.

Lemma factory_unknown (name : string) :
  ~ In name policy_names ->
  factory (PenaltyName name) = Raise (ValueError ("Unknown penalty: " ++ name)).
Proof.
  intros Hn. unfold factory, capa_penalty_factory.
  repeat match goal with
  | |- context [String.eqb name ?s] =>
      destruct (String.eqb_spec name s) as [->|_];
      [exfalso; apply Hn; unfold policy_names; simpl; tauto|]
  end.
  reflexivity.
Qed.

(** A named policy either returns or raises a [ValueError]. *)
Lemma named_policy_result (name : string) (n p : Z) (scale : Q) :
  let r := f <- factory (PenaltyName name) ;; f n p 1%Z scale in
  is_ok r \/ is_value_error r.
Proof.
  unfold factory, capa_penalty_factory.
  destruct (String.eqb name "dense"); [left; eexists; reflexivity|].
  destruct (String.eqb name "sparse"); [left; eexists; reflexivity|].
  destruct (String.eqb name "intermediate").
  { simpl. unfold intermediate_capa_penalty.
    destruct (p <? 2)%Z eqn:E; [right; eexists; reflexivity|].
    apply Z.ltb_ge in E.
    destruct (intermediate_capa_penalty_ok np_log np_sqrt chi2_ppf chi2_pdf n 1 scale E)
      as (b & Hb & _).
    unfold intermediate_capa_penalty in Hb. rewrite (proj2 (Z.ltb_ge p 2) E) in Hb.
    left. eexists. exact Hb. }
  destruct (String.eqb name "combined").
  { simpl. destruct (Z.ltb_spec p 2) as [Hlt|Hge].
    - unfold combined_capa_penalty. rewrite (proj2 (Z.ltb_lt p 2) Hlt).
      left. eexists. reflexivity.
    - destruct (combined_capa_penalty_unfold np_log np_sqrt chi2_ppf chi2_pdf
                  n 1 scale Hge) as (ib & _ & _ & Hb).
      left. eexists. exact Hb. }
  right. eexists. reflexivity.
Qed.

(** With p >= 2 every named policy returns, whatever the scale. *)
Lemma named_policy_ok (name : string) (n p : Z) (scale : Q) :
  In name policy_names -> (2 <= p)%Z ->
  is_ok (f <- factory (PenaltyName name) ;; f n p 1%Z scale).
Proof.
  intros Hin Hp. unfold policy_names in Hin. simpl in Hin.
  destruct Hin as [<-|[<-|[<-|[<-|[]]]]]; unfold factory; simpl.
  - eexists; reflexivity.
  - eexists; reflexivity.
  - destruct (intermediate_capa_penalty_ok np_log np_sqrt chi2_ppf chi2_pdf n 1 scale Hp)
      as (b & Hb & _). eexists. exact Hb.
  - destruct (combined_capa_penalty_unfold np_log np_sqrt chi2_ppf chi2_pdf
                n 1 scale Hp) as (ib & _ & _ & Hb). eexists. exact Hb.
Qed.

Lemma fit_unfold (self : Mvcapa) (X : list (list Q)) :
  (min_segment_length self <= shape0 X)%Z ->
  fit' self X =
  (c <- (f <- factory (collective_penalty self) ;;
         f (shape0 X) (shape1 X) 1%Z (collective_penalty_scale self)) ;;
   q <- (f <- factory (point_penalty self) ;;
         f (shape0 X) (shape1 X) 1%Z (point_penalty_scale self)) ;;
   Ok {| estimator := self;
         collective_alpha_ := fst c; collective_betas_ := snd c;
         point_alpha_ := fst q; point_betas_ := snd q |}).
Proof.
  intros Hn. unfold fit', fit, check_capa_input.
  rewrite (proj2 (Z.ltb_ge _ _) Hn). simpl bind at 1.
  unfold get_penalty_components. fold factory.
  destruct (factory (collective_penalty self)) as [f|e]; [|reflexivity]. simpl.
  destruct (f _ _ _ _) as [[ca cb]|e]; [|reflexivity]. simpl.
  destruct (factory (point_penalty self)) as [g|e]; [|reflexivity]. simpl.
  destruct (g _ _ _ _) as [[pa pb]|e]; reflexivity.
Qed.

(** C6 (amended): the segment-length bounds are checked at construction;
    an unknown policy name and p < 2 under the intermediate policy raise
    when the penalties are computed, at fit time; the scales are never
    checked. *)
Theorem configuration_errors :
  (forall cp cs pp ps mn mx ig,
      (mn < 2 \/ mx < mn)%Z -> is_value_error (Mvcapa_init cp cs pp ps mn mx ig)) /\
  (forall cp cs pp ps mn mx ig,
      (2 <= mn <= mx)%Z -> is_ok (Mvcapa_init cp cs pp ps mn mx ig)) /\
  (forall self X name,
      (min_segment_length self <= shape0 X)%Z ->
      ~ In name policy_names ->
      collective_penalty self = PenaltyName name \/
      (point_penalty self = PenaltyName name /\
       exists c, collective_penalty self = PenaltyName c) ->
      is_value_error (fit' self X)) /\
  (forall self X,
      (min_segment_length self <= shape0 X)%Z ->
      (shape1 X < 2)%Z ->
      collective_penalty self = PenaltyName "intermediate" \/
      (point_penalty self = PenaltyName "intermediate" /\
       exists c, collective_penalty self = PenaltyName c) ->
      is_value_error (fit' self X)) /\
  (forall self X c q,
      (min_segment_length self <= shape0 X)%Z ->
      (2 <= shape1 X)%Z ->
      collective_penalty self = PenaltyName c -> In c policy_names ->
      point_penalty self = PenaltyName q -> In q policy_names ->
      is_ok (fit' self X)).
Proof.
  split; [|split; [|split; [|split]]].
  - intros cp cs pp ps mn mx ig H. unfold Mvcapa_init. simpl.
    destruct (Z.ltb_spec mn 2); [eexists; reflexivity|].
    destruct (Z.ltb_spec mx mn); [eexists; reflexivity|]. lia.
  - intros cp cs pp ps mn mx ig H. unfold Mvcapa_init. simpl.
    destruct (Z.ltb_spec mn 2); [lia|].
    destruct (Z.ltb_spec mx mn); [lia|]. eexists; reflexivity.
  - intros self X name Hn Hunk H. rewrite fit_unfold by exact Hn.
    destruct H as [Hc|(Hp & c & Hc)].
    + rewrite Hc, factory_unknown by exact Hunk. eexists; reflexivity.
    + rewrite Hc.
      destruct (named_policy_result c (shape0 X) (shape1 X) (collective_penalty_scale self))
        as [(v & Hv)|(msg & Hv)]; rewrite Hv; [rewrite bind_Ok|eexists; reflexivity].
      rewrite Hp, factory_unknown by exact Hunk. eexists; reflexivity.
  - intros self X Hn Hp H. rewrite fit_unfold by exact Hn.
    assert (Hint : forall s, (f <- factory (PenaltyName "intermediate") ;;
                              f (shape0 X) (shape1 X) 1%Z s)
                             = Raise (ValueError "p must be at least 2.")).
    { intros s. unfold factory. simpl. unfold intermediate_capa_penalty.
      rewrite (proj2 (Z.ltb_lt _ _) Hp). reflexivity. }
    destruct H as [Hc|(Hq & c & Hc)].
    + rewrite Hc, Hint. eexists; reflexivity.
    + rewrite Hc.
      destruct (named_policy_result c (shape0 X) (shape1 X) (collective_penalty_scale self))
        as [(v & Hv)|(msg & Hv)]; rewrite Hv; [rewrite bind_Ok|eexists; reflexivity].
      rewrite Hq, Hint. eexists; reflexivity.
  - intros self X c q Hn Hp Hc Hcin Hq Hqin. rewrite fit_unfold by exact Hn.
    rewrite Hc, Hq.
    destruct (named_policy_ok (shape0 X) (collective_penalty_scale self) Hcin Hp)
      as (v & Hv).
    destruct (named_policy_ok (shape0 X) (point_penalty_scale self) Hqin Hp)
      as (w & Hw).
    rewrite Hv, bind_Ok, Hw, bind_Ok. eexists; reflexivity.
Qed.

End ConfigurationProperties.

(** ** Optimal-Partitioning DP *)

Lemma mapM_pure {A B : Type} (f : A -> res B) (g : A -> B) (l : list A) :
  (forall a, In a l -> f a = Ok (g a)) -> mapM f l = Ok (map g l).
Proof.
  induction l as [|a l IH]; intros H; simpl; [reflexivity|].
  rewrite H by (left; reflexivity). simpl.
  rewrite IH by (intros b Hb; apply H; right; exact Hb). reflexivity.
Qed.

(** [penalise_savings] works row by row. *)
Lemma penalise_savings_rowwise (alpha : Q) (betas : list Q) :
  betas <> [] ->
  exists f : list Q -> res Q,
    (forall savings, penalise_savings savings alpha betas = mapM f savings) /\
    (forall row, length row = length betas -> is_ok (f row)).
Proof.
  intros Hne. destruct betas as [|b0 betas'] eqn:Eb; [congruence|]. rewrite <- Eb.
  assert (Hget : Np.get betas 0 = Ok b0) by (rewrite Eb; reflexivity).
  unfold penalise_savings. rewrite Hget. simpl bind.
  destruct (forallb (fun b => Qeq_bool b b0) betas) eqn:Eall.
  - exists (fun row => Ok (Np.sum (map (fun s => Np.maximum (s - b0) 0 - alpha) row))).
    split.
    + intros savings. symmetry. rewrite map_map.
      apply mapM_pure. intros; reflexivity.
    + intros row _. eexists; reflexivity.
  - eexists. split; [intros savings; reflexivity|].
    intros row Hrow.
    destruct (@penalise_row_general row alpha betas Hrow) as (v & Hv & _).
    { rewrite Eb. discriminate. }
    exists v. exact Hv.
Qed.

Lemma penalise_savings_values (savings : list (list Q)) (alpha : Q) (betas : list Q) :
  betas <> [] ->
  Forall (fun row => length row = length betas) savings ->
  penalise_savings savings alpha betas = Ok (map (penalised_value alpha betas) savings).
Proof.
  intros Hne Hrows.
  destruct (penalise_savings_rowwise alpha Hne) as (f & Hf & Hok).
  rewrite Hf. apply mapM_pure. intros row Hin.
  rewrite Forall_forall in Hrows. destruct (Hok row (Hrows row Hin)) as (v & Hv).
  unfold penalised_value. rewrite Hf. simpl. rewrite Hv. reflexivity.
Qed.

Lemma penalise_savings_single (row : list Q) (alpha : Q) (betas : list Q) :
  betas <> [] -> length row = length betas ->
  penalise_savings [row] alpha betas = Ok [penalised_value alpha betas row].
Proof.
  intros Hne Hrow. apply (@penalise_savings_values [row] alpha betas Hne).
  constructor; [exact Hrow | constructor].
Qed.

Module DpFacts.
Import Np NpFacts.

Lemma get_at (opt : list Q) (i : Z) :
  (0 <= i < Z.of_nat (length opt))%Z -> get opt i = Ok (at_ opt i).
Proof. intros H. apply get_inrange. exact H. Qed.

Lemma get_origin_at (origin : list (option Z)) (i : Z) :
  (0 <= i < Z.of_nat (length origin))%Z -> get origin i = Ok (origin_at origin i).
Proof. intros H. apply get_inrange. exact H. Qed.

Lemma in_arange (lo hi s : Z) : In s (arange lo hi) <-> (lo <= s < hi)%Z.
Proof.
  unfold arange. rewrite in_map_iff. split.
  - intros (k & <- & Hk). apply in_seq in Hk. lia.
  - intros H. exists (Z.to_nat (s - lo)). split; [lia|]. apply in_seq. lia.
Qed.

Lemma nth_map_arange (f : Z -> Q) (lo hi : Z) (k : nat) :
  (k < Z.to_nat (hi - lo))%nat ->
  nth k (map f (arange lo hi)) 0 = f (lo + Z.of_nat k)%Z.
Proof.
  intros Hk.
  rewrite nth_indep with (d' := f 0%Z) by (rewrite length_map, length_arange; exact Hk).
  rewrite map_nth. rewrite nth_arange by exact Hk. reflexivity.
Qed.

Lemma map2_map (f g : Z -> Q) (l : list Z) :
  map (fun xy => fst xy + snd xy) (combine (map f l) (map g l)) = map (fun s => f s + g s) l.
Proof. induction l as [|s l IH]; simpl; [reflexivity|]. rewrite IH. reflexivity. Qed.

Lemma arange_single (t : Z) : arange t (t + 1) = [t].
Proof.
  rewrite arange_cons by lia. rewrite arange_nil by lia. reflexivity.
Qed.

Lemma first_argmax_ext (f g : Z -> Q) (lo hi s : Z) :
  (forall x, (lo <= x < hi)%Z -> f x = g x) ->
  first_argmax f lo hi s -> first_argmax g lo hi s.
Proof.
  intros Hext (Hs & Hmax & Hfirst). split; [exact Hs|]. split.
  - intros s' Hs'. rewrite <- !Hext by lia. apply Hmax. exact Hs'.
  - intros s' Hs'. rewrite <- !Hext by lia. apply Hfirst. exact Hs'.
Qed.

End DpFacts.

Section DpProperties.
Import Np NpFacts DpFacts.

Variable Params : Type.
Variable saving_row : Params -> Z -> Z -> list Q.
Variable params : Params.
Variable collective_alpha : Q.
Variable collective_betas : list Q.
Variable point_alpha : Q.
Variable point_betas : list Q.
Variable min_segment_length max_segment_length : Z.

Hypothesis Hshape : well_shaped saving_row params collective_betas point_betas.
Hypothesis Hmin : (2 <= min_segment_length)%Z.
Hypothesis Hmax : (min_segment_length <= max_segment_length)%Z.

Let step := capa_step saving_row params collective_alpha collective_betas
              point_alpha point_betas min_segment_length max_segment_length.
Let loop := capa_loop saving_row params collective_alpha collective_betas
              point_alpha point_betas min_segment_length max_segment_length.
Let rec_at := recurrence_at saving_row params collective_alpha collective_betas
                point_alpha point_betas min_segment_length max_segment_length.

Lemma saving_func_repeat (starts : list Z) (t : Z) :
  saving_func saving_row params starts (repeat t (length starts))
  = map (fun s => saving_row params s t) starts.
Proof.
  unfold saving_func. induction starts as [|s starts IH]; simpl; [reflexivity|].
  rewrite IH. reflexivity.
Qed.

(** [optimise_savings] over the window [lo, hi) of starts, all ending at
    [t]: the first maximiser and its value. *)
Lemma optimise_savings_window (alpha : Q) (betas : list Q) (opt : list Q) (lo hi t : Z) :
  betas <> [] ->
  (forall s, length (saving_row params s t) = length betas) ->
  (0 <= lo < hi)%Z -> (hi <= Z.of_nat (length opt))%Z ->
  let cand := fun s => at_ opt s + penalised_value alpha betas (saving_row params s t) in
  exists s_star,
    optimise_savings (arange lo hi) opt
      (saving_func saving_row params (arange lo hi) (repeat t (length (arange lo hi))))
      alpha betas = Ok (cand s_star, s_star) /\
    first_argmax cand lo hi s_star.
Proof.
  intros Hne Hrows Hlo Hhi cand. unfold optimise_savings.
  rewrite saving_func_repeat.
  rewrite penalise_savings_values
    by (try exact Hne; apply Forall_map, Forall_forall; intros; apply Hrows).
  rewrite bind_Ok.
  rewrite (@mapM_pure _ _ (get opt) (at_ opt))
    by (intros s Hs; apply in_arange in Hs; apply get_at; lia).
  rewrite bind_Ok. rewrite map_map.
  rewrite SortFacts.broadcast2_same by (rewrite !length_map; reflexivity).
  rewrite bind_Ok.
  rewrite (map2_map (at_ opt)
             (fun s => penalised_value alpha betas (saving_row params s t))).
  fold cand.
  assert (Hlen : length (map cand (arange lo hi)) = Z.to_nat (hi - lo))
    by (rewrite length_map; apply length_arange).
  destruct (@argmax_spec (map cand (arange lo hi))) as (k & Hk & Hklt & Hkmax & Hkfirst).
  { intros E. rewrite E in Hlen. simpl in Hlen. lia. }
  rewrite Hk, bind_Ok. rewrite Hlen in Hklt, Hkmax.
  rewrite get_inrange with (d := 0%Z) by (rewrite length_arange; lia).
  rewrite bind_Ok. rewrite nth_arange by lia.
  rewrite get_inrange with (d := 0) by (rewrite Hlen; lia).
  rewrite bind_Ok. rewrite Nat2Z.id. rewrite nth_map_arange by lia.
  replace (lo + Z.of_nat (Z.to_nat 0) + Z.of_nat k)%Z with (lo + Z.of_nat k)%Z by lia.
  exists (lo + Z.of_nat k)%Z. split; [reflexivity|].
  split; [lia|]. split.
  - intros s' Hs'. specialize (Hkmax (Z.to_nat (s' - lo)) ltac:(lia)).
    rewrite !nth_map_arange in Hkmax by lia.
    replace (lo + Z.of_nat (Z.to_nat (s' - lo)))%Z with s' in Hkmax by lia. exact Hkmax.
  - intros s' Hs'. specialize (Hkfirst (Z.to_nat (s' - lo)) ltac:(lia)).
    rewrite !nth_map_arange in Hkfirst by lia.
    replace (lo + Z.of_nat (Z.to_nat (s' - lo)))%Z with s' in Hkfirst by lia. exact Hkfirst.
Qed.

Lemma at_upd_ne (opt : list Q) (j i : Z) (x : Q) :
  (0 <= i)%Z -> (0 <= j)%Z -> i <> j -> at_ (upd opt (Z.to_nat j) x) i = at_ opt i.
Proof. intros Hi Hj Hne. unfold at_. apply nth_upd_ne. lia. Qed.

Lemma at_upd_eq (opt : list Q) (j : Z) (x : Q) :
  (0 <= j < Z.of_nat (length opt))%Z -> at_ (upd opt (Z.to_nat j) x) j = x.
Proof. intros Hj. unfold at_. apply nth_upd_eq. lia. Qed.

Lemma origin_upd_ne (origin : list (option Z)) (j i : Z) (x : option Z) :
  (0 <= i)%Z -> (0 <= j)%Z -> i <> j ->
  origin_at (upd origin (Z.to_nat j) x) i = origin_at origin i.
Proof. intros Hi Hj Hne. unfold origin_at. apply nth_upd_ne. lia. Qed.

Lemma origin_upd_eq (origin : list (option Z)) (j : Z) (x : option Z) :
  (0 <= j < Z.of_nat (length origin))%Z -> origin_at (upd origin (Z.to_nat j) x) j = x.
Proof. intros Hj. unfold origin_at. apply nth_upd_eq. lia. Qed.

(** The choice at [t] reads the table up to [t + 1] and the backtrack
    entry [t] only. *)
Lemma recurrence_at_ext (opt opt' : list Q) (origin origin' : list (option Z)) (t : Z) :
  (min_segment_length - 1 <= t)%Z ->
  (forall i, (0 <= i <= t + 1)%Z -> at_ opt' i = at_ opt i) ->
  origin_at origin' t = origin_at origin t ->
  rec_at opt origin t -> rec_at opt' origin' t.
Proof.
  intros Ht Hopt Horigin (s & Hs & Hchoice). exists s.
  assert (Hcv : forall x, (Z.max 0 (t - max_segment_length + 1) <= x
                           < t - min_segment_length + 2)%Z ->
            collective_value saving_row params collective_alpha collective_betas opt t x
            = collective_value saving_row params collective_alpha collective_betas opt' t x).
  { intros x Hx. unfold collective_value. rewrite Hopt by lia. reflexivity. }
  split; [eapply first_argmax_ext; [exact Hcv | exact Hs]|].
  cbv zeta in *. rewrite <- (Hcv s) by (apply Hs).
  unfold point_value in *. rewrite !Hopt by lia. rewrite Horigin. exact Hchoice.
Qed.

(** One iteration of the loop. *)
Lemma capa_step_spec (opt : list Q) (origin : list (option Z)) (n t : Z) :
  Z.of_nat (length opt) = (n + 1)%Z -> Z.of_nat (length origin) = n ->
  (min_segment_length - 1 <= t < n)%Z ->
  origin_at origin t = None ->
  exists opt' origin',
    step t (opt, origin) = Ok (opt', origin') /\
    length opt' = length opt /\ length origin' = length origin /\
    (forall i, (0 <= i)%Z -> i <> (t + 1)%Z -> at_ opt' i = at_ opt i) /\
    (forall i, (0 <= i)%Z -> i <> t -> origin_at origin' i = origin_at origin i) /\
    rec_at opt' origin' t.
Proof.
  intros Hopt Horigin Ht Hnone.
  destruct Hshape as (Hcne & Hpne & Hrows).
  unfold step, capa_step.
  set (lo := Z.max 0 (t - max_segment_length + 1)).
  set (hi := (t - min_segment_length + 2)%Z).
  destruct (@optimise_savings_window collective_alpha collective_betas opt lo hi t Hcne)
    as (s & Hs & Hsarg); [intros; apply Hrows | unfold lo, hi; lia | unfold hi; lia |].
  rewrite Hs, bind_Ok. cbv beta iota.
  destruct (@optimise_savings_window point_alpha point_betas opt t (t + 1) t Hpne)
    as (s' & Hs' & Hs'arg); [intros; apply Hrows | lia | lia |].
  rewrite arange_single in Hs'. simpl repeat in Hs'.
  assert (s' = t) by (destruct Hs'arg as (? & _); lia). subst s'.
  rewrite Hs', bind_Ok. cbv beta iota.
  rewrite get_at by lia. rewrite bind_Ok.
  set (v1 := at_ opt s + penalised_value collective_alpha collective_betas (saving_row params s t)).
  set (v2 := at_ opt t + penalised_value point_alpha point_betas (saving_row params t t)).
  set (v0 := at_ opt t).
  destruct (@argmax_spec [v0; v1; v2]) as (k & Hk & Hklt & Hkmax & Hkfirst);
    [discriminate|].
  rewrite Hk, bind_Ok. simpl length in Hklt, Hkmax.
  rewrite get_inrange with (d := 0) by (simpl length; lia). rewrite bind_Ok, Nat2Z.id.
  rewrite set_inrange by lia. rewrite bind_Ok.
  set (opt' := upd opt (Z.to_nat (t + 1)) (nth k [v0; v1; v2] 0)).
  assert (Hopt' : forall i, (0 <= i <= t + 1)%Z -> i <> (t + 1)%Z -> at_ opt' i = at_ opt i)
    by (intros; apply at_upd_ne; lia).
  assert (Hnew : at_ opt' (t + 1) = nth k [v0; v1; v2] 0)
    by (apply at_upd_eq; lia).
  assert (Hsarg' : first_argmax
            (collective_value saving_row params collective_alpha collective_betas opt' t)
            lo hi s).
  { eapply first_argmax_ext; [|exact Hsarg]. intros x Hx. unfold collective_value.
    rewrite Hopt' by (unfold lo, hi in Hx; lia). reflexivity. }
  assert (Hv1 : collective_value saving_row params collective_alpha collective_betas opt' t s = v1).
  { unfold collective_value, v1. destruct Hsarg as (Hin & _).
    rewrite Hopt' by (unfold lo, hi in Hin; lia). reflexivity. }
  assert (Hv2 : point_value saving_row params point_alpha point_betas opt' t = v2).
  { unfold point_value, v2. rewrite Hopt' by lia. reflexivity. }
  assert (Hv0 : at_ opt' t = v0) by (apply Hopt'; lia).
  pose proof (Hkmax 0%nat ltac:(lia)) as H0.
  pose proof (Hkmax 1%nat ltac:(lia)) as H1.
  pose proof (Hkmax 2%nat ltac:(lia)) as H2.
  destruct k as [|[|[|k]]]; [| | |lia].
  - (* no new anomaly *)
    simpl Nat.eqb. cbv iota.
    exists opt', origin. split; [reflexivity|].
    split; [apply length_upd|]. split; [reflexivity|].
    split; [intros; apply at_upd_ne; lia|]. split; [reflexivity|].
    exists s. split; [exact Hsarg'|]. cbv zeta. rewrite Hv0, Hv1, Hv2, Hnew.
    left. simpl in *. auto.
  - (* collective anomaly *)
    simpl Nat.eqb. cbv iota. rewrite set_inrange by lia. rewrite bind_Ok.
    exists opt', (upd origin (Z.to_nat t) (Some s)). split; [reflexivity|].
    split; [apply length_upd|]. split; [apply length_upd|].
    split; [intros; apply at_upd_ne; lia|].
    split; [intros; apply origin_upd_ne; lia|].
    exists s. split; [exact Hsarg'|]. cbv zeta. rewrite Hv0, Hv1, Hv2, Hnew.
    right; left. pose proof (Hkfirst 0%nat ltac:(lia)) as Hf0. simpl in *.
    repeat split; auto. apply origin_upd_eq. lia.
  - (* point anomaly *)
    simpl Nat.eqb. cbv iota. rewrite set_inrange by lia. rewrite bind_Ok.
    exists opt', (upd origin (Z.to_nat t) (Some t)). split; [reflexivity|].
    split; [apply length_upd|]. split; [apply length_upd|].
    split; [intros; apply at_upd_ne; lia|].
    split; [intros; apply origin_upd_ne; lia|].
    exists s. split; [exact Hsarg'|]. cbv zeta. rewrite Hv0, Hv1, Hv2, Hnew.
    right; right. pose proof (Hkfirst 0%nat ltac:(lia)) as Hf0.
    pose proof (Hkfirst 1%nat ltac:(lia)) as Hf1. simpl in *.
    repeat split; auto. apply origin_upd_eq. lia.
Qed.

(** The loop from [a] to [n - 1]. *)
Lemma capa_loop_spec (n : Z) (k : nat) :
  forall (a : Z) (opt : list Q) (origin : list (option Z)),
    k = Z.to_nat (n - a) ->
    (min_segment_length - 1 <= a <= n)%Z ->
    Z.of_nat (length opt) = (n + 1)%Z -> Z.of_nat (length origin) = n ->
    (forall i, (a <= i)%Z -> origin_at origin i = None) ->
    exists opt' origin',
      loop (arange a n) (opt, origin) = Ok (opt', origin') /\
      length opt' = length opt /\ length origin' = length origin /\
      (forall i, (0 <= i <= a)%Z -> at_ opt' i = at_ opt i) /\
      (forall i, (0 <= i < a)%Z -> origin_at origin' i = origin_at origin i) /\
      (forall t, (a <= t < n)%Z -> rec_at opt' origin' t).
Proof.
  induction k as [|k IH]; intros a opt origin Hk Ha Hopt Horigin Hnone.
  - rewrite arange_nil by lia. exists opt, origin. split; [reflexivity|].
    repeat split; auto. intros t Ht. lia.
  - rewrite arange_cons by lia.
    change (loop (a :: arange (a + 1) n) (opt, origin))
      with (st' <- step a (opt, origin) ;; loop (arange (a + 1) n) st').
    destruct (@capa_step_spec opt origin n a Hopt Horigin ltac:(lia) (Hnone a ltac:(lia)))
      as (opt1 & origin1 & Hstep & Hl1 & Hl1' & Hopt1 & Horigin1 & Hrec1).
    rewrite Hstep, bind_Ok.
    assert (Hnone1 : forall i, (a + 1 <= i)%Z -> origin_at origin1 i = None).
    { intros i Hi. rewrite Horigin1 by lia. apply Hnone. lia. }
    destruct (IH (a + 1)%Z opt1 origin1 ltac:(lia) ltac:(lia)
                ltac:(rewrite Hl1; exact Hopt) ltac:(rewrite Hl1'; exact Horigin) Hnone1)
      as (opt' & origin' & Hloop & Hl & Hl' & Hopt' & Horigin' & Hrec).
    exists opt', origin'. split; [exact Hloop|].
    split; [congruence|]. split; [congruence|].
    split; [intros i Hi; rewrite Hopt' by lia; apply Hopt1; lia|].
    split; [intros i Hi; rewrite Horigin' by lia; apply Horigin1; lia|].
    intros t Ht. destruct (Z.eq_dec t a) as [->|Hne].
    + apply recurrence_at_ext with (opt := opt1) (origin := origin1).
      * lia.
      * intros i Hi. apply Hopt'. lia.
      * apply Horigin'. lia.
      * exact Hrec1.
    + apply Hrec. lia.
Qed.

Lemma at_zeros (m i : Z) : at_ (zeros m) i = 0.
Proof.
  unfold at_, zeros, full.
  destruct (Nat.lt_ge_cases (Z.to_nat i) (Z.to_nat m)) as [H|H].
  - apply nth_repeat_lt. exact H.
  - apply nth_overflow. rewrite repeat_length. exact H.
Qed.

Lemma origin_at_unset (m : nat) (i : Z) : origin_at (repeat (@None Z) m) i = None.
Proof.
  unfold origin_at.
  destruct (Nat.lt_ge_cases (Z.to_nat i) m) as [H|H].
  - apply nth_repeat_lt. exact H.
  - apply nth_overflow. rewrite repeat_length. exact H.
Qed.

(** The forward pass returns, and its arrays satisfy the recurrence. *)
Lemma capa_forward_spec (n : Z) :
  (min_segment_length <= n)%Z ->
  exists opt origin,
    capa_forward saving_row n params collective_alpha collective_betas
      point_alpha point_betas min_segment_length max_segment_length = Ok (opt, origin) /\
    Z.of_nat (length opt) = (n + 1)%Z /\ Z.of_nat (length origin) = n /\
    (forall i, (0 <= i <= min_segment_length - 1)%Z -> at_ opt i = 0) /\
    (forall i, (0 <= i < min_segment_length - 1)%Z -> origin_at origin i = None) /\
    (forall t, (min_segment_length - 1 <= t < n)%Z -> rec_at opt origin t).
Proof.
  intros Hn. unfold capa_forward. fold loop.
  destruct (@capa_loop_spec n (Z.to_nat (n - (min_segment_length - 1)))
              (min_segment_length - 1)%Z (zeros (n + 1)) (repeat None (Z.to_nat n))
              eq_refl ltac:(lia))
    as (opt & origin & Hloop & Hl & Hl' & Hopt & Horigin & Hrec).
  - unfold zeros, full. rewrite repeat_length. lia.
  - rewrite repeat_length. lia.
  - intros i _. apply origin_at_unset.
  - exists opt, origin. split; [exact Hloop|].
    split; [rewrite Hl; unfold zeros, full; rewrite repeat_length; lia|].
    split; [rewrite Hl', repeat_length; lia|].
    split; [intros i Hi; rewrite Hopt by lia; apply at_zeros|].
    split; [intros i Hi; rewrite Horigin by lia; apply origin_at_unset|].
    exact Hrec.
Qed.

End DpProperties.

(** ** Anomaly Reconstructor *)

Module WalkFacts.

Lemma descending_snoc (l : list (Z * Z)) (z : Z * Z) :
  descending l -> Forall (fun a => (snd z < fst a)%Z) l -> descending (l ++ [z]).
Proof.
  unfold descending. induction 1 as [|a l Hs IH Hall]; intros Hz; simpl.
  - repeat constructor.
  - inversion Hz as [|? ? Ha Hz']; subst. constructor; [apply IH; exact Hz'|].
    apply Forall_app. split; [exact Hall|]. constructor; [exact Ha | constructor].
Qed.

Lemma covers_mono (l l' : list (Z * Z)) (j : Z) :
  (forall a, In a l -> In a l') -> covers l j -> covers l' j.
Proof. intros H (a & Ha & Hj). exists a. split; [apply H; exact Ha | exact Hj]. Qed.

Lemma sorted_pairwise (R : Z * Z -> Z * Z -> Prop) (l : list (Z * Z)) :
  StronglySorted R l -> ForallOrdPairs R l.
Proof. induction 1; constructor; assumption. Qed.

Lemma pairwise_app (R : Z * Z -> Z * Z -> Prop) (l1 l2 : list (Z * Z)) :
  ForallOrdPairs R l1 -> ForallOrdPairs R l2 ->
  (forall a b, In a l1 -> In b l2 -> R a b) ->
  ForallOrdPairs R (l1 ++ l2).
Proof.
  induction 1 as [|a l1 Ha H1 IH]; intros H2 Hc; simpl; [exact H2|].
  constructor.
  - apply Forall_app. split; [exact Ha|].
    apply Forall_forall. intros b Hb. apply Hc; [left; reflexivity | exact Hb].
  - apply IH; [exact H2|]. intros x y Hx Hy. apply Hc; [right; exact Hx | exact Hy].
Qed.

End WalkFacts.

Section Walk.
Import WalkFacts.

Variable origin : list (option Z).
Hypothesis Hok : origin_ok origin.

Let n := Z.of_nat (length origin).

Lemma walk_inv_skip (i : Z) (coll pts : list (Z * Z)) :
  (0 <= i < n)%Z -> origin_at origin i = None ->
  walk_inv origin i coll pts -> walk_inv origin (i - 1) coll pts.
Proof.
  intros Hi Hnone [Hc Hp Hdc Hdp Hx Hcov]. constructor; auto.
  - eapply Forall_impl; [|exact Hc]. simpl. intros a Ha. split; [lia | apply Ha].
  - eapply Forall_impl; [|exact Hp]. simpl. intros a Ha. split; [lia | apply Ha].
  - intros j Hj Hset. destruct (Z.eq_dec j i) as [->|Hne]; [congruence|].
    apply Hcov; [lia | exact Hset].
Qed.

Lemma walk_inv_collective (i s : Z) (coll pts : list (Z * Z)) :
  (0 <= i < n)%Z -> origin_at origin i = Some s -> (s < i)%Z ->
  walk_inv origin i coll pts -> walk_inv origin (s - 1) (coll ++ [(s, i)]) pts.
Proof.
  intros Hi Hset Hsi [Hc Hp Hdc Hdp Hx Hcov].
  pose proof (Hok Hi Hset) as Hs.
  rewrite Forall_forall in Hc, Hp.
  constructor.
  - apply Forall_app. split.
    + apply Forall_forall. intros a Ha. specialize (Hc a Ha). split; [lia | apply Hc].
    + constructor; [|constructor]. simpl. split; [lia | exact Hset].
  - apply Forall_forall. intros a Ha. specialize (Hp a Ha). split; [lia | apply Hp].
  - apply descending_snoc; [exact Hdc|].
    apply Forall_forall. intros a Ha. specialize (Hc a Ha). simpl. lia.
  - exact Hdp.
  - intros c q Hc' Hq. apply in_app_or in Hc'. destruct Hc' as [Hc'|[<-|[]]].
    + apply Hx; assumption.
    + specialize (Hp q Hq). unfold disjoint. simpl. lia.
  - intros j Hj Hjset. destruct (Z_lt_le_dec i j) as [Hlt|Hle].
    + eapply covers_mono; [|apply Hcov; [lia | exact Hjset]].
      intros a Ha. rewrite !in_app_iff in *. tauto.
    + exists (s, i). split; [|simpl; lia].
      rewrite !in_app_iff. simpl. tauto.
Qed.

Lemma walk_inv_point (i : Z) (coll pts : list (Z * Z)) :
  (0 <= i < n)%Z -> origin_at origin i = Some i ->
  walk_inv origin i coll pts -> walk_inv origin (i - 1) coll (pts ++ [(i, i)]).
Proof.
  intros Hi Hset [Hc Hp Hdc Hdp Hx Hcov].
  rewrite Forall_forall in Hc, Hp.
  constructor.
  - apply Forall_forall. intros a Ha. specialize (Hc a Ha). split; [lia | apply Hc].
  - apply Forall_app. split.
    + apply Forall_forall. intros a Ha. specialize (Hp a Ha). split; [lia | apply Hp].
    + constructor; [|constructor]. simpl. split; [lia | exact Hset].
  - exact Hdc.
  - apply descending_snoc; [exact Hdp|].
    apply Forall_forall. intros a Ha. specialize (Hp a Ha). simpl. lia.
  - intros c q Hc' Hq. apply in_app_or in Hq. destruct Hq as [Hq|[<-|[]]].
    + apply Hx; assumption.
    + specialize (Hc c Hc'). unfold disjoint. simpl. lia.
  - intros j Hj Hjset. destruct (Z.eq_dec j i) as [->|Hne].
    + exists (i, i). split; [|simpl; lia]. rewrite !in_app_iff. simpl. tauto.
    + eapply covers_mono; [|apply Hcov; [lia | exact Hjset]].
      intros a Ha. rewrite !in_app_iff in *. tauto.
Qed.

(** The walk terminates within [i + 1] iterations and keeps the
    invariant. *)
Lemma get_anomalies_loop_spec (fuel : nat) :
  forall (i : Z) (coll pts : list (Z * Z)),
    (-1 <= i < n)%Z -> (i < Z.of_nat fuel)%Z ->
    walk_inv origin i coll pts ->
    exists coll' pts',
      get_anomalies_loop fuel origin i coll pts = Ok (coll', pts') /\
      walk_inv origin (-1) coll' pts'.
Proof.
  induction fuel as [|fuel IH]; intros i coll pts Hi Hfuel Hinv.
  - assert (i = -1)%Z by lia. subst i. exists coll, pts. split; [reflexivity | exact Hinv].
  - destruct (Z.eq_dec i (-1)) as [->|Hne].
    { exists coll, pts. split; [reflexivity | exact Hinv]. }
    simpl get_anomalies_loop.
    destruct (Z.ltb_spec i 0) as [Hneg|Hpos]; [lia|].
    rewrite DpFacts.get_origin_at by (fold n; lia). rewrite bind_Ok.
    destruct (origin_at origin i) as [s|] eqn:Es.
    + assert (Hin : (0 <= i < Z.of_nat (length origin))%Z) by (fold n; lia).
      pose proof (Hok Hin Es) as Hs.
      destruct (Z.ltb_spec 1 (i - s + 1)) as [Hsize|Hsize].
      * apply IH; [lia | lia |]. apply walk_inv_collective; auto; lia.
      * assert (s = i) by lia. subst s.
        rewrite (proj2 (Z.eqb_eq (i - i + 1) 1) ltac:(lia)).
        apply IH; [lia | lia |]. apply walk_inv_point; auto; lia.
    + apply IH; [lia | lia |]. apply walk_inv_skip; auto; lia.
Qed.

Lemma get_anomalies_spec :
  exists coll pts,
    get_anomalies origin = Ok (coll, pts) /\ walk_inv origin (-1) coll pts.
Proof.
  unfold get_anomalies. apply get_anomalies_loop_spec; [fold n; lia | lia |].
  constructor.
  - constructor.
  - constructor.
  - constructor.
  - constructor.
  - intros c q [].
  - intros j Hj. fold n in Hj. lia.
Qed.

End Walk.

(** ** The engine *)

Section EngineProperties.

Variable Params : Type.
Variable saving_row : Params -> Z -> Z -> list Q.
Variable params : Params.
Variable collective_alpha : Q.
Variable collective_betas : list Q.
Variable point_alpha : Q.
Variable point_betas : list Q.
Variable min_segment_length max_segment_length : Z.

Hypothesis Hshape : well_shaped saving_row params collective_betas point_betas.
Hypothesis Hmin : (2 <= min_segment_length)%Z.
Hypothesis Hmax : (min_segment_length <= max_segment_length)%Z.

Let rec_at := recurrence_at saving_row params collective_alpha collective_betas
                point_alpha point_betas min_segment_length max_segment_length.

Lemma recurrence_origin_window (opt : list Q) (origin : list (option Z)) (t s : Z) :
  rec_at opt origin t -> origin_at origin t = Some s ->
  s = t \/ (Z.max 0 (t - max_segment_length + 1) <= s < t - min_segment_length + 2)%Z.
Proof.
  intros (s' & (Hwin & _) & Hchoice) Hset. cbv zeta in Hchoice.
  destruct Hchoice as [(_ & _ & _ & H)|[(_ & _ & _ & H)|(_ & _ & _ & H)]];
    rewrite H in Hset; [discriminate | right | left]; injection Hset as <-; auto.
Qed.

Lemma recurrence_nondecreasing (opt : list Q) (origin : list (option Z)) (t : Z) :
  rec_at opt origin t -> at_ opt t <= at_ opt (t + 1).
Proof.
  intros (s' & _ & Hchoice). cbv zeta in Hchoice.
  destruct Hchoice as [(_ & _ & H & _)|[(Hlt & _ & H & _)|(Hlt & _ & H & _)]];
    rewrite H; lra.
Qed.

(** The arrays of the forward pass: the backtrack array is well formed and
    the table starts at zero and never decreases. *)
Lemma forward_arrays (n : Z) (opt : list Q) (origin : list (option Z)) :
  Z.of_nat (length opt) = (n + 1)%Z -> Z.of_nat (length origin) = n ->
  (forall i, (0 <= i <= min_segment_length - 1)%Z -> at_ opt i = 0) ->
  (forall i, (0 <= i < min_segment_length - 1)%Z -> origin_at origin i = None) ->
  (forall t, (min_segment_length - 1 <= t < n)%Z -> rec_at opt origin t) ->
  origin_ok origin /\
  (forall i, (0 <= i < n)%Z -> at_ opt i <= at_ opt (i + 1)) /\
  (forall i, (0 <= i <= n)%Z -> 0 <= at_ opt i).
Proof.
  intros Hl Hl' Hzero Hunset Hrec.
  assert (Hmono : forall i, (0 <= i < n)%Z -> at_ opt i <= at_ opt (i + 1)).
  { intros i Hi. destruct (Z_lt_le_dec i (min_segment_length - 1)) as [Hlt|Hge].
    - rewrite !Hzero by lia. lra.
    - apply recurrence_nondecreasing with (origin := origin). apply Hrec. lia. }
  split; [|split; [exact Hmono|]].
  - intros i s Hi Hset. rewrite Hl' in Hi.
    destruct (Z_lt_le_dec i (min_segment_length - 1)) as [Hlt|Hge].
    + rewrite Hunset in Hset by lia. discriminate.
    + destruct (@recurrence_origin_window opt origin i s (Hrec i ltac:(lia)) Hset); lia.
  - intros i Hi.
    assert (H : forall k : nat, (Z.of_nat k <= n)%Z -> 0 <= at_ opt (Z.of_nat k)).
    { induction k as [|k IH]; intros Hk.
      - rewrite Hzero by lia. lra.
      - specialize (IH ltac:(lia)). specialize (Hmono (Z.of_nat k) ltac:(lia)).
        replace (Z.of_nat (S k)) with (Z.of_nat k + 1)%Z by lia. lra. }
    specialize (H (Z.to_nat i) ltac:(lia)). rewrite Z2Nat.id in H by lia. exact H.
Qed.

(** C1: the forward pass of [run_base_capa] returns, and at each t from
    minSegmentLength-1 to n-1 its table and backtrack array satisfy the
    three-hypothesis recurrence: the first maximising start of the
    bounded window for hypothesis 2, the earliest-listed hypothesis on
    ties, the start recorded for a winning hypothesis 2 or 3 and the entry
    left unset otherwise. *)
Theorem run_base_capa_recurrence (X : list (list Q)) :
  let n := Z.of_nat (length X) in
  (min_segment_length <= n)%Z ->
  exists opt origin coll pts,
    capa_forward saving_row n params collective_alpha collective_betas
      point_alpha point_betas min_segment_length max_segment_length = Ok (opt, origin) /\
    get_anomalies origin = Ok (coll, pts) /\
    run_base_capa saving_row X params collective_alpha collective_betas
      point_alpha point_betas min_segment_length max_segment_length
    = Ok (tl opt, coll, pts) /\
    Z.of_nat (length opt) = (n + 1)%Z /\ Z.of_nat (length origin) = n /\
    (forall s t, penalise_savings [saving_row params s t] collective_alpha collective_betas
                 = Ok [penalised_value collective_alpha collective_betas
                         (saving_row params s t)]) /\
    (forall t, penalise_savings [saving_row params t t] point_alpha point_betas
               = Ok [penalised_value point_alpha point_betas (saving_row params t t)]) /\
    (forall t, (min_segment_length - 1 <= t < n)%Z -> rec_at opt origin t).
Proof.
  intros n Hn.
  destruct (@capa_forward_spec _ saving_row params collective_alpha collective_betas
              point_alpha point_betas min_segment_length max_segment_length
              Hshape Hmin Hmax n Hn)
    as (opt & origin & Hfw & Hl & Hl' & Hzero & Hunset & Hrec).
  destruct (forward_arrays Hl Hl' Hzero Hunset Hrec) as (Hok & _).
  destruct (get_anomalies_spec Hok) as (coll & pts & Hget & _).
  exists opt, origin, coll, pts.
  split; [exact Hfw|]. split; [exact Hget|].
  split; [unfold run_base_capa; fold n; rewrite Hfw, bind_Ok, Hget; reflexivity|].
  split; [exact Hl|]. split; [exact Hl'|].
  destruct Hshape as (Hc & Hp & Hrows).
  split; [intros; apply penalise_savings_single; [exact Hc | apply Hrows]|].
  split; [intros; apply penalise_savings_single; [exact Hp | apply Hrows]|].
  exact Hrec.
Qed.

(** C9: the per-prefix optimal-saving array [run_base_capa] returns has
    only non-negative entries and never decreases, whatever the sign and
    size of the penalties. *)
Theorem opt_savings_nonneg_nondecreasing (X : list (list Q)) :
  (min_segment_length <= Z.of_nat (length X))%Z ->
  exists opt coll pts,
    run_base_capa saving_row X params collective_alpha collective_betas
      point_alpha point_betas min_segment_length max_segment_length
    = Ok (opt, coll, pts) /\
    length opt = length X /\
    0 <= nth 0 opt 0 /\
    (forall i, (i < length opt)%nat -> 0 <= nth i opt 0) /\
    (forall i, (S i < length opt)%nat -> nth i opt 0 <= nth (S i) opt 0).
Proof.
  intros Hn.
  destruct (@capa_forward_spec _ saving_row params collective_alpha collective_betas
              point_alpha point_betas min_segment_length max_segment_length
              Hshape Hmin Hmax _ Hn)
    as (opt & origin & Hfw & Hl & Hl' & Hzero & Hunset & Hrec).
  destruct (forward_arrays Hl Hl' Hzero Hunset Hrec) as (Hok & Hmono & Hpos).
  destruct (get_anomalies_spec Hok) as (coll & pts & Hget & _).
  exists (tl opt), coll, pts.
  split; [unfold run_base_capa; rewrite Hfw, bind_Ok, Hget; reflexivity|].
  destruct opt as [|o0 opt']; [simpl in Hl; lia|]. simpl tl.
  assert (Hlen : length opt' = length X) by (simpl in Hl; lia).
  assert (Hnth : forall i, nth i opt' 0 = at_ (o0 :: opt') (Z.of_nat i + 1)).
  { intros i. unfold at_. replace (Z.to_nat (Z.of_nat i + 1)) with (S i) by lia.
    reflexivity. }
  split; [exact Hlen|].
  split; [rewrite Hnth; apply Hpos; lia|].
  split.
  - intros i Hi. rewrite Hnth. apply Hpos. lia.
  - intros i Hi. rewrite !Hnth.
    replace (Z.of_nat (S i) + 1)%Z with ((Z.of_nat i + 1) + 1)%Z by lia.
    apply Hmono. lia.
Qed.

End EngineProperties.

Section RunProperties.

Variable Params : Type.
Variable saving_row : Params -> Z -> Z -> list Q.
Variable saving_init_func : list (list Q) -> Params.
Variable X : list (list Q).
Variable collective_alpha : Q.
Variable collective_betas : list Q.
Variable point_alpha : Q.
Variable point_betas : list Q.
Variable min_segment_length max_segment_length : Z.

Let params := saving_init_func X.
Let n := Z.of_nat (length X).

Hypothesis Hshape : well_shaped saving_row params collective_betas point_betas.
Hypothesis Hmin : (2 <= min_segment_length)%Z.
Hypothesis Hmax : (min_segment_length <= max_segment_length)%Z.
Hypothesis Hn : (min_segment_length <= n)%Z.

(** [find_affected_components] returns, keeping the intervals and their
    order. *)
Lemma find_affected_components_spec (anomalies : list (Z * Z)) (alpha : Q) (betas : list Q) :
  betas <> [] -> (forall s e, length (saving_row params s e) = length betas) ->
  exists out,
    find_affected_components saving_row params anomalies alpha betas = Ok out /\
    map fst out = anomalies.
Proof.
  intros Hne Hrows. unfold find_affected_components.
  match goal with |- context [mapM ?g _] => set (f := g) end.
  induction anomalies as [|[s e] anomalies IH].
  - exists []. split; reflexivity.
  - destruct IH as (out & Hout & Hfst).
    assert (Hf : exists comps, f (s, e) = Ok (s, e, comps)).
    { unfold f.
      change (Np.get (saving_func saving_row params [s] [e]) 0)
        with (Ok (A := list Q) (saving_row params s e)).
      rewrite bind_Ok.
      destruct (SortFacts.take_argsort_desc (saving_row params s e)) as (_ & _ & Hlen).
      rewrite SortFacts.broadcast2_same by (rewrite Hlen; apply Hrows).
      rewrite bind_Ok.
      set (pen := map (fun x => x - alpha) _).
      destruct (@NpFacts.argmax_spec pen) as (k & Hk & _).
      { intros E. apply (f_equal (@length Q)) in E. unfold pen, Np.cumsum in E.
        rewrite length_map, SortFacts.length_cumsum_from, length_map, length_combine in E.
        rewrite Hlen, Hrows in E. simpl in E.
        destruct betas; [congruence | simpl in E; lia]. }
      rewrite Hk, !bind_Ok. eexists. reflexivity. }
    destruct Hf as (comps & Hf).
    exists ((s, e, comps) :: out). split.
    + change (mapM f ((s, e) :: anomalies))
        with (b <- f (s, e) ;; bs <- mapM f anomalies ;; Ok (b :: bs)).
      rewrite Hf, bind_Ok, Hout. reflexivity.
    + simpl. rewrite Hfst. reflexivity.
Qed.

(** A run of the engine, with the arrays of its forward pass and the
    intervals the reconstructor emits. *)
Lemma engine_run :
  exists opt origin coll pts coll' pts',
    capa_forward saving_row n params collective_alpha collective_betas
      point_alpha point_betas min_segment_length max_segment_length = Ok (opt, origin) /\
    get_anomalies origin = Ok (coll, pts) /\
    run_mvcapa saving_row saving_init_func X collective_alpha collective_betas
      point_alpha point_betas min_segment_length max_segment_length
    = Ok (tl opt, coll', pts') /\
    map fst coll' = coll /\ map fst pts' = pts /\
    Z.of_nat (length opt) = (n + 1)%Z /\ Z.of_nat (length origin) = n /\
    walk_inv origin (-1) coll pts /\
    (forall i, (0 <= i < min_segment_length - 1)%Z -> origin_at origin i = None) /\
    (forall i, (0 <= i <= min_segment_length - 1)%Z -> at_ opt i = 0) /\
    (forall i, (0 <= i <= n)%Z -> 0 <= at_ opt i) /\
    (forall t, (min_segment_length - 1 <= t < n)%Z ->
       recurrence_at saving_row params collective_alpha collective_betas
         point_alpha point_betas min_segment_length max_segment_length opt origin t).
Proof.
  destruct (@capa_forward_spec _ saving_row params collective_alpha collective_betas
              point_alpha point_betas min_segment_length max_segment_length
              Hshape Hmin Hmax n Hn)
    as (opt & origin & Hfw & Hl & Hl' & Hzero & Hunset & Hrec).
  destruct (forward_arrays Hmin Hl Hl' Hzero Hunset Hrec) as (Hok & _ & Hpos).
  destruct (get_anomalies_spec Hok) as (coll & pts & Hget & Hinv).
  destruct Hshape as (Hc & Hp & Hrows).
  destruct (@find_affected_components_spec coll collective_alpha collective_betas Hc)
    as (coll' & Hcoll' & Hfc); [intros; apply Hrows|].
  destruct (@find_affected_components_spec pts point_alpha point_betas Hp)
    as (pts' & Hpts' & Hfp); [intros; apply Hrows|].
  exists opt, origin, coll, pts, coll', pts'.
  split; [exact Hfw|]. split; [exact Hget|].
  split.
  { unfold run_mvcapa, run_base_capa. fold params. fold n.
    rewrite Hfw, bind_Ok, Hget, !bind_Ok. cbv beta iota.
    rewrite Hcoll', bind_Ok, Hpts', bind_Ok. reflexivity. }
  repeat (split; [assumption|]). exact Hrec.
Qed.

Lemma walk_inv_disjoint (origin : list (option Z)) (coll pts : list (Z * Z)) :
  walk_inv origin (-1) coll pts -> pairwise_disjoint (coll ++ pts).
Proof.
  intros [_ _ Hdc Hdp Hx _]. unfold pairwise_disjoint.
  apply WalkFacts.pairwise_app.
  - apply WalkFacts.sorted_pairwise in Hdc.
    clear - Hdc. induction Hdc as [|a l Ha Hl IH]; constructor; [|exact IH].
    eapply Forall_impl; [|exact Ha]. intros b Hb. right. exact Hb.
  - apply WalkFacts.sorted_pairwise in Hdp.
    clear - Hdp. induction Hdp as [|a l Ha Hl IH]; constructor; [|exact IH].
    eapply Forall_impl; [|exact Ha]. intros b Hb. right. exact Hb.
  - exact Hx.
Qed.

(** C4 (amended): the reconstructor returns on the backtrack array of the
    DP; it emits collective anomalies (s, i) with s < i and point anomalies
    (i, i), each a recorded pair (origin[i], i), pairwise disjoint and
    within [0, n); every position whose backtrack entry is set is covered
    by an emitted interval. *)
Theorem reconstructed_anomalies_disjoint_in_range :
  exists opt origin coll pts,
    capa_forward saving_row n params collective_alpha collective_betas
      point_alpha point_betas min_segment_length max_segment_length = Ok (opt, origin) /\
    get_anomalies origin = Ok (coll, pts) /\
    (forall s i, In (s, i) coll -> (s < i)%Z /\ origin_at origin i = Some s) /\
    (forall a b, In (a, b) pts -> a = b /\ origin_at origin b = Some a) /\
    (forall a b, In (a, b) (coll ++ pts) -> (0 <= a /\ a <= b /\ b < n)%Z) /\
    pairwise_disjoint (coll ++ pts) /\
    (forall j, (0 <= j < n)%Z -> origin_at origin j <> None -> covers (coll ++ pts) j).
Proof.
  destruct engine_run
    as (opt & origin & coll & pts & coll' & pts' & Hfw & Hget & _ & _ & _ & _ & Hl' & Hinv & _).
  exists opt, origin, coll, pts.
  split; [exact Hfw|]. split; [exact Hget|].
  pose proof (walk_inv_disjoint Hinv) as Hdisj.
  destruct Hinv as [Hc Hp _ _ _ Hcov]. rewrite Forall_forall in Hc, Hp.
  split; [intros s i Hin; specialize (Hc _ Hin); simpl in Hc; split; [lia | apply Hc]|].
  split; [intros a b Hin; specialize (Hp _ Hin); simpl in Hp; split; [lia | apply Hp]|].
  split.
  { intros a b Hin. apply in_app_or in Hin. destruct Hin as [Hin|Hin].
    - specialize (Hc _ Hin). simpl in Hc. lia.
    - specialize (Hp _ Hin). simpl in Hp. lia. }
  split; [exact Hdisj|].
  intros j Hj Hset. apply Hcov; [lia | exact Hset].
Qed.

(** C7 (amended): the engine returns the collective anomalies and the
    point anomalies as two sequences, each in descending order of
    position: every entry lies wholly after the next one. *)
Theorem engine_output_descending :
  exists opt coll pts,
    run_mvcapa saving_row saving_init_func X collective_alpha collective_betas
      point_alpha point_betas min_segment_length max_segment_length
    = Ok (opt, coll, pts) /\
    descending (map fst coll) /\ descending (map fst pts).
Proof.
  destruct engine_run
    as (opt & origin & coll & pts & coll' & pts' & _ & _ & Hrun & Hc & Hp & _ & _ & Hinv & _).
  exists (tl opt), coll', pts'. split; [exact Hrun|].
  rewrite Hc, Hp. destruct Hinv as [_ _ Hdc Hdp _ _]. split; assumption.
Qed.

(** C10: every collective anomaly (start, end) the engine returns has
    minSegmentLength <= end - start + 1 <= maxSegmentLength. *)
Theorem collective_anomaly_lengths :
  exists opt coll pts,
    run_mvcapa saving_row saving_init_func X collective_alpha collective_betas
      point_alpha point_betas min_segment_length max_segment_length
    = Ok (opt, coll, pts) /\
    forall s e comps, In (s, e, comps) coll ->
      (min_segment_length <= e - s + 1 <= max_segment_length)%Z.
Proof.
  destruct engine_run
    as (opt & origin & coll & pts & coll' & pts' & _ & _ & Hrun & Hc & _ & _ & Hl'
        & Hinv & Hunset & _ & _ & Hrec).
  exists (tl opt), coll', pts'. split; [exact Hrun|].
  intros s e comps Hin.
  assert (Hin' : In (s, e) coll).
  { rewrite <- Hc. change (s, e) with (fst (s, e, comps)). apply in_map. exact Hin. }
  destruct Hinv as [Hcoll _ _ _ _ _]. rewrite Forall_forall in Hcoll.
  specialize (Hcoll _ Hin'). simpl in Hcoll. destruct Hcoll as (Hb & Hset).
  rewrite Hl' in Hb.
  destruct (Z_lt_le_dec e (min_segment_length - 1)) as [Hlt|Hge].
  { rewrite Hunset in Hset by lia. discriminate. }
  destruct (@recurrence_origin_window _ saving_row params collective_alpha collective_betas
              point_alpha point_betas min_segment_length max_segment_length
              opt origin e s (Hrec e ltac:(lia)) Hset); lia.
Qed.

End RunProperties.

(** ** Penalty scales *)

Module ScaleFacts.
Import Np NpFacts SortFacts.

Lemma Qeq_bool_scale (s b b0 : Q) : 0 < s -> Qeq_bool (s * b) (s * b0) = Qeq_bool b b0.
Proof.
  intros Hs. apply eq_true_iff_eq. rewrite !Qeq_bool_iff.
  apply Qmult_inj_l. intros E. rewrite E in Hs. lra.
Qed.

Lemma sum_le (l l' : list Q) : Forall2 Qle l l' -> sum l <= sum l'.
Proof.
  induction 1 as [|x y l l' Hxy Hl IH].
  - lra.
  - rewrite !sum_cons. lra.
Qed.

Lemma scaled_prefix_le (s1 s2 : Q) (B : list Q) (k : nat) :
  s1 <= s2 -> Forall (Qle 0) B ->
  sum (firstn k (map (Qmult s1) B)) <= sum (firstn k (map (Qmult s2) B)).
Proof.
  intros Hs HB. apply sum_le. revert k.
  induction HB as [|b B Hb HB IH]; intros k.
  - destruct k; constructor.
  - destruct k as [|k]; simpl; constructor; [|apply IH].
    apply Qmult_le_compat_r; assumption.
Qed.

Lemma penalised_value_equal (b0 : Q) (B' : list Q) (alpha : Q) (row : list Q) :
  forallb (fun b => Qeq_bool b b0) (b0 :: B') = true ->
  penalised_value alpha (b0 :: B') row
  = sum (map (fun s => maximum (s - b0) 0 - alpha) row).
Proof.
  intros H. unfold penalised_value, penalise_savings.
  change (get (b0 :: B') 0) with (Ok b0). rewrite bind_Ok, H. reflexivity.
Qed.

Lemma penalised_value_general (b0 : Q) (B' : list Q) (alpha : Q) (row : list Q) :
  forallb (fun b => Qeq_bool b b0) (b0 :: B') = false ->
  length row = length (b0 :: B') ->
  is_max_over
    (fun k => cumulative_penalised (take row (argsort (map Qopp row))) (b0 :: B') k - alpha)
    (seq 1 (length row)) (penalised_value alpha (b0 :: B') row).
Proof.
  intros H Hlen. unfold penalised_value, penalise_savings.
  change (get (b0 :: B') 0) with (Ok b0). rewrite bind_Ok, H.
  destruct (@penalise_row_general_max row alpha (b0 :: B') Hlen ltac:(discriminate))
    as (v & Hv & Hmax).
  unfold mapM. rewrite Hv, !bind_Ok. exact Hmax.
Qed.

Lemma forallb_scale (s b0 : Q) (B : list Q) :
  0 < s ->
  forallb (fun b => Qeq_bool b (s * b0)) (map (Qmult s) B)
  = forallb (fun b => Qeq_bool b b0) B.
Proof.
  intros Hs. induction B as [|b B IH]; simpl; [reflexivity|].
  rewrite Qeq_bool_scale by exact Hs. rewrite IH. reflexivity.
Qed.

(** A larger scale never increases the penalised saving of a row. *)
Lemma penalised_value_scale_mono (s1 s2 : Q) (base : Q * list Q) (row : list Q) :
  0 < s1 -> s1 <= s2 -> nonneg_penalty base ->
  snd base <> [] -> length row = length (snd base) ->
  penalised_value (fst (scale_penalty s2 base)) (snd (scale_penalty s2 base)) row
  <= penalised_value (fst (scale_penalty s1 base)) (snd (scale_penalty s1 base)) row.
Proof.
  intros Hs1 Hs (HA & HB) Hne Hlen. destruct base as [A B]. simpl in *.
  destruct B as [|b0 B']; [congruence|]. clear Hne.
  assert (Hb0 : 0 <= b0) by (inversion HB; assumption).
  assert (HsA : s1 * A <= s2 * A) by (apply Qmult_le_compat_r; assumption).
  assert (Hsb : s1 * b0 <= s2 * b0) by (apply Qmult_le_compat_r; assumption).
  change (map (Qmult s2) (b0 :: B')) with (s2 * b0 :: map (Qmult s2) B').
  change (map (Qmult s1) (b0 :: B')) with (s1 * b0 :: map (Qmult s1) B').
  pose proof (@forallb_scale s1 b0 (b0 :: B') Hs1) as E1.
  pose proof (@forallb_scale s2 b0 (b0 :: B') ltac:(lra)) as E2.
  change (map (Qmult s2) (b0 :: B')) with (s2 * b0 :: map (Qmult s2) B') in E2.
  change (map (Qmult s1) (b0 :: B')) with (s1 * b0 :: map (Qmult s1) B') in E1.
  destruct (forallb (fun b => Qeq_bool b b0) (b0 :: B')) eqn:Eall.
  - rewrite !penalised_value_equal by assumption.
    apply sum_le. clear - HsA Hsb. induction row as [|x row IH]; simpl; constructor; [|exact IH].
    pose proof (@maximum_mono (x - s2 * b0) 0 (x - s1 * b0) 0 ltac:(lra) ltac:(lra)).
    lra.
  - assert (Hl1 : length row = length (s1 * b0 :: map (Qmult s1) B'))
      by (simpl in *; rewrite length_map; exact Hlen).
    assert (Hl2 : length row = length (s2 * b0 :: map (Qmult s2) B'))
      by (simpl in *; rewrite length_map; exact Hlen).
    destruct (penalised_value_general (s1 * A) row E1 Hl1) as (_ & Hmax1).
    destruct (penalised_value_general (s2 * A) row E2 Hl2) as ((k & Hk & Hv2) & _).
    rewrite Hv2. eapply Qle_trans; [|apply (Hmax1 k Hk)].
    unfold cumulative_penalised.
    pose proof (@scaled_prefix_le s1 s2 (b0 :: B') k Hs HB) as Hpre.
    change (map (Qmult s2) (b0 :: B')) with (s2 * b0 :: map (Qmult s2) B') in Hpre.
    change (map (Qmult s1) (b0 :: B')) with (s1 * b0 :: map (Qmult s1) B') in Hpre.
    lra.
Qed.

End ScaleFacts.

Section RecurrenceFacts.

Variable Params : Type.
Variable saving_row : Params -> Z -> Z -> list Q.
Variable params : Params.
Variable collective_alpha : Q.
Variable collective_betas : list Q.
Variable point_alpha : Q.
Variable point_betas : list Q.
Variable min_segment_length max_segment_length : Z.

Let rec_at := recurrence_at saving_row params collective_alpha collective_betas
                point_alpha point_betas min_segment_length max_segment_length.
Let cv := collective_value saving_row params collective_alpha collective_betas.
Let pv := point_value saving_row params point_alpha point_betas.
Let in_window (t s : Z) : Prop :=
  (Z.max 0 (t - max_segment_length + 1) <= s < t - min_segment_length + 2)%Z.

(** The new table entry is one of the three hypothesis values ... *)
Lemma recurrence_attained (opt : list Q) (origin : list (option Z)) (t : Z) :
  rec_at opt origin t ->
  at_ opt (t + 1) = at_ opt t \/
  (exists s, in_window t s /\ at_ opt (t + 1) = cv opt t s) \/
  at_ opt (t + 1) = pv opt t.
Proof.
  intros (s & (Hwin & _) & Hchoice). cbv zeta in Hchoice.
  destruct Hchoice as [(_ & _ & H & _)|[(_ & _ & H & _)|(_ & _ & H & _)]].
  - left. exact H.
  - right; left. exists s. split; [exact Hwin | exact H].
  - right; right. exact H.
Qed.

(** ... and bounds all of them. *)
Lemma recurrence_bounds (opt : list Q) (origin : list (option Z)) (t : Z) :
  rec_at opt origin t ->
  at_ opt t <= at_ opt (t + 1) /\
  (forall s, in_window t s -> cv opt t s <= at_ opt (t + 1)) /\
  pv opt t <= at_ opt (t + 1).
Proof.
  intros (s & (Hwin & Hmax & _) & Hchoice). cbv zeta in Hchoice.
  fold cv in Hmax, Hchoice. fold pv in Hchoice.
  destruct Hchoice as [(H1 & H2 & H & _)|[(H1 & H2 & H & _)|(H1 & H2 & H & _)]];
    rewrite H; (split; [lra|]); (split; [|lra]);
    intros s' Hs'; specialize (Hmax s' Hs'); lra.
Qed.

(** An unset entry means no anomaly hypothesis beat the carried value. *)
Lemma recurrence_unset (opt : list Q) (origin : list (option Z)) (t : Z) :
  rec_at opt origin t -> origin_at origin t = None ->
  at_ opt (t + 1) = at_ opt t /\
  (forall s, in_window t s -> cv opt t s <= at_ opt t) /\
  pv opt t <= at_ opt t.
Proof.
  intros (s & (Hwin & Hmax & _) & Hchoice) Hnone. cbv zeta in Hchoice.
  fold cv in Hmax, Hchoice. fold pv in Hchoice.
  destruct Hchoice as [(H1 & H2 & H & _)|[(_ & _ & _ & H)|(_ & _ & _ & H)]];
    try congruence.
  split; [exact H|]. split; [|exact H2].
  intros s' Hs'. specialize (Hmax s' Hs'). lra.
Qed.

(** A set entry means some anomaly hypothesis strictly beat it. *)
Lemma recurrence_set (opt : list Q) (origin : list (option Z)) (t : Z) :
  rec_at opt origin t -> origin_at origin t <> None ->
  (exists s, in_window t s /\ at_ opt t < cv opt t s) \/ at_ opt t < pv opt t.
Proof.
  intros (s & (Hwin & _) & Hchoice) Hset. cbv zeta in Hchoice.
  fold cv in Hchoice. fold pv in Hchoice.
  destruct Hchoice as [(_ & _ & _ & H)|[(H1 & _)|(H1 & _)]].
  - contradiction.
  - left. exists s. split; assumption.
  - right. exact H1.
Qed.

End RecurrenceFacts.

Section ScaleProperties.

Variable Params : Type.
Variable saving_row : Params -> Z -> Z -> list Q.
Variable saving_init_func : list (list Q) -> Params.
Variable X : list (list Q).
Variable collective_base point_base : Q * list Q.
Variable min_segment_length max_segment_length : Z.
Variable s1 s2 : Q.

Let params := saving_init_func X.
Let n := Z.of_nat (length X).

Hypothesis Hshape : well_shaped saving_row params (snd collective_base) (snd point_base).
Hypothesis Hmin : (2 <= min_segment_length)%Z.
Hypothesis Hmax : (min_segment_length <= max_segment_length)%Z.
Hypothesis Hn : (min_segment_length <= n)%Z.
Hypothesis Hcollective : nonneg_penalty collective_base.
Hypothesis Hpoint : nonneg_penalty point_base.
Hypothesis Hs1 : 0 < s1.
Hypothesis Hs2 : s1 < s2.

(** The engine run with both penalties at scale [s]. *)
Let detect (s : Q) :=
  run_mvcapa saving_row saving_init_func X
    (fst (scale_penalty s collective_base)) (snd (scale_penalty s collective_base))
    (fst (scale_penalty s point_base)) (snd (scale_penalty s point_base))
    min_segment_length max_segment_length.

Lemma well_shaped_scaled (s : Q) :
  well_shaped saving_row params
    (snd (scale_penalty s collective_base)) (snd (scale_penalty s point_base)).
Proof.
  destruct Hshape as (Hc & Hp & Hrows). unfold scale_penalty. simpl.
  split; [|split].
  - intros E. apply map_eq_nil in E. contradiction.
  - intros E. apply map_eq_nil in E. contradiction.
  - intros s0 e. rewrite !length_map. apply Hrows.
Qed.

Lemma returned_at (opt : list Q) (i : nat) :
  nth i (tl opt) 0 = at_ opt (Z.of_nat i + 1).
Proof.
  unfold at_. replace (Z.to_nat (Z.of_nat i + 1)) with (S i) by lia.
  destruct opt as [|o opt]; [destruct i|]; reflexivity.
Qed.

(** C8 (amended): for base penalties with non-negative components and
    scales s2 > s1 > 0 applied to both the collective and the point
    penalty, the optimal saving of every prefix under s2 is at most that
    under s1, and if no anomaly is detected under s1 then none is detected
    under s2. *)
Theorem larger_scale_suppresses :
  exists r1 r2,
    detect s1 = Ok r1 /\ detect s2 = Ok r2 /\
    (forall i, nth i (fst (fst r2)) 0 <= nth i (fst (fst r1)) 0) /\
    (anomaly_count r1 = 0%nat -> anomaly_count r2 = 0%nat).
Proof.
  destruct (@engine_run _ saving_row saving_init_func X
              (fst (scale_penalty s1 collective_base)) (snd (scale_penalty s1 collective_base))
              (fst (scale_penalty s1 point_base)) (snd (scale_penalty s1 point_base))
              min_segment_length max_segment_length
              (well_shaped_scaled s1) Hmin Hmax Hn)
    as (opt1 & origin1 & coll1 & pts1 & coll1' & pts1' & _ & _ & Hrun1 & Hc1 & Hp1 & Hl1 & Hl1'
        & Hinv1 & Hunset1 & Hzero1 & Hpos1 & Hrec1).
  destruct (@engine_run _ saving_row saving_init_func X
              (fst (scale_penalty s2 collective_base)) (snd (scale_penalty s2 collective_base))
              (fst (scale_penalty s2 point_base)) (snd (scale_penalty s2 point_base))
              min_segment_length max_segment_length
              (well_shaped_scaled s2) Hmin Hmax Hn)
    as (opt2 & origin2 & coll2 & pts2 & coll2' & pts2' & _ & _ & Hrun2 & Hc2 & Hp2 & Hl2 & Hl2'
        & Hinv2 & Hunset2 & Hzero2 & Hpos2 & Hrec2).
  fold params n in Hl1, Hl1', Hl2, Hl2', Hpos1, Hpos2, Hrec1, Hrec2.
  destruct Hshape as (Hcne & Hpne & Hrows).
  assert (Hs : s1 <= s2) by lra.
  assert (Hpvc : forall s t,
             penalised_value (fst (scale_penalty s2 collective_base))
               (snd (scale_penalty s2 collective_base)) (saving_row params s t)
             <= penalised_value (fst (scale_penalty s1 collective_base))
                  (snd (scale_penalty s1 collective_base)) (saving_row params s t)).
  { intros s t. apply ScaleFacts.penalised_value_scale_mono; auto. apply Hrows. }
  assert (Hpvp : forall s t,
             penalised_value (fst (scale_penalty s2 point_base))
               (snd (scale_penalty s2 point_base)) (saving_row params s t)
             <= penalised_value (fst (scale_penalty s1 point_base))
                  (snd (scale_penalty s1 point_base)) (saving_row params s t)).
  { intros s t. apply ScaleFacts.penalised_value_scale_mono; auto. apply Hrows. }
  (* the table under s2 lies below the table under s1 *)
  assert (Hle : forall k j : nat, (j <= k)%nat -> (Z.of_nat j <= n)%Z ->
                  at_ opt2 (Z.of_nat j) <= at_ opt1 (Z.of_nat j)).
  { induction k as [|k IH]; intros j Hj Hjn.
    - replace j with 0%nat by lia. rewrite Hzero1, Hzero2 by lia. lra.
    - destruct (Nat.eq_dec j (S k)) as [->|Hne]; [|apply IH; lia].
      destruct (Z_lt_le_dec (Z.of_nat (S k)) min_segment_length) as [Hlt|Hge].
      { rewrite Hzero1, Hzero2 by lia. lra. }
      replace (Z.of_nat (S k)) with (Z.of_nat k + 1)%Z by lia.
      pose proof (recurrence_attained (Hrec2 (Z.of_nat k) ltac:(lia))) as Hatt.
      pose proof (recurrence_bounds (Hrec1 (Z.of_nat k) ltac:(lia))) as (Hb0 & Hb1 & Hb2).
      pose proof (IH k ltac:(lia) ltac:(lia)) as IHk.
      destruct Hatt as [H|[(s & Hwin & H)|H]]; rewrite H.
      + lra.
      + specialize (Hb1 s Hwin). unfold collective_value in *.
        pose proof (IH (Z.to_nat s) ltac:(lia) ltac:(lia)) as IHs.
        rewrite Z2Nat.id in IHs by lia. specialize (Hpvc s (Z.of_nat k)). lra.
      + unfold point_value in *. specialize (Hpvp (Z.of_nat k) (Z.of_nat k)). lra. }
  exists (tl opt1, coll1', pts1'), (tl opt2, coll2', pts2').
  split; [exact Hrun1|]. split; [exact Hrun2|]. split.
  - intros i. simpl fst. rewrite !returned_at.
    destruct (Z_lt_le_dec (Z.of_nat i) n) as [Hlt|Hge].
    + replace (Z.of_nat i + 1)%Z with (Z.of_nat (S i)) by lia.
      apply (Hle (S i)); lia.
    + unfold at_. rewrite !nth_overflow by lia. lra.
  - unfold anomaly_count. simpl. intros Hcount.
    assert (Hnil1 : coll1 ++ pts1 = []).
    { apply length_zero_iff_nil. rewrite length_app, <- Hc1, <- Hp1, !length_map. exact Hcount. }
    (* nothing was recorded under s1, so the table under s1 is zero *)
    assert (Hnone1 : forall j, (0 <= j < n)%Z -> origin_at origin1 j = None).
    { intros j Hj. destruct (origin_at origin1 j) as [s|] eqn:E; [|reflexivity].
      destruct Hinv1 as [_ _ _ _ _ Hcov]. rewrite Hl1' in Hcov.
      destruct (Hcov j ltac:(lia) ltac:(congruence)) as (a & Ha & _).
      rewrite Hnil1 in Ha. destruct Ha. }
    assert (Hz1 : forall k : nat, (Z.of_nat k <= n)%Z -> at_ opt1 (Z.of_nat k) = 0).
    { induction k as [|k IH]; intros Hk; [apply Hzero1; lia|].
      destruct (Z_lt_le_dec (Z.of_nat (S k)) min_segment_length) as [Hlt|Hge];
        [apply Hzero1; lia|].
      replace (Z.of_nat (S k)) with (Z.of_nat k + 1)%Z by lia.
      destruct (recurrence_unset (Hrec1 (Z.of_nat k) ltac:(lia)) (Hnone1 (Z.of_nat k) ltac:(lia)))
        as (H & _). rewrite H. apply IH. lia. }
    assert (Hz1' : forall i, (0 <= i <= n)%Z -> at_ opt1 i = 0).
    { intros i Hi. rewrite <- (Z2Nat.id i) by lia. apply Hz1. lia. }
    assert (Hz2 : forall i, (0 <= i <= n)%Z -> at_ opt2 i == 0).
    { intros i Hi. pose proof (Hle (Z.to_nat i) (Z.to_nat i) ltac:(lia) ltac:(lia)) as H.
      rewrite Z2Nat.id in H by lia. rewrite Hz1' in H by lia.
      pose proof (Hpos2 i Hi). lra. }
    assert (Hnone2 : forall j, (0 <= j < n)%Z -> origin_at origin2 j = None).
    { intros j Hj. destruct (Z_lt_le_dec j (min_segment_length - 1)) as [Hlt|Hge];
        [apply Hunset2; lia|].
      destruct (origin_at origin2 j) as [s|] eqn:E; [exfalso|reflexivity].
      destruct (recurrence_unset (Hrec1 j ltac:(lia)) (Hnone1 j ltac:(lia)))
        as (_ & Hcv1 & Hpv1).
      assert (Hz1q : forall i, (0 <= i <= n)%Z -> at_ opt1 i == 0)
        by (intros i Hi; rewrite Hz1' by exact Hi; reflexivity).
      pose proof (Hz1q j ltac:(lia)) as Hj1. pose proof (Hz2 j ltac:(lia)) as Hj2.
      destruct (recurrence_set (Hrec2 j ltac:(lia)) ltac:(congruence))
        as [(s' & Hwin & Hlt)|Hlt].
      - specialize (Hcv1 s' Hwin). unfold collective_value in *.
        pose proof (Hz1q s' ltac:(lia)). pose proof (Hz2 s' ltac:(lia)).
        specialize (Hpvc s' j). lra.
      - unfold point_value in *. specialize (Hpvp j j). lra. }
    assert (Hempty : forall l : list (Z * Z),
               Forall (fun a => (-1 < fst a /\ 0 <= fst a /\ fst a <= snd a /\
                                 snd a < Z.of_nat (length origin2))%Z /\
                                origin_at origin2 (snd a) = Some (fst a)) l -> l = []).
    { intros [|a l] H; [reflexivity|]. inversion H as [|? ? (Hb & Hset) _]; subst.
      rewrite Hl2' in Hb. rewrite Hnone2 in Hset by lia. discriminate. }
    destruct Hinv2 as [Hcoll2 Hpts2 _ _ _ _].
    assert (Ec : coll2 = []).
    { apply Hempty. eapply Forall_impl; [|exact Hcoll2]. simpl. intros a (Hb & Hset).
      split; [lia | exact Hset]. }
    assert (Ep : pts2 = []).
    { apply Hempty. eapply Forall_impl; [|exact Hpts2]. simpl. intros a (Hb & Hset).
      split; [lia | exact Hset]. }
    rewrite Ec in Hc2. rewrite Ep in Hp2.
    apply (f_equal (@length _)) in Hc2, Hp2. rewrite length_map in Hc2, Hp2.
    simpl in Hc2, Hp2. lia.
Qed.

End ScaleProperties.

(** ** The claims on concrete inputs *)

Lemma well_shaped_saving_a :
  well_shaped Inputs.saving_a tt [0] [0].
Proof.
  split; [discriminate|]. split; [discriminate|]. intros s e. split; reflexivity.
Qed.

Lemma well_shaped_saving_b :
  well_shaped Inputs.saving_b tt [0] [0].
Proof.
  split; [discriminate|]. split; [discriminate|]. intros s e. split; reflexivity.
Qed.

Lemma run_base_capa_recurrence_witness :
  exists opt origin,
    capa_forward Inputs.saving_a 4 tt 10 [0] 1 [0] 2 1000 = Ok (opt, origin) /\
    recurrence_at Inputs.saving_a tt 10 [0] 1 [0] 2 1000 opt origin 3.
Proof.
  destruct (@run_base_capa_recurrence unit Inputs.saving_a tt 10 [0] 1 [0] 2%Z 1000%Z
              well_shaped_saving_a ltac:(lia) ltac:(lia) (Inputs.frame 4) ltac:(simpl; lia))
    as (opt & origin & coll & pts & Hfw & _ & _ & _ & _ & _ & _ & Hrec).
  exists opt, origin. split; [exact Hfw|]. apply Hrec. simpl. lia.
Defined.

Lemma opt_savings_nonneg_nondecreasing_witness :
  exists opt coll pts,
    run_base_capa Inputs.saving_a (Inputs.frame 4) tt 10 [0] 1 [0] 2 1000
    = Ok (opt, coll, pts) /\
    length opt = 4%nat /\ 0 <= nth 0 opt 0 /\
    (forall i, (i < length opt)%nat -> 0 <= nth i opt 0) /\
    (forall i, (S i < length opt)%nat -> nth i opt 0 <= nth (S i) opt 0).
Proof.
  apply (@opt_savings_nonneg_nondecreasing unit Inputs.saving_a tt 10 [0] 1 [0] 2%Z 1000%Z
           well_shaped_saving_a ltac:(lia) ltac:(lia) (Inputs.frame 4) ltac:(simpl; lia)).
Defined.

(** C4 (as stated, refuted): on this run the DP records the anomaly 0..2 at
    t = 2 and the anomaly 2..4 at t = 4 and leaves entry 3 unset; the
    reconstructor emits 2..4 only.  Position 3 is covered although its entry
    is unset, and position 0, flagged at t = 2, is not covered. *)
Example reconstruction_covers_other_positions :
  exists opt origin coll pts,
    capa_forward Inputs.saving_b 5 tt 1 [0] 1 [0] 2 1000 = Ok (opt, origin) /\
    get_anomalies origin = Ok (coll, pts) /\
    origin = [None; None; Some 0%Z; None; Some 2%Z] /\
    coll ++ pts = [(2, 4)%Z] /\
    (covers (coll ++ pts) 3 /\ origin_at origin 3 = None) /\
    (origin_at origin 2 = Some 0%Z /\ ~ covers (coll ++ pts) 0).
Proof.
  eexists. eexists. eexists. eexists.
  split; [vm_compute; reflexivity|].
  split; [vm_compute; reflexivity|].
  split; [reflexivity|]. split; [reflexivity|].
  split; [split; [|reflexivity]|split; [reflexivity|]].
  - exists (2, 4)%Z. split; [left; reflexivity | simpl; lia].
  - intros (a & [<-|[]] & H). simpl in H. lia.
Qed.

Lemma reconstructed_anomalies_disjoint_in_range_witness :
  exists opt origin coll pts,
    capa_forward Inputs.saving_b 5 tt 1 [0] 1 [0] 2 1000 = Ok (opt, origin) /\
    get_anomalies origin = Ok (coll, pts) /\
    pairwise_disjoint (coll ++ pts) /\
    (forall j, (0 <= j < 5)%Z -> origin_at origin j <> None -> covers (coll ++ pts) j).
Proof.
  destruct (@reconstructed_anomalies_disjoint_in_range unit Inputs.saving_b Inputs.init
              (Inputs.frame 5) 1 [0] 1 [0] 2%Z 1000%Z
              well_shaped_saving_b ltac:(lia) ltac:(lia) ltac:(simpl; lia))
    as (opt & origin & coll & pts & Hfw & Hget & _ & _ & _ & Hdisj & Hcov).
  exists opt, origin, coll, pts. auto.
Defined.

(** C7 (as stated, refuted): on this run the engine returns the point
    anomalies 3 and 1, the later one first. *)
Example engine_output_not_ascending :
  exists opt coll pts,
    run_mvcapa Inputs.saving_a Inputs.init (Inputs.frame 4) 20 [0] 2 [0] 2 1000
    = Ok (opt, coll, pts) /\
    map fst pts = [(3, 3)%Z; (1, 1)%Z] /\
    ~ ascending_positions (map fst pts).
Proof.
  eexists. eexists. eexists.
  split; [vm_compute; reflexivity|].
  split; [reflexivity|].
  simpl. intros H. inversion H as [|a l _ Hall]; subst.
  inversion Hall as [|b l' Hlt _]; subst. simpl in Hlt. lia.
Qed.

Lemma engine_output_descending_witness :
  exists opt coll pts,
    run_mvcapa Inputs.saving_a Inputs.init (Inputs.frame 4) 20 [0] 2 [0] 2 1000
    = Ok (opt, coll, pts) /\
    descending (map fst coll) /\ descending (map fst pts).
Proof.
  apply (@engine_output_descending unit Inputs.saving_a Inputs.init (Inputs.frame 4)
           20 [0] 2 [0] 2%Z 1000%Z well_shaped_saving_a ltac:(lia) ltac:(lia)
           ltac:(simpl; lia)).
Defined.

Lemma collective_anomaly_lengths_witness :
  exists opt coll pts,
    run_mvcapa Inputs.saving_a Inputs.init (Inputs.frame 4) 10 [0] 1 [0] 2 1000
    = Ok (opt, coll, pts) /\
    forall s e comps, In (s, e, comps) coll -> (2 <= e - s + 1 <= 1000)%Z.
Proof.
  apply (@collective_anomaly_lengths unit Inputs.saving_a Inputs.init (Inputs.frame 4)
           10 [0] 1 [0] 2%Z 1000%Z well_shaped_saving_a ltac:(lia) ltac:(lia)
           ltac:(simpl; lia)).
Defined.

(** C8 (as stated, refuted): with the collective penalty 10 and the point
    penalty 1, scale 1 yields the single collective anomaly 0..3, and scale 2
    yields the two point anomalies 3 and 1. *)
Example larger_scale_can_detect_more :
  exists r1 r2,
    Inputs.detect_at_scale 1 = Ok r1 /\ Inputs.detect_at_scale 2 = Ok r2 /\
    map fst (snd (fst r1)) = [(0, 3)%Z] /\ snd r1 = [] /\
    snd (fst r2) = [] /\ map fst (snd r2) = [(3, 3)%Z; (1, 1)%Z] /\
    anomaly_count r1 = 1%nat /\ anomaly_count r2 = 2%nat /\
    ~ (anomaly_count r2 <= anomaly_count r1)%nat.
Proof.
  eexists. eexists.
  split; [vm_compute; reflexivity|].
  split; [vm_compute; reflexivity|].
  repeat (split; [reflexivity|]). unfold anomaly_count. simpl. lia.
Qed.

Lemma larger_scale_suppresses_witness :
  exists r1 r2,
    run_mvcapa Inputs.saving_a Inputs.init (Inputs.frame 4)
      (fst (scale_penalty 1 (10, [0]))) (snd (scale_penalty 1 (10, [0])))
      (fst (scale_penalty 1 (1, [0]))) (snd (scale_penalty 1 (1, [0]))) 2 1000 = Ok r1 /\
    run_mvcapa Inputs.saving_a Inputs.init (Inputs.frame 4)
      (fst (scale_penalty 2 (10, [0]))) (snd (scale_penalty 2 (10, [0])))
      (fst (scale_penalty 2 (1, [0]))) (snd (scale_penalty 2 (1, [0]))) 2 1000 = Ok r2 /\
    (forall i, nth i (fst (fst r2)) 0 <= nth i (fst (fst r1)) 0) /\
    (anomaly_count r1 = 0%nat -> anomaly_count r2 = 0%nat).
Proof.
  apply (@larger_scale_suppresses unit Inputs.saving_a Inputs.init (Inputs.frame 4)
           (10, [0]) (1, [0]) 2%Z 1000%Z 1 2 well_shaped_saving_a ltac:(lia) ltac:(lia)
           ltac:(simpl; lia)).
  - split; [discriminate | repeat constructor; discriminate].
  - split; [discriminate | repeat constructor; discriminate].
  - reflexivity.
  - reflexivity.
Defined.

(** C6 (as stated, refuted): construction returns an estimator for an
    unknown policy name and for a zero or negative scale; with the zero
    scale of the estimator's own test parameters, fitting returns as well. *)
Example construction_accepts_unknown_policy_and_nonpositive_scale :
  is_ok (Mvcapa_init (PenaltyName "no_such_policy") 0 (PenaltyName "sparse") (-1)
           2 1000 false) /\
  exists self,
    Mvcapa_init (PenaltyName "combined") 0 (PenaltyName "sparse") 2 2 1000 false = Ok self /\
    is_ok (fit Inputs.lg Inputs.sq Inputs.ppf Inputs.pdf self (repeat [0; 0] 4)).
Proof.
  split; [eexists; reflexivity|].
  eexists. split; [reflexivity|]. eexists. vm_compute. reflexivity.
Qed.

Lemma configuration_errors_witness :
  is_value_error (Mvcapa_init (PenaltyName "dense") 1 (PenaltyName "sparse") 1 1 1000 false) /\
  is_ok (Mvcapa_init (PenaltyName "dense") 1 (PenaltyName "sparse") 1 2 1000 false).
Proof.
  destruct (configuration_errors Inputs.lg Inputs.sq Inputs.ppf Inputs.pdf)
    as (Hbad & Hgood & _).
  split; [apply Hbad; lia | apply Hgood; lia].
Defined.


(** * Further properties *)

(** ** Optimality of the DP *)

Module ValueFacts.
Import Np NpFacts SortFacts.

Lemma sum_app (l1 l2 : list Q) : sum (l1 ++ l2) == sum l1 + sum l2.
Proof.
  induction l1 as [|x l1 IH]; simpl app.
  - rewrite sum_nil. lra.
  - rewrite !sum_cons, IH. lra.
Qed.

Lemma sum_snoc (l : list Q) (x : Q) : sum (l ++ [x]) == sum l + x.
Proof. rewrite sum_app, sum_cons, sum_nil. lra. Qed.

Lemma nth_diff (l : list Q) (x : Q) (k : nat) :
  (k < length l)%nat -> nth k (diff (x :: l)) 0 = nth k l 0 - nth k (x :: l) 0.
Proof.
  revert x k. induction l as [|y l IH]; intros x k Hk; simpl in Hk; [lia|].
  destruct k as [|k]; [reflexivity|].
  change (nth k (diff (y :: l)) 0 = nth k l 0 - nth k (y :: l) 0). apply IH. lia.
Qed.

End ValueFacts.

Section Optimality.

Variable Params : Type.
Variable saving_row : Params -> Z -> Z -> list Q.
Variable params : Params.
Variable collective_alpha : Q.
Variable collective_betas : list Q.
Variable point_alpha : Q.
Variable point_betas : list Q.
Variable min_segment_length max_segment_length : Z.

Hypothesis Hmin : (2 <= min_segment_length)%Z.

Let rec_at := recurrence_at saving_row params collective_alpha collective_betas
                point_alpha point_betas min_segment_length max_segment_length.
Let value := anomaly_value saving_row params collective_alpha collective_betas
               point_alpha point_betas.
Let total := total_value saving_row params collective_alpha collective_betas
               point_alpha point_betas.
Let ok := admissible min_segment_length max_segment_length.

Variable n : Z.
Variable opt : list Q.
Variable origin : list (option Z).

Hypothesis Hl : Z.of_nat (length opt) = (n + 1)%Z.
Hypothesis Hl' : Z.of_nat (length origin) = n.
Hypothesis Hzero : forall i, (0 <= i <= min_segment_length - 1)%Z -> at_ opt i = 0.
Hypothesis Hunset : forall i, (0 <= i < min_segment_length - 1)%Z -> origin_at origin i = None.
Hypothesis Hrec : forall t, (min_segment_length - 1 <= t < n)%Z -> rec_at opt origin t.

Lemma table_monotone (i j : Z) : (0 <= i <= j)%Z -> (j <= n)%Z -> at_ opt i <= at_ opt j.
Proof using Hmin Hl Hl' Hzero Hunset Hrec.
  intros Hij Hj.
  destruct (forward_arrays Hmin Hl Hl' Hzero Hunset Hrec) as (_ & Hmono & _).
  replace j with (i + Z.of_nat (Z.to_nat (j - i)))%Z by lia.
  assert (Hk : (i + Z.of_nat (Z.to_nat (j - i)) <= n)%Z) by lia.
  revert Hk. generalize (Z.to_nat (j - i)) as k.
  induction k as [|k IH]; intros Hk.
  - replace (i + Z.of_nat 0)%Z with i by lia. lra.
  - specialize (IH ltac:(lia)).
    pose proof (Hmono (i + Z.of_nat k)%Z ltac:(lia)) as Hstep.
    replace (i + Z.of_nat (S k))%Z with (i + Z.of_nat k + 1)%Z by lia. lra.
Qed.

Lemma total_cons (a : Z * Z) (seg : list (Z * Z)) : total (a :: seg) == value a + total seg.
Proof. unfold total, total_value. simpl map. apply SortFacts.sum_cons. Qed.

(** No admissible segmentation of the first [m] samples is worth more than
    the table entry [m]. *)
Lemma table_dominates (seg : list (Z * Z)) :
  forall m, (0 <= m <= n)%Z ->
    descending seg -> Forall (ok n) seg -> Forall (fun a => (snd a < m)%Z) seg ->
    total seg <= at_ opt m.
Proof using Hmin Hl Hl' Hzero Hunset Hrec.
  destruct (forward_arrays Hmin Hl Hl' Hzero Hunset Hrec) as (_ & _ & Hpos).
  induction seg as [|[s e] seg IH]; intros m Hm Hdesc Hok Hbelow.
  - unfold total, total_value. simpl. rewrite SortFacts.sum_nil. apply Hpos. lia.
  - apply StronglySorted_inv in Hdesc. destruct Hdesc as (Hdesc' & Hafter).
    apply Forall_cons_iff in Hok. destruct Hok as (((Hs & He) & Hkind) & Hok').
    apply Forall_cons_iff in Hbelow. destruct Hbelow as (Hem & _). simpl in *.
    assert (IHs : total seg <= at_ opt s) by (apply IH; auto; lia).
    rewrite total_cons.
    assert (Het : (min_segment_length - 1 <= e < n)%Z) by lia.
    destruct (recurrence_bounds (@Hrec e Het)) as (_ & Hcoll & Hpoint).
    pose proof (@table_monotone (e + 1)%Z m ltac:(lia) ltac:(lia)) as Hup.
    unfold value, anomaly_value. simpl fst. simpl snd.
    destruct Hkind as [(Heq & _)|Hlen].
    + subst s. rewrite Z.eqb_refl. unfold point_value in Hpoint. lra.
    + destruct (Z.eqb_spec s e) as [->|Hne]; [lia|].
      specialize (Hcoll s ltac:(lia)). unfold collective_value in Hcoll. lra.
Qed.

(** What a set backtrack entry says about the table. *)
Lemma recurrence_recorded (t s : Z) :
  (min_segment_length - 1 <= t < n)%Z -> origin_at origin t = Some s ->
  (0 <= s <= t)%Z /\ at_ opt (t + 1) = at_ opt s + value (s, t).
Proof using Hmin Hl Hl' Hzero Hunset Hrec.
  intros Ht Hset. destruct (@Hrec t Ht) as (s' & (Hwin & _) & Hchoice).
  cbv zeta in Hchoice. unfold value, anomaly_value. simpl fst. simpl snd.
  destruct Hchoice as [(_ & _ & _ & H)|[(_ & _ & Hv & H)|(_ & _ & Hv & H)]];
    rewrite H in Hset; [discriminate| |]; injection Hset as <-.
  - split; [lia|]. destruct (Z.eqb_spec s' t) as [->|_]; [lia|]. exact Hv.
  - split; [lia|]. rewrite Z.eqb_refl. exact Hv.
Qed.

Lemma table_unset (t : Z) :
  (0 <= t < n)%Z -> origin_at origin t = None -> at_ opt (t + 1) = at_ opt t.
Proof using Hmin Hl Hl' Hzero Hunset Hrec.
  intros Ht Hnone. destruct (Z_lt_le_dec t (min_segment_length - 1)) as [Hlt|Hge].
  - rewrite !Hzero by lia. reflexivity.
  - apply (recurrence_unset (@Hrec t ltac:(lia)) Hnone).
Qed.

(** The walk keeps: value emitted so far plus the table entry at the
    cursor. *)
Lemma walk_value (T : Q) (fuel : nat) :
  forall (i : Z) (coll pts coll' pts' : list (Z * Z)),
    (-1 <= i < n)%Z ->
    get_anomalies_loop fuel origin i coll pts = Ok (coll', pts') ->
    total coll + total pts + at_ opt (i + 1) == T ->
    total coll' + total pts' == T.
Proof using Hmin Hl Hl' Hzero Hunset Hrec.
  induction fuel as [|fuel IH]; intros i coll pts coll' pts' Hi Hrun Hinv.
  - simpl in Hrun. destruct (Z.ltb_spec i 0); [|discriminate].
    injection Hrun as <- <-. replace (i + 1)%Z with 0%Z in Hinv by lia.
    rewrite Hzero in Hinv by lia. lra.
  - simpl in Hrun. destruct (Z.ltb_spec i 0) as [Hneg|Hpos].
    { injection Hrun as <- <-. replace (i + 1)%Z with 0%Z in Hinv by lia.
      rewrite Hzero in Hinv by lia. lra. }
    rewrite DpFacts.get_origin_at in Hrun by lia. rewrite bind_Ok in Hrun.
    destruct (origin_at origin i) as [s|] eqn:Es.
    + assert (Hge : (min_segment_length - 1 <= i)%Z).
      { destruct (Z_lt_le_dec i (min_segment_length - 1)) as [Hlt|Hge]; [|exact Hge].
        rewrite Hunset in Es by lia. discriminate. }
      destruct (@recurrence_recorded i s ltac:(lia) Es) as (Hs & Hv).
      destruct (Z.ltb_spec 1 (i - s + 1)) as [Hsize|Hsize].
      * eapply IH; [|exact Hrun|]; [lia|].
        unfold total, total_value in *. rewrite map_app. simpl (map _ [_]). rewrite ValueFacts.sum_snoc.
        replace (s - 1 + 1)%Z with s by lia. rewrite Hv in Hinv. fold value in Hinv |- *. lra.
      * assert (s = i) by lia. subst s.
        rewrite (proj2 (Z.eqb_eq (i - i + 1) 1) ltac:(lia)) in Hrun.
        eapply IH; [|exact Hrun|]; [lia|].
        unfold total, total_value in *. rewrite map_app. simpl (map _ [_]). rewrite ValueFacts.sum_snoc.
        replace (i - 1 + 1)%Z with i by lia. rewrite Hv in Hinv. fold value in Hinv |- *. lra.
    + eapply IH; [|exact Hrun|]; [lia|].
      replace (i - 1 + 1)%Z with i by lia. rewrite table_unset in Hinv by (auto; lia).
      exact Hinv.
Qed.

End Optimality.

Section OptimalityTheorems.

Variable Params : Type.
Variable saving_row : Params -> Z -> Z -> list Q.
Variable params : Params.
Variable X : list (list Q).
Variable collective_alpha : Q.
Variable collective_betas : list Q.
Variable point_alpha : Q.
Variable point_betas : list Q.
Variable min_segment_length max_segment_length : Z.

Let n := Z.of_nat (length X).

Hypothesis Hshape : well_shaped saving_row params collective_betas point_betas.
Hypothesis Hmin : (2 <= min_segment_length)%Z.
Hypothesis Hmax : (min_segment_length <= max_segment_length)%Z.
Hypothesis Hn : (min_segment_length <= n)%Z.

Let run :=
  run_base_capa saving_row X params collective_alpha collective_betas
    point_alpha point_betas min_segment_length max_segment_length.
Let total := total_value saving_row params collective_alpha collective_betas
               point_alpha point_betas.

(** A run of [run_base_capa] with the arrays of its forward pass. *)
Lemma base_run :
  exists opt origin coll pts,
    capa_forward saving_row n params collective_alpha collective_betas
      point_alpha point_betas min_segment_length max_segment_length = Ok (opt, origin) /\
    get_anomalies origin = Ok (coll, pts) /\
    run = Ok (tl opt, coll, pts) /\
    Z.of_nat (length opt) = (n + 1)%Z /\ Z.of_nat (length origin) = n /\
    walk_inv origin (-1) coll pts /\
    (forall i, (0 <= i <= min_segment_length - 1)%Z -> at_ opt i = 0) /\
    (forall i, (0 <= i < min_segment_length - 1)%Z -> origin_at origin i = None) /\
    (forall t, (min_segment_length - 1 <= t < n)%Z ->
       recurrence_at saving_row params collective_alpha collective_betas
         point_alpha point_betas min_segment_length max_segment_length opt origin t).
Proof.
  destruct (@capa_forward_spec _ saving_row params collective_alpha collective_betas
              point_alpha point_betas min_segment_length max_segment_length
              Hshape Hmin Hmax n Hn)
    as (opt & origin & Hfw & Hl & Hl' & Hzero & Hunset & Hrec).
  destruct (forward_arrays Hmin Hl Hl' Hzero Hunset Hrec) as (Hok & _).
  destruct (get_anomalies_spec Hok) as (coll & pts & Hget & Hinv).
  exists opt, origin, coll, pts.
  split; [exact Hfw|]. split; [exact Hget|].
  split; [unfold run, run_base_capa; fold n; rewrite Hfw, bind_Ok, Hget; reflexivity|].
  repeat (split; [assumption|]). exact Hrec.
Qed.

Lemma last_returned (opt : list Q) :
  Z.of_nat (length opt) = (n + 1)%Z -> nth (length X - 1) (tl opt) 0 = at_ opt n.
Proof.
  intros Hl. unfold at_, n in *. rewrite Nat2Z.id.
  destruct opt as [|o opt]; simpl in *; [lia|].
  destruct (length X) as [|k]; [lia|]. simpl. rewrite Nat.sub_0_r. reflexivity.
Qed.

(** X1: the last entry of the returned table is at least the total penalised
    saving of every admissible segmentation: any list of pairwise disjoint
    anomalies, latest first, each a point anomaly at some t >=
    min_segment_length - 1 or a collective anomaly of a length within the
    two bounds. *)
Theorem optimal_saving_dominates :
  exists opt coll pts,
    run = Ok (opt, coll, pts) /\
    forall seg,
      descending seg ->
      Forall (admissible min_segment_length max_segment_length n) seg ->
      total seg <= nth (length X - 1) opt 0.
Proof.
  destruct base_run
    as (opt & origin & coll & pts & _ & _ & Hrun & Hl & Hl' & _ & Hzero & Hunset & Hrec).
  exists (tl opt), coll, pts. split; [exact Hrun|].
  intros seg Hdesc Hadm. rewrite last_returned by exact Hl.
  apply (@table_dominates _ saving_row params collective_alpha collective_betas
           point_alpha point_betas min_segment_length max_segment_length
           Hmin n opt origin Hl Hl' Hzero Hunset Hrec seg n); auto.
  - unfold n. lia.
  - eapply Forall_impl; [|exact Hadm]. intros a ((_ & H) & _). exact H.
Qed.

(** X2: the anomalies the reconstructor emits are admissible and their total
    penalised saving is the last entry of the returned table. *)
Theorem reconstruction_attains_optimum :
  exists opt coll pts,
    run = Ok (opt, coll, pts) /\
    Forall (admissible min_segment_length max_segment_length n) (coll ++ pts) /\
    total (coll ++ pts) == nth (length X - 1) opt 0.
Proof.
  destruct base_run
    as (opt & origin & coll & pts & _ & Hget & Hrun & Hl & Hl' & Hinv & Hzero & Hunset & Hrec).
  exists (tl opt), coll, pts. split; [exact Hrun|]. split.
  - destruct Hinv as [Hc Hp _ _ _ _].
    assert (Hadm : forall a, (0 <= fst a /\ fst a <= snd a /\ snd a < n)%Z ->
                     origin_at origin (snd a) = Some (fst a) ->
                     admissible min_segment_length max_segment_length n a).
    { intros [s e] Hb Hset. simpl in *.
      assert (Hge : (min_segment_length - 1 <= e)%Z).
      { destruct (Z_lt_le_dec e (min_segment_length - 1)) as [Hlt|Hge]; [|exact Hge].
        rewrite Hunset in Hset by lia. discriminate. }
      split; [simpl; lia|]. simpl.
      destruct (@recurrence_origin_window _ saving_row params collective_alpha
                  collective_betas point_alpha point_betas min_segment_length
                  max_segment_length opt origin e s (Hrec e ltac:(lia)) Hset);
        [left | right]; lia. }
    apply Forall_app. split.
    + eapply Forall_impl; [|exact Hc]. intros a (Hb & Hset). rewrite Hl' in Hb.
      apply Hadm; [lia | exact Hset].
    + eapply Forall_impl; [|exact Hp]. intros a (Hb & Hset). rewrite Hl' in Hb.
      apply Hadm; [lia | exact Hset].
  - rewrite last_returned by exact Hl.
    unfold get_anomalies in Hget.
    pose proof (@walk_value _ saving_row params collective_alpha collective_betas
                  point_alpha point_betas min_segment_length max_segment_length
                  Hmin n opt origin Hl Hl' Hzero Hunset Hrec (at_ opt n) (length origin)
                  (Z.of_nat (length origin) - 1)%Z [] [] coll pts ltac:(lia) Hget) as Hval.
    unfold total, total_value. rewrite map_app, ValueFacts.sum_app.
    apply Hval. unfold total_value. simpl map. rewrite SortFacts.sum_nil.
    replace (Z.of_nat (length origin) - 1 + 1)%Z with n by lia. lra.
Qed.

(** X3: the per-position scores of [_predict] are non-negative, and the score
    at t is positive exactly when the DP recorded an anomaly ending at t. *)
Theorem scores_mark_anomaly_ends :
  exists opt origin coll pts,
    capa_forward saving_row n params collective_alpha collective_betas
      point_alpha point_betas min_segment_length max_segment_length = Ok (opt, origin) /\
    run = Ok (tl opt, coll, pts) /\
    length (anomaly_scores (tl opt)) = length X /\
    forall t, (t < length X)%nat ->
      0 <= nth t (anomaly_scores (tl opt)) 0 /\
      (0 < nth t (anomaly_scores (tl opt)) 0 <-> origin_at origin (Z.of_nat t) <> None).
Proof.
  destruct base_run
    as (opt & origin & coll & pts & Hfw & _ & Hrun & Hl & Hl' & _ & Hzero & Hunset & Hrec).
  exists opt, origin, coll, pts. split; [exact Hfw|]. split; [exact Hrun|].
  destruct opt as [|o0 opt']; [simpl in Hl; lia|]. simpl tl.
  assert (Hlen : length opt' = length X) by (simpl in Hl; unfold n in Hl; lia).
  unfold anomaly_scores. split; [rewrite PenaltyFacts.length_diff; exact Hlen|].
  intros t Ht. rewrite ValueFacts.nth_diff by lia.
  assert (Ho0 : o0 = 0) by (apply (Hzero 0%Z); lia).
  assert (Hcur : nth t opt' 0 = at_ (o0 :: opt') (Z.of_nat t + 1)).
  { unfold at_. replace (Z.to_nat (Z.of_nat t + 1)) with (S t) by lia. reflexivity. }
  assert (Hprev : nth t (0 :: opt') 0 = at_ (o0 :: opt') (Z.of_nat t)).
  { unfold at_. rewrite Nat2Z.id, Ho0. reflexivity. }
  rewrite Hcur, Hprev.
  destruct (Z_lt_le_dec (Z.of_nat t) (min_segment_length - 1)) as [Hlt|Hge].
  - rewrite !Hzero by lia. rewrite Hunset by lia.
    split; [lra|]. split; [intros H; lra | intros H; congruence].
  - assert (Ht' : (min_segment_length - 1 <= Z.of_nat t < n)%Z) by (unfold n; lia).
    pose proof (recurrence_bounds (Hrec _ Ht')) as (Hb & _).
    split; [lra|]. split.
    + intros Hpos Hnone.
      destruct (recurrence_unset (Hrec _ Ht') Hnone) as (Heq & _). rewrite Heq in Hpos. lra.
    + intros Hset. destruct (recurrence_set (Hrec _ Ht') Hset) as [(s & Hwin & Hlt)|Hlt].
      * pose proof (recurrence_bounds (Hrec _ Ht')) as (_ & Hc & _).
        specialize (Hc s Hwin). lra.
      * pose proof (recurrence_bounds (Hrec _ Ht')) as (_ & _ & Hp). lra.
Qed.

End OptimalityTheorems.

Lemma optimal_saving_dominates_witness :
  exists opt coll pts,
    run_base_capa Inputs.saving_a (Inputs.frame 4) tt 10 [0] 1 [0] 2 1000
    = Ok (opt, coll, pts) /\
    forall seg,
      descending seg ->
      Forall (admissible 2 1000 4) seg ->
      total_value Inputs.saving_a tt 10 [0] 1 [0] seg <= nth 3 opt 0.
Proof.
  exact (@optimal_saving_dominates unit Inputs.saving_a tt (Inputs.frame 4)
           10 [0] 1 [0] 2%Z 1000%Z
           well_shaped_saving_a ltac:(lia) ltac:(lia) ltac:(simpl; lia)).
Defined.

Lemma reconstruction_attains_optimum_witness :
  exists opt coll pts,
    run_base_capa Inputs.saving_a (Inputs.frame 4) tt 10 [0] 1 [0] 2 1000
    = Ok (opt, coll, pts) /\
    Forall (admissible 2 1000 4) (coll ++ pts) /\
    total_value Inputs.saving_a tt 10 [0] 1 [0] (coll ++ pts) == nth 3 opt 0.
Proof.
  exact (@reconstruction_attains_optimum unit Inputs.saving_a tt (Inputs.frame 4)
           10 [0] 1 [0] 2%Z 1000%Z
           well_shaped_saving_a ltac:(lia) ltac:(lia) ltac:(simpl; lia)).
Defined.

Lemma scores_mark_anomaly_ends_witness :
  exists opt origin coll pts,
    capa_forward Inputs.saving_a 4 tt 10 [0] 1 [0] 2 1000 = Ok (opt, origin) /\
    run_base_capa Inputs.saving_a (Inputs.frame 4) tt 10 [0] 1 [0] 2 1000
    = Ok (tl opt, coll, pts) /\
    length (anomaly_scores (tl opt)) = 4%nat /\
    forall t, (t < 4)%nat ->
      0 <= nth t (anomaly_scores (tl opt)) 0 /\
      (0 < nth t (anomaly_scores (tl opt)) 0 <-> origin_at origin (Z.of_nat t) <> None).
Proof.
  exact (@scores_mark_anomaly_ends unit Inputs.saving_a tt (Inputs.frame 4)
           10 [0] 1 [0] 2%Z 1000%Z
           well_shaped_saving_a ltac:(lia) ltac:(lia) ltac:(simpl; lia)).
Defined.

(** ** Subset selection *)

Module SubsetFacts.
Import Np NpFacts SortFacts ValueFacts.

Lemma sum_middle (l1 l2 : list Q) (x : Q) : sum (l1 ++ x :: l2) == x + sum (l1 ++ l2).
Proof. rewrite !sum_app, sum_cons. lra. Qed.

Lemma sum_perm (l l' : list Q) : Permutation l l' -> sum l == sum l'.
Proof.
  induction 1 as [|x l l' _ IH|x y l|l l' l'' _ IH1 _ IH2].
  - reflexivity.
  - rewrite !sum_cons, IH. reflexivity.
  - rewrite !sum_cons. lra.
  - rewrite IH1. exact IH2.
Qed.

(** The [k] largest entries of a list sum to at least as much as any [k]
    of its entries. *)
Lemma top_sum (sorted : list Q) :
  StronglySorted (fun x y => y <= x) sorted ->
  forall sel rest, Permutation (sel ++ rest) sorted ->
    sum sel <= sum (firstn (length sel) sorted).
Proof.
  induction 1 as [|x s Hs IH Hx]; intros sel rest Hperm.
  - symmetry in Hperm. apply Permutation_nil in Hperm. apply app_eq_nil in Hperm. destruct Hperm as (-> & _).
    simpl. lra.
  - assert (Hin : In x (sel ++ rest))
      by (eapply Permutation_in; [symmetry; exact Hperm | left; reflexivity]).
    apply in_app_or in Hin. destruct Hin as [Hin|Hin].
    + apply in_split in Hin. destruct Hin as (l1 & l2 & ->).
      assert (Hperm' : Permutation ((l1 ++ l2) ++ rest) s).
      { apply Permutation_cons_inv with (a := x).
        rewrite <- Hperm. rewrite <- !app_assoc. simpl.
        apply Permutation_middle. }
      specialize (IH (l1 ++ l2) rest Hperm').
      rewrite sum_middle. rewrite !length_app in *. simpl length.
      replace (length l1 + S (length l2))%nat with (S (length l1 + length l2)) by lia.
      simpl firstn. rewrite sum_cons. lra.
    + apply in_split in Hin. destruct Hin as (r1 & r2 & ->).
      destruct sel as [|y sel2]; [simpl; lra|].
      assert (Hperm' : Permutation (sel2 ++ y :: r1 ++ r2) s).
      { apply Permutation_cons_inv with (a := x).
        rewrite <- Hperm. simpl.
        transitivity (y :: x :: sel2 ++ r1 ++ r2).
        - rewrite perm_swap. constructor. symmetry. apply Permutation_middle.
        - constructor. rewrite app_assoc. rewrite (app_assoc sel2 r1 (x :: r2)).
          apply Permutation_middle. }
      specialize (IH sel2 (y :: r1 ++ r2) Hperm').
      assert (Hy : y <= x).
      { rewrite Forall_forall in Hx. apply Hx.
        eapply Permutation_in; [exact Hperm'|]. apply in_or_app. right. left. reflexivity. }
      simpl length. simpl firstn. rewrite !sum_cons. lra.
Qed.

Lemma sorted_app (A : Type) (R : A -> A -> Prop) (l1 l2 : list A) :
  StronglySorted R (l1 ++ l2) -> forall a b, In a l1 -> In b l2 -> R a b.
Proof.
  induction l1 as [|x l1 IH]; intros Hs a b Ha Hb; [destruct Ha|].
  simpl in Hs. apply StronglySorted_inv in Hs. destruct Hs as (Hs & Hall).
  destruct Ha as [<-|Ha].
  - rewrite Forall_forall in Hall. apply Hall. apply in_or_app. right. exact Hb.
  - apply IH; assumption.
Qed.

Lemma argsort_nodup (a : list Q) : NoDup (argsort a).
Proof.
  eapply Permutation_NoDup; [symmetry; apply argsort_perm | apply seq_NoDup].
Qed.

Lemma argsort_in (a : list Q) (i : nat) : In i (argsort a) <-> (i < length a)%nat.
Proof.
  split; intros H.
  - eapply Permutation_in in H; [|apply argsort_perm]. apply in_seq in H. lia.
  - eapply Permutation_in; [symmetry; apply argsort_perm|]. apply in_seq. lia.
Qed.

End SubsetFacts.

(** X4: in the general branch the value of a row is the best penalised saving
    over all non-empty subsets of its components: a subset of k components
    is charged the first k betas and alpha. *)
Theorem penalise_savings_best_subset (row : list Q) (alpha : Q) (betas : list Q) :
  length row = length betas -> betas_differ betas ->
  exists v,
    penalise_savings [row] alpha betas = Ok [v] /\
    (forall sel rest, Permutation (sel ++ rest) row -> sel <> [] ->
       Np.sum sel - Np.sum (firstn (length sel) betas) - alpha <= v) /\
    (exists sel rest, Permutation (sel ++ rest) row /\ sel <> [] /\
       v == Np.sum sel - Np.sum (firstn (length sel) betas) - alpha).
Proof.
  intros Hlen Hdiff.
  pose proof (betas_differ_forallb Hdiff) as Hall.
  destruct betas as [|b0 B'] eqn:Eb; [destruct Hdiff as (b & [] & _)|].
  simpl hd in Hall.
  pose proof (ScaleFacts.penalised_value_general alpha row Hall Hlen) as ((k & Hk & Hv) & Hmax).
  exists (penalised_value alpha (b0 :: B') row).
  split; [apply penalise_savings_single; [discriminate | exact Hlen]|].
  destruct (SortFacts.take_argsort_desc row) as (Hperm & Hsorted & Hlens).
  set (sorted := Np.take row (Np.argsort (map Qopp row))) in *.
  split.
  - intros sel rest Hsel Hne.
    assert (Hsl : (1 <= length sel <= length row)%nat).
    { apply Permutation_length in Hsel. rewrite length_app in Hsel.
      destruct sel; [congruence | simpl in *; lia]. }
    specialize (Hmax (length sel) ltac:(apply in_seq; lia)).
    unfold cumulative_penalised in Hmax.
    assert (Htop : Np.sum sel <= Np.sum (firstn (length sel) sorted)).
    { apply SubsetFacts.top_sum with (rest := rest); [exact Hsorted|].
      rewrite Hsel. symmetry. exact Hperm. }
    lra.
  - apply in_seq in Hk.
    exists (firstn k sorted), (skipn k sorted).
    split; [rewrite firstn_skipn; exact Hperm|].
    assert (Hfl : length (firstn k sorted) = k) by (rewrite length_firstn; lia).
    split; [intros E; rewrite E in Hfl; simpl in Hfl; lia|].
    rewrite Hfl. exact Hv.
Qed.

Lemma penalise_savings_best_subset_witness :
  exists v,
    penalise_savings [[3; 2]] 0 [1; 2] = Ok [v] /\
    (forall sel rest, Permutation (sel ++ rest) [3; 2] -> sel <> [] ->
       Np.sum sel - Np.sum (firstn (length sel) [1; 2]) - 0 <= v) /\
    (exists sel rest, Permutation (sel ++ rest) [3; 2] /\ sel <> [] /\
       v == Np.sum sel - Np.sum (firstn (length sel) [1; 2]) - 0).
Proof.
  apply (@penalise_savings_best_subset [3; 2] 0 [1; 2]).
  - reflexivity.
  - exists 2. split; [simpl; auto|]. simpl. discriminate.
Defined.

Module EqualFacts.
Import Np NpFacts SortFacts ValueFacts SubsetFacts.

Notation "# k" := (inject_Z (Z.of_nat k)) (at level 1, format "# k").

Lemma inject_S (k : nat) : #(S k) == #k + 1.
Proof.
  rewrite Nat2Z.inj_succ. unfold Z.succ. rewrite inject_Z_plus. reflexivity.
Qed.

Lemma sum_map_minus (f : Q -> Q) (c : Q) (l : list Q) :
  sum (map (fun x => f x - c) l) == sum (map f l) - #(length l) * c.
Proof.
  induction l as [|x l IH].
  - cbn [map length]. rewrite sum_nil. change (#0) with 0. lra.
  - cbn [map length]. rewrite !sum_cons, IH, inject_S. lra.
Qed.

Lemma sum_map_nonneg (f : Q -> Q) (l : list Q) :
  (forall x, 0 <= f x) -> 0 <= sum (map f l).
Proof.
  intros Hf. induction l as [|x l IH]; simpl map.
  - rewrite sum_nil. lra.
  - rewrite sum_cons. specialize (Hf x). lra.
Qed.

Lemma sum_map_lower (b0 : Q) (l : list Q) :
  sum l - #(length l) * b0 <= sum (map (fun x => maximum (x - b0) 0) l).
Proof.
  induction l as [|x l IH]; cbn [map length].
  - rewrite !sum_nil. change (#0) with 0. lra.
  - rewrite !sum_cons, inject_S. pose proof (maximum_ge_l (x - b0) 0). lra.
Qed.

Lemma maximum_zero_r (x : Q) : 0 <= maximum x 0.
Proof.
  unfold maximum. destruct (Qle_bool x 0) eqn:E; [lra|].
  apply Qle_bool_false in E. lra.
Qed.

Lemma filter_split (f : Q -> bool) (l : list Q) :
  Permutation (filter f l ++ filter (fun x => negb (f x)) l) l.
Proof.
  induction l as [|x l IH]; simpl; [constructor|].
  destruct (f x); simpl.
  - constructor. exact IH.
  - rewrite <- IH at 3. symmetry. apply Permutation_middle.
Qed.

Lemma sum_positive_parts (b0 : Q) (l : list Q) :
  sum (map (fun x => maximum (x - b0) 0) l)
  == sum (filter (fun x => ltb b0 x) l) - #(length (filter (fun x => ltb b0 x) l)) * b0.
Proof.
  induction l as [|x l IH]; cbn [map filter].
  - cbn [length]. rewrite !sum_nil. change (#0) with 0. lra.
  - rewrite sum_cons, IH. unfold maximum.
    destruct (ltb b0 x) eqn:E.
    + apply ltb_true in E. cbn [length]. rewrite sum_cons, inject_S.
      destruct (Qle_bool (x - b0) 0) eqn:E'; [apply Qle_bool_iff in E'; lra | lra].
    + apply ltb_false in E.
      destruct (Qle_bool (x - b0) 0) eqn:E'; [lra | apply Qle_bool_false in E'; lra].
Qed.

End EqualFacts.

(** X5: when all betas are equal the value of a row, with alpha added back once
    per component, is the best total of (saving - beta) over all subsets of
    its components, the empty one included; the width of the row need not
    match the number of betas. *)
Theorem penalise_savings_equal_betas (row : list Q) (alpha b0 : Q) (betas' : list Q) :
  Forall (fun b => b == b0) betas' ->
  let p := inject_Z (Z.of_nat (length row)) in
  let size := fun sel : list Q => inject_Z (Z.of_nat (length sel)) in
  exists v,
    penalise_savings [row] alpha (b0 :: betas') = Ok [v] /\
    (forall sel rest, Permutation (sel ++ rest) row ->
       Np.sum sel - size sel * b0 <= v + p * alpha) /\
    (exists sel rest, Permutation (sel ++ rest) row /\
       v + p * alpha == Np.sum sel - size sel * b0).
Proof.
  intros Hall p size.
  assert (Hb : forallb (fun b => Qeq_bool b b0) (b0 :: betas') = true).
  { simpl. apply andb_true_iff. split; [apply Qeq_bool_iff; reflexivity|].
    apply forallb_forall. rewrite Forall_forall in Hall.
    intros b Hin. apply Qeq_bool_iff. apply Hall. exact Hin. }
  exists (Np.sum (map (fun s => Np.maximum (s - b0) 0 - alpha) row)).
  split.
  { unfold penalise_savings. change (Np.get (b0 :: betas') 0) with (Ok b0).
    rewrite bind_Ok, Hb. reflexivity. }
  pose proof (@EqualFacts.sum_map_minus (fun s => Np.maximum (s - b0) 0) alpha row) as Hv.
  cbv beta in Hv. fold p in Hv.
  split.
  - intros sel rest Hperm.
    assert (Hsplit : Np.sum (map (fun s => Np.maximum (s - b0) 0) row)
                     == Np.sum (map (fun s => Np.maximum (s - b0) 0) sel)
                        + Np.sum (map (fun s => Np.maximum (s - b0) 0) rest)).
    { rewrite <- ValueFacts.sum_app, <- map_app. apply SubsetFacts.sum_perm.
      apply Permutation_map. symmetry. exact Hperm. }
    pose proof (EqualFacts.sum_map_lower b0 sel) as Hsel.
    pose proof (@EqualFacts.sum_map_nonneg (fun s => Np.maximum (s - b0) 0) rest
                  ltac:(intros; apply EqualFacts.maximum_zero_r)) as Hrest.
    unfold size. lra.
  - exists (filter (fun x => Np.ltb b0 x) row),
           (filter (fun x => negb (Np.ltb b0 x)) row).
    split; [apply EqualFacts.filter_split|].
    pose proof (EqualFacts.sum_positive_parts b0 row) as Hpos.
    unfold size. lra.
Qed.

Lemma penalise_savings_equal_betas_witness :
  exists v,
    penalise_savings [[3; 1; 5]] 1 [2; 2] = Ok [v] /\
    (forall sel rest, Permutation (sel ++ rest) [3; 1; 5] ->
       Np.sum sel - inject_Z (Z.of_nat (length sel)) * 2 <= v + 3 * 1) /\
    (exists sel rest, Permutation (sel ++ rest) [3; 1; 5] /\
       v + 3 * 1 == Np.sum sel - inject_Z (Z.of_nat (length sel)) * 2).
Proof.
  apply (@penalise_savings_equal_betas [3; 1; 5] 1 2 [2]).
  repeat constructor.
Defined.

(** ** Affected-Component Finder *)

Section AffectedComponents.

Variable Params : Type.
Variable saving_row : Params -> Z -> Z -> list Q.
Variable params : Params.

(** The subset reported for one anomaly: the first few indices of the row
    sorted by decreasing saving. *)
Lemma affected_components_of (s e : Z) (alpha : Q) (betas : list Q) :
  betas <> [] -> length (saving_row params s e) = length betas ->
  exists k,
    find_affected_components saving_row params [(s, e)] alpha betas
    = Ok [(s, e, firstn (S k) (Np.argsort (map Qopp (saving_row params s e))))].
Proof.
  intros Hne Hrow. unfold find_affected_components. unfold mapM.
  change (Np.get (saving_func saving_row params [s] [e]) 0)
    with (Ok (A := list Q) (saving_row params s e)).
  rewrite bind_Ok.
  destruct (SortFacts.take_argsort_desc (saving_row params s e)) as (_ & _ & Hlen).
  rewrite SortFacts.broadcast2_same by (rewrite Hlen; exact Hrow).
  rewrite bind_Ok.
  set (pen := map (fun x => x - alpha) _).
  destruct (@NpFacts.argmax_spec pen) as (k & Hk & _).
  { intros E. apply (f_equal (@length Q)) in E. unfold pen, Np.cumsum in E.
    rewrite length_map, SortFacts.length_cumsum_from, length_map, length_combine in E.
    rewrite Hlen, Hrow in E. simpl in E.
    destruct betas; [congruence | simpl in E; lia]. }
  rewrite Hk, !bind_Ok. exists k. rewrite Nat.add_1_r. reflexivity.
Qed.

Lemma find_affected_components_cons (a : Z * Z) (anomalies : list (Z * Z))
    (alpha : Q) (betas : list Q) :
  find_affected_components saving_row params (a :: anomalies) alpha betas
  = (r <- find_affected_components saving_row params [a] alpha betas ;;
     rs <- find_affected_components saving_row params anomalies alpha betas ;;
     Ok (r ++ rs)).
Proof.
  unfold find_affected_components.
  match goal with |- context [mapM ?g _] => set (f := g) end.
  change (mapM f (a :: anomalies)) with (b <- f a ;; bs <- mapM f anomalies ;; Ok (b :: bs)).
  change (mapM f [a]) with (b <- f a ;; bs <- Ok [] ;; Ok (b :: bs)).
  destruct (f a) as [b|err]; [|reflexivity]. rewrite !bind_Ok.
  destruct (mapM f anomalies) as [bs|err]; reflexivity.
Qed.

(** X6: for every anomaly handed to it the finder reports the same interval
    with a non-empty, duplicate-free set of component indices below p, and
    no component left out has a larger saving than a reported one. *)
Theorem affected_components_are_top (anomalies : list (Z * Z)) (alpha : Q) (betas : list Q) :
  betas <> [] ->
  (forall s e, length (saving_row params s e) = length betas) ->
  exists out,
    find_affected_components saving_row params anomalies alpha betas = Ok out /\
    map fst out = anomalies /\
    Forall (fun r =>
              let row := saving_row params (fst (fst r)) (snd (fst r)) in
              let comps := snd r in
              comps <> [] /\ NoDup comps /\
              (forall c, In c comps -> (c < length betas)%nat) /\
              (forall c c', In c comps -> (c' < length betas)%nat -> ~ In c' comps ->
                            nth c' row 0 <= nth c row 0)) out.
Proof.
  intros Hne Hrows. induction anomalies as [|[s e] anomalies IH].
  - exists []. split; [reflexivity|]. split; [reflexivity | constructor].
  - destruct IH as (out & Hout & Hfst & Hall).
    destruct (@affected_components_of s e alpha betas Hne (Hrows s e)) as (k & Hk).
    rewrite find_affected_components_cons, Hk, bind_Ok, Hout, bind_Ok.
    eexists. split; [reflexivity|]. split; [simpl; rewrite Hfst; reflexivity|].
    constructor; [|exact Hall]. cbn [fst snd].
    set (row := saving_row params s e).
    set (order := Np.argsort (map Qopp row)).
    assert (Hlen : length order = length betas).
    { unfold order. rewrite (Permutation_length (SortFacts.argsort_perm _)).
      rewrite length_seq, length_map. apply Hrows. }
    assert (Hin : forall c, In c order <-> (c < length betas)%nat).
    { intros c. unfold order. rewrite SubsetFacts.argsort_in, length_map.
      unfold row. rewrite Hrows. reflexivity. }
    pose proof (firstn_skipn (S k) order) as Hsplit.
    split; [|split; [|split]].
    + destruct order as [|c order']; [|discriminate].
      simpl in Hlen. destruct betas; [congruence | simpl in Hlen; lia].
    + pose proof (SubsetFacts.argsort_nodup (map Qopp row)) as Hnd. fold order in Hnd.
      rewrite <- Hsplit in Hnd. apply NoDup_app_remove_r in Hnd. exact Hnd.
    + intros c Hc. apply Hin. rewrite <- Hsplit. apply in_or_app. left. exact Hc.
    + intros c c' Hc Hc' Hout'.
      assert (Hc'in : In c' (skipn (S k) order)).
      { apply Hin in Hc'. rewrite <- Hsplit in Hc'. apply in_app_or in Hc'. tauto. }
      pose proof (SortFacts.argsort_sorted (map Qopp row)) as Hs. fold order in Hs.
      rewrite <- Hsplit in Hs.
      pose proof (@SubsetFacts.sorted_app _ _ _ _ Hs c c' Hc Hc'in) as Hle. cbv beta in Hle.
      rewrite !SortFacts.nth_map_opp in Hle. lra.
Qed.

End AffectedComponents.

Lemma affected_components_are_top_witness :
  exists out,
    find_affected_components Inputs.saving_a tt [(0, 3)%Z] 10 [0] = Ok out /\
    map fst out = [(0, 3)%Z] /\
    Forall (fun r => snd r <> [] /\ NoDup (snd r)) out.
Proof.
  destruct (@affected_components_are_top unit Inputs.saving_a tt [(0, 3)%Z] 10 [0]
              ltac:(discriminate) ltac:(reflexivity))
    as (out & Hout & Hfst & Hall).
  exists out. split; [exact Hout|]. split; [exact Hfst|].
  eapply Forall_impl; [|exact Hall]. cbv beta zeta. intros r (H1 & H2 & _). auto.
Defined.

(** ** The reconstructor on arbitrary arrays *)

Section WalkAnyArray.

Variable anomaly_starts : list (option Z).

Let n := Z.of_nat (length anomaly_starts).







End WalkAnyArray.

(** ** Edge and error behaviour of the engine *)

Section EngineEdges.

Variable Params : Type.
Variable saving_row : Params -> Z -> Z -> list Q.
Variable saving_init_func : list (list Q) -> Params.



Lemma get_anomalies_unset (m : nat) : get_anomalies (repeat None m) = Ok ([], []).
Proof.
  unfold get_anomalies. rewrite repeat_length.
  assert (H : forall fuel i, (i < Z.of_nat fuel)%Z -> (i < Z.of_nat m)%Z ->
                get_anomalies_loop fuel (repeat None m) i [] [] = Ok ([], [])).
  { induction fuel as [|fuel IH]; intros i Hf Hi; simpl.
    - destruct (Z.ltb_spec i 0); [reflexivity | lia].
    - destruct (Z.ltb_spec i 0); [reflexivity|].
      rewrite DpFacts.get_origin_at by (rewrite repeat_length; lia).
      rewrite bind_Ok, origin_at_unset. apply IH; lia. }
  apply H; lia.
Qed.

(** X9: a frame shorter than min_segment_length: fitting and predicting raise
    a ValueError; the engine itself, called directly, runs no step and
    returns zero savings and no anomalies. *)
Theorem short_frame (np_log np_sqrt : Q -> Q) (chi2_ppf chi2_pdf : Q -> Z -> Q)
    (self : Mvcapa) (fitted : FittedMvcapa) (X : list (list Q))
    (collective_alpha : Q) (collective_betas : list Q)
    (point_alpha : Q) (point_betas : list Q) (max_segment_length' : Z) :
  (Z.of_nat (length X) < min_segment_length self)%Z ->
  estimator fitted = self ->
  is_value_error (fit np_log np_sqrt chi2_ppf chi2_pdf self X) /\
  is_value_error (predict_anomalies saving_row saving_init_func fitted X) /\
  run_mvcapa saving_row saving_init_func X collective_alpha collective_betas
    point_alpha point_betas (min_segment_length self) max_segment_length'
  = Ok (Np.zeros (Z.of_nat (length X)), [], []).
Proof.
  intros Hshort Hself.
  assert (Hcheck : check_capa_input X (min_segment_length self)
                   = Raise (ValueError "X must have at least min_segment_length samples")).
  { unfold check_capa_input, shape0. rewrite (proj2 (Z.ltb_lt _ _) Hshort). reflexivity. }
  split; [|split].
  - unfold fit. rewrite Hcheck. eexists. reflexivity.
  - unfold predict_anomalies. rewrite Hself, Hcheck. eexists. reflexivity.
  - unfold run_mvcapa, run_base_capa, capa_forward.
    rewrite NpFacts.arange_nil by lia. simpl capa_loop. rewrite bind_Ok. cbv beta iota.
    rewrite get_anomalies_unset, !bind_Ok. cbv beta iota.
    unfold find_affected_components. simpl mapM. rewrite !bind_Ok.
    unfold Np.zeros, Np.full.
    replace (Z.to_nat (Z.of_nat (length X) + 1)) with (S (Z.to_nat (Z.of_nat (length X)))) by lia.
    reflexivity.
Qed.

End EngineEdges.


Lemma short_frame_witness :
  let self := {| collective_penalty := PenaltyName "combined";
                 collective_penalty_scale := 2;
                 point_penalty := PenaltyName "sparse";
                 point_penalty_scale := 2;
                 min_segment_length := 5;
                 max_segment_length := 1000;
                 ignore_point_anomalies := false |} in
  is_value_error (fit Inputs.lg Inputs.sq Inputs.ppf Inputs.pdf self (Inputs.frame 4)) /\
  run_mvcapa Inputs.saving_a Inputs.init (Inputs.frame 4) 10 [0] 1 [0] 5 1000
  = Ok (Np.zeros 4, [], []).
Proof.
  intros self.
  destruct (@short_frame unit Inputs.saving_a Inputs.init
              Inputs.lg Inputs.sq Inputs.ppf Inputs.pdf self
              {| estimator := self; collective_alpha_ := 10; collective_betas_ := [0];
                 point_alpha_ := 1; point_betas_ := [0] |}
              (Inputs.frame 4) 10 [0] 1 [0] 1000%Z ltac:(simpl; lia) eq_refl)
    as (Hfit & _ & Hrun).
  split; [exact Hfit | exact Hrun].
Defined.

(** ** The estimator end to end *)

Section Pipeline.

Variable np_log np_sqrt : Q -> Q.
Variable chi2_ppf chi2_pdf : Q -> Z -> Q.
Variable Params : Type.
Variable saving_row : Params -> Z -> Z -> list Q.
Variable saving_init_func : list (list Q) -> Params.

Lemma length_curve (pen : Q * list Q) : length (curve pen) = length (snd pen).
Proof. apply PenaltyFacts.length_penalty_curve. Qed.

Lemma length_min_curve (d s i : Q * list Q) (m : nat) :
  length (snd d) = m -> length (snd s) = m -> length (snd i) = m ->
  length (min_curve d s i) = m.
Proof.
  intros Hd Hs Hi. unfold min_curve.
  assert (Hinner : length (map (fun xy => Np.minimum (fst xy) (snd xy))
                             (combine (curve s) (curve i))) = m).
  { rewrite PenaltyFacts.length_map2; rewrite !length_curve; congruence. }
  rewrite PenaltyFacts.length_map2; rewrite ?Hinner, !length_curve; congruence.
Qed.

(** Every named policy returns one beta per component, for univariate
    frames too, where only the intermediate policy raises. *)
Lemma named_policy_betas (name : string) (n p : Z) (scale : Q) :
  In name policy_names -> (1 <= p)%Z ->
  (2 <= p)%Z \/ name <> "intermediate"%string ->
  exists alpha betas,
    (f <- capa_penalty_factory np_log np_sqrt chi2_ppf chi2_pdf (PenaltyName name) ;;
     f n p 1%Z scale) = Ok (alpha, betas) /\
    length betas = Z.to_nat p.
Proof.
  intros Hin Hp Hint. unfold policy_names in Hin. simpl in Hin.
  destruct Hin as [<-|[<-|[<-|[<-|[]]]]]; simpl.
  - eexists. eexists. split; [reflexivity|]. apply PenaltyFacts.length_full.
  - eexists. eexists. split; [reflexivity|]. apply PenaltyFacts.length_full.
  - destruct Hint as [Hp2|Hne]; [|congruence].
    destruct (intermediate_capa_penalty_ok np_log np_sqrt chi2_ppf chi2_pdf n 1 scale Hp2)
      as (b & Hb & Hlen).
    exists 0, b. split; assumption.
  - destruct (Z_lt_le_dec p 2) as [Hlt|Hge].
    + unfold combined_capa_penalty. rewrite (proj2 (Z.ltb_lt p 2) Hlt).
      eexists. eexists. split; [reflexivity|].
      unfold dense_capa_penalty, Np.zeros. rewrite PenaltyFacts.length_full. lia.
    + destruct (combined_capa_penalty_unfold np_log np_sqrt chi2_ppf chi2_pdf n 1 scale Hge)
        as (ib & _ & Hib & Hb).
      eexists. eexists. split; [exact Hb|].
      rewrite PenaltyFacts.length_diff. apply length_min_curve.
      * apply PenaltyFacts.length_full.
      * apply PenaltyFacts.length_full.
      * exact Hib.
Qed.

(** X10: with valid segment lengths, named policies, a frame of at least
    min_segment_length rows and p >= 1 columns (p >= 2 when a policy is the
    intermediate one) and a saving function returning p values per interval,
    construction, fitting and prediction all return, whatever the two scales;
    the fitted penalties have one beta per column. *)
Theorem fit_predict_returns (c q : string) (cs ps : Q) (mn mx : Z) (ig : bool)
    (X : list (list Q)) :
  (2 <= mn <= mx)%Z -> (mn <= shape0 X)%Z -> (1 <= shape1 X)%Z ->
  In c policy_names -> In q policy_names ->
  (2 <= shape1 X)%Z \/ (c <> "intermediate" /\ q <> "intermediate")%string ->
  (forall s e, length (saving_row (saving_init_func X) s e) = Z.to_nat (shape1 X)) ->
  exists self fitted r,
    Mvcapa_init (PenaltyName c) cs (PenaltyName q) ps mn mx ig = Ok self /\
    fit np_log np_sqrt chi2_ppf chi2_pdf self X = Ok fitted /\
    length (collective_betas_ fitted) = Z.to_nat (shape1 X) /\
    length (point_betas_ fitted) = Z.to_nat (shape1 X) /\
    predict_anomalies saving_row saving_init_func fitted X = Ok r.
Proof.
  intros Hlen Hn Hp Hc Hq Hint Hrows.
  set (self := {| collective_penalty := PenaltyName c; collective_penalty_scale := cs;
                  point_penalty := PenaltyName q; point_penalty_scale := ps;
                  min_segment_length := mn; max_segment_length := mx;
                  ignore_point_anomalies := ig |}).
  assert (Hinit : Mvcapa_init (PenaltyName c) cs (PenaltyName q) ps mn mx ig = Ok self).
  { unfold Mvcapa_init. cbn [min_segment_length max_segment_length].
    destruct (Z.ltb_spec mn 2); [lia|]. destruct (Z.ltb_spec mx mn); [lia|]. reflexivity. }
  destruct (@named_policy_betas c (shape0 X) (shape1 X) cs Hc Hp ltac:(tauto))
    as (ca & cb & Hcp & Hcb).
  destruct (@named_policy_betas q (shape0 X) (shape1 X) ps Hq Hp ltac:(tauto))
    as (pa & pb & Hpp & Hpb).
  assert (Hfit : fit np_log np_sqrt chi2_ppf chi2_pdf self X
                 = Ok {| estimator := self; collective_alpha_ := ca; collective_betas_ := cb;
                         point_alpha_ := pa; point_betas_ := pb |}).
  { rewrite fit_unfold by exact Hn. cbn [collective_penalty point_penalty
      collective_penalty_scale point_penalty_scale self].
    rewrite Hcp, bind_Ok, Hpp, bind_Ok. reflexivity. }
  assert (Hshape : well_shaped saving_row (saving_init_func X) cb pb).
  { split; [|split].
    - intros E. rewrite E in Hcb. simpl in Hcb. lia.
    - intros E. rewrite E in Hpb. simpl in Hpb. lia.
    - intros s e. rewrite Hrows. split; congruence. }
  destruct (@engine_run _ saving_row saving_init_func X ca cb pa pb mn mx Hshape
              ltac:(lia) ltac:(lia) Hn)
    as (opt & origin & coll & pts & coll' & pts' & _ & _ & Hrun & _).
  eexists. eexists. eexists.
  split; [exact Hinit|]. split; [exact Hfit|].
  cbn [collective_betas_ point_betas_]. split; [exact Hcb|]. split; [exact Hpb|].
  unfold predict_anomalies, check_capa_input.
  cbn [estimator min_segment_length max_segment_length self
       collective_alpha_ collective_betas_ point_alpha_ point_betas_].
  rewrite (proj2 (Z.ltb_ge _ _) Hn), bind_Ok. exact Hrun.
Qed.

End Pipeline.

Lemma constant_saving_width (X : list (list Q)) (s e : Z) :
  length ((fun (_ : unit) (_ _ : Z) => [1; 0]) (Inputs.init X) s e) = 2%nat.
Proof. reflexivity. Qed.

Lemma fit_predict_returns_witness :
  exists self fitted r,
    Mvcapa_init (PenaltyName "combined") 0 (PenaltyName "sparse") (-1) 2 1000 false = Ok self /\
    fit Inputs.lg Inputs.sq Inputs.ppf Inputs.pdf self (repeat [0; 0] 4) = Ok fitted /\
    predict_anomalies (fun (_ : unit) (_ _ : Z) => [1; 0]) Inputs.init fitted (repeat [0; 0] 4)
    = Ok r.
Proof.
  destruct (@fit_predict_returns Inputs.lg Inputs.sq Inputs.ppf Inputs.pdf unit
              (fun (_ : unit) (_ _ : Z) => [1; 0]) Inputs.init
              "combined" "sparse" 0 (-1) 2%Z 1000%Z false (repeat [0; 0] 4)
              ltac:(lia) ltac:(unfold shape0; simpl; lia) ltac:(unfold shape1; simpl; lia)
              ltac:(simpl; tauto) ltac:(simpl; tauto) ltac:(left; unfold shape1; simpl; lia)
              (constant_saving_width (repeat [0; 0] 4)))
    as (self & fitted & r & H1 & H2 & _ & _ & H3).
  exists self, fitted, r. auto.
Defined.

(** ** Penalty policies *)

Module PolicyFacts.
Import Np NpFacts SortFacts PenaltyFacts.

Lemma get_last_value (a : list Q) :
  a <> [] -> get a (-1) = Ok (nth (length a - 1) a 0).
Proof.
  intros Hne. unfold get. change (-1 <? 0)%Z with true. cbv iota.
  assert (Hlen : (0 < length a)%nat) by (destruct a; simpl; [congruence | lia]).
  replace ((0 <=? -1 + Z.of_nat (length a)) && (-1 + Z.of_nat (length a) <? Z.of_nat (length a)))%Z
    with true
    by (symmetry; apply andb_true_iff; split; [apply Z.leb_le | apply Z.ltb_lt]; lia).
  replace (Z.to_nat (-1 + Z.of_nat (length a))) with (length a - 1)%nat by lia.
  destruct (nth_error a (length a - 1)) as [v|] eqn:E.
  - f_equal. symmetry. apply nth_error_nth. exact E.
  - apply nth_error_None in E. lia.
Qed.

Section Scaling.

Variable s : Q.
Let R (a b : Q) : Prop := a == s * b.

Lemma scaled_repeat (x y : Q) (m : nat) : R x y -> Forall2 R (repeat x m) (repeat y m).
Proof. intros H. induction m; simpl; constructor; auto. Qed.

Lemma scaled_map (f g : Z -> Q) (l : list Z) :
  (forall j, R (f j) (g j)) -> Forall2 R (map f l) (map g l).
Proof. intros H. induction l; simpl; constructor; auto. Qed.

Lemma scaled_app (A B C D : list Q) :
  Forall2 R A B -> Forall2 R C D -> Forall2 R (A ++ C) (B ++ D).
Proof. intros H1 H2. apply Forall2_app; assumption. Qed.

Lemma scaled_nth (A B : list Q) (k : nat) : Forall2 R A B -> R (nth k A 0) (nth k B 0).
Proof.
  intros H. revert k. induction H as [|a b A B Hab _ IH]; intros k.
  - destruct k; simpl; unfold R; lra.
  - destruct k; simpl; [exact Hab | apply IH].
Qed.

Lemma scaled_diff (A B : list Q) : Forall2 R A B -> Forall2 R (diff A) (diff B).
Proof.
  induction 1 as [|a b A B Hab H IH]; [constructor|].
  destruct H as [|a' b' A' B' Hab' H']; [constructor|].
  change (Forall2 R ((a' - a) :: diff (a' :: A')) ((b' - b) :: diff (b' :: B'))).
  constructor; [unfold R in *; lra | exact IH].
Qed.

Lemma scaled_cumsum_from (A B : list Q) :
  Forall2 R A B -> forall acc acc', R acc acc' ->
  Forall2 R (cumsum_from acc A) (cumsum_from acc' B).
Proof.
  induction 1 as [|a b A B Hab _ IH]; intros acc acc' Hacc; simpl; constructor.
  - unfold R in *. lra.
  - apply IH. unfold R in *. lra.
Qed.

Lemma scaled_curve (pen base : Q * list Q) :
  scaled_from s pen base -> Forall2 R (curve pen) (curve base).
Proof.
  intros (Ha & Hb). unfold curve, cumsum.
  assert (H : Forall2 R (cumsum_from 0 (snd pen)) (cumsum_from 0 (snd base)))
    by (apply scaled_cumsum_from; [exact Hb | unfold R; lra]).
  induction H as [|x y A B Hxy _ IH]; simpl; constructor; [|exact IH].
  unfold R in *. lra.
Qed.

Lemma scaled_minimum (a b a' b' : Q) :
  0 <= s -> R a a' -> R b b' -> R (minimum a b) (minimum a' b').
Proof.
  intros Hs Ha Hb. unfold R, minimum in *.
  assert (Hmono : a' <= b' -> a <= b)
    by (intros H; pose proof (Qmult_le_compat_r _ _ s H Hs); lra).
  assert (Hmono' : b' < a' -> b <= a)
    by (intros H; pose proof (@Qmult_le_compat_r b' a' s ltac:(lra) Hs); lra).
  destruct (Qle_bool a b) eqn:E; destruct (Qle_bool a' b') eqn:E';
    try apply Qle_bool_iff in E; try apply Qle_bool_iff in E';
    try apply Qle_bool_false in E; try apply Qle_bool_false in E'; auto.
  - specialize (Hmono' E'). lra.
  - specialize (Hmono E'). lra.
Qed.

Lemma scaled_map2_minimum (A B C D : list Q) :
  0 <= s -> Forall2 R A B -> Forall2 R C D ->
  Forall2 R (map (fun xy => minimum (fst xy) (snd xy)) (combine A C))
            (map (fun xy => minimum (fst xy) (snd xy)) (combine B D)).
Proof.
  intros Hs H. revert C D. induction H as [|a b A B Hab _ IH]; intros C D HCD.
  - constructor.
  - destruct HCD as [|c d C D Hcd HCD]; simpl; constructor.
    + apply scaled_minimum; assumption.
    + apply IH. exact HCD.
Qed.

End Scaling.

End PolicyFacts.

Section PolicyTheorems.
Import PolicyFacts.

Variable np_log np_sqrt : Q -> Q.
Variable chi2_ppf chi2_pdf : Q -> Z -> Q.

Let dense := dense_capa_penalty np_log np_sqrt.
Let sparse := sparse_capa_penalty np_log.
Let intermediate := intermediate_capa_penalty np_log np_sqrt chi2_ppf chi2_pdf.
Let combined := combined_capa_penalty np_log np_sqrt chi2_ppf chi2_pdf.
Let curve_point := penalty_func np_log np_sqrt chi2_ppf chi2_pdf.

Lemma intermediate_value (n p n_params : Z) (scale : Q) :
  (2 <= p)%Z ->
  let penalties := map (curve_point n p n_params scale) (Np.arange 1 p) in
  intermediate n p n_params scale
  = Ok (0, Np.diff (0 :: penalties ++ [nth (length penalties - 1) penalties 0])) /\
  length penalties = Z.to_nat (p - 1).
Proof.
  intros Hp penalties.
  assert (Hlen : length penalties = Z.to_nat (p - 1)).
  { unfold penalties. rewrite length_map, NpFacts.length_arange. reflexivity. }
  split; [|exact Hlen].
  unfold intermediate, intermediate_capa_penalty.
  destruct (p <? 2)%Z eqn:E; [apply Z.ltb_lt in E; lia|].
  fold curve_point. fold penalties.
  rewrite get_last_value by (intros E'; rewrite E' in Hlen; simpl in Hlen; lia).
  rewrite bind_Ok. reflexivity.
Qed.

(** X11: the betas of the intermediate policy are the differences of its
    penalty curve: for p >= 2 there are p of them, the first k sum to
    the curve at k for k = 1..p-1, and the last one is zero. *)
Theorem intermediate_betas_sum_to_curve (n p n_params : Z) (scale : Q) :
  (2 <= p)%Z ->
  exists betas,
    intermediate n p n_params scale = Ok (0, betas) /\
    length betas = Z.to_nat p /\
    (forall k, (1 <= k <= Z.to_nat p - 1)%nat ->
       cumulative_penalty (0, betas) k == curve_point n p n_params scale (Z.of_nat k)) /\
    nth (Z.to_nat p - 1) betas 0 == 0.
Proof.
  intros Hp. destruct (intermediate_value n n_params scale Hp) as (Hval & Hlen).
  cbv zeta in Hval, Hlen.
  set (penalties := map (curve_point n p n_params scale) (Np.arange 1 p)) in *.
  set (last := nth (length penalties - 1) penalties 0) in *.
  assert (HL : length (penalties ++ [last]) = Z.to_nat p)
    by (rewrite length_app, Hlen; simpl; lia).
  eexists. split; [exact Hval|].
  split; [rewrite PenaltyFacts.length_diff; exact HL|]. split.
  - intros k Hk. unfold cumulative_penalty. cbn [fst snd].
    rewrite PenaltyFacts.sum_firstn_diff by lia.
    destruct k as [|j]; [lia|].
    change (nth (S j) (0 :: penalties ++ [last]) 0) with (nth j (penalties ++ [last]) 0).
    rewrite app_nth1 by lia. unfold penalties.
    rewrite DpFacts.nth_map_arange by lia.
    replace (1 + Z.of_nat j)%Z with (Z.of_nat (S j)) by lia.
    ring.
  - rewrite ValueFacts.nth_diff by lia.
    replace (Z.to_nat p - 1)%nat with (S (length penalties - 1)) by lia.
    change (nth (S (length penalties - 1)) (0 :: penalties ++ [last]) 0)
      with (nth (length penalties - 1) (penalties ++ [last]) 0).
    rewrite (@app_nth2 _ penalties [last] 0 (S (length penalties - 1))) by lia.
    rewrite (@app_nth1 _ penalties [last] 0 (length penalties - 1)) by lia.
    replace (S (length penalties - 1) - length penalties)%nat with 0%nat by lia.
    fold last. simpl. ring.
Qed.

Lemma dense_scaled (n p n_params : Z) (scale : Q) :
  scaled_from scale (dense n p n_params scale) (dense n p n_params 1).
Proof.
  unfold dense, dense_capa_penalty. split; cbn [fst snd]; [lra|].
  apply scaled_repeat. lra.
Qed.

Lemma sparse_scaled (n p n_params : Z) (scale : Q) :
  scaled_from scale (sparse n p n_params scale) (sparse n p n_params 1).
Proof.
  unfold sparse, sparse_capa_penalty. split; cbn [fst snd]; [lra|].
  apply scaled_repeat. lra.
Qed.

Lemma intermediate_scaled (n p n_params : Z) (scale : Q) :
  (2 <= p)%Z ->
  exists pen base,
    intermediate n p n_params scale = Ok pen /\
    intermediate n p n_params 1 = Ok base /\
    scaled_from scale pen base.
Proof.
  intros Hp.
  destruct (intermediate_value n n_params scale Hp) as (Hs & Hls).
  destruct (intermediate_value n n_params 1 Hp) as (H1 & Hl1).
  cbv zeta in *. eexists. eexists. split; [exact Hs|]. split; [exact H1|].
  assert (Hpen : Forall2 (fun a b => a == scale * b)
                   (map (curve_point n p n_params scale) (Np.arange 1 p))
                   (map (curve_point n p n_params 1) (Np.arange 1 p))).
  { apply scaled_map. intros j. unfold curve_point, penalty_func. lra. }
  split; cbn [fst snd]; [lra|].
  apply scaled_diff. constructor; [lra|].
  apply scaled_app; [exact Hpen|]. constructor; [|constructor].
  rewrite Hls, Hl1. apply scaled_nth. exact Hpen.
Qed.

Lemma combined_scaled (n p n_params : Z) (scale : Q) :
  0 <= scale ->
  exists pen base,
    combined n p n_params scale = Ok pen /\
    combined n p n_params 1 = Ok base /\
    scaled_from scale pen base.
Proof.
  intros Hs. destruct (Z_lt_le_dec p 2) as [Hlt|Hge].
  - unfold combined, combined_capa_penalty. rewrite (proj2 (Z.ltb_lt p 2) Hlt).
    eexists. eexists. split; [reflexivity|]. split; [reflexivity|]. apply dense_scaled.
  - destruct (combined_capa_penalty_unfold np_log np_sqrt chi2_ppf chi2_pdf n n_params scale Hge)
      as (ibs & His & _ & Hcs).
    destruct (combined_capa_penalty_unfold np_log np_sqrt chi2_ppf chi2_pdf n n_params 1 Hge)
      as (ib1 & Hi1 & _ & Hc1).
    destruct (intermediate_scaled n n_params scale Hge) as (pen & base & Hp & Hb & Hsc).
    unfold intermediate in Hp, Hb. rewrite His in Hp. rewrite Hi1 in Hb.
    injection Hp as <-. injection Hb as <-.
    eexists. eexists. split; [exact Hcs|]. split; [exact Hc1|].
    split; cbn [fst snd]; [lra|].
    apply scaled_diff. constructor; [lra|]. unfold min_curve.
    apply scaled_map2_minimum; [exact Hs | apply scaled_curve; apply dense_scaled |].
    apply scaled_map2_minimum; [exact Hs | apply scaled_curve; apply sparse_scaled |].
    apply scaled_curve. exact Hsc.
Qed.

(** X12: every named policy is linear in its scale: the penalty at scale s is
    the penalty at scale 1 with alpha and every beta multiplied by s (for
    the combined policy, for s >= 0). *)
Theorem named_policies_linear_in_scale (n p n_params : Z) (scale : Q) :
  scaled_from scale (dense n p n_params scale) (dense n p n_params 1) /\
  scaled_from scale (sparse n p n_params scale) (sparse n p n_params 1) /\
  ((2 <= p)%Z ->
   exists pen base,
     intermediate n p n_params scale = Ok pen /\
     intermediate n p n_params 1 = Ok base /\ scaled_from scale pen base) /\
  (0 <= scale ->
   exists pen base,
     combined n p n_params scale = Ok pen /\
     combined n p n_params 1 = Ok base /\ scaled_from scale pen base).
Proof.
  split; [apply dense_scaled|]. split; [apply sparse_scaled|].
  split; [apply intermediate_scaled | apply combined_scaled].
Qed.

End PolicyTheorems.

Lemma intermediate_betas_sum_to_curve_witness :
  exists betas,
    intermediate_capa_penalty Inputs.lg Inputs.sq Inputs.ppf Inputs.pdf 10 3 1 2
    = Ok (0, betas) /\
    length betas = 3%nat /\ nth 2 betas 0 == 0.
Proof.
  destruct (@intermediate_betas_sum_to_curve Inputs.lg Inputs.sq Inputs.ppf Inputs.pdf
              10 3 1 2 ltac:(lia))
    as (betas & H1 & H2 & _ & H3).
  exists betas. split; [exact H1|]. split; [exact H2 | exact H3].
Defined.

Lemma named_policies_linear_in_scale_witness :
  exists pen base,
    combined_capa_penalty Inputs.lg Inputs.sq Inputs.ppf Inputs.pdf 10 3 1 2 = Ok pen /\
    combined_capa_penalty Inputs.lg Inputs.sq Inputs.ppf Inputs.pdf 10 3 1 1 = Ok base /\
    scaled_from 2 pen base.
Proof.
  destruct (@named_policies_linear_in_scale Inputs.lg Inputs.sq Inputs.ppf Inputs.pdf
              10 3 1 2) as (_ & _ & _ & H).
  apply H. discriminate.
Defined.

(** ** Changepoint labels *)

Module LabelFacts.
Import ChangeUtils.

Lemma length_slice_fill (a : list Q) (lo hi : Z) (v : Q) :
  length (slice_fill a lo hi v) = length a.
Proof.
  unfold slice_fill. rewrite length_map, length_combine, length_seq. lia.
Qed.

Lemma nth_slice_fill (a : list Q) (lo hi : Z) (v : Q) (j : nat) :
  (j < length a)%nat -> (0 <= lo)%Z -> (0 <= hi)%Z ->
  nth j (slice_fill a lo hi v) 0
  = if ((lo <=? Z.of_nat j) && (Z.of_nat j <? hi))%Z then v else nth j a 0.
Proof.
  intros Hj Hlo Hhi. unfold slice_fill.
  set (f := fun jx : nat * Q => _).
  rewrite nth_indep with (d' := f (0%nat, 0))
    by (rewrite length_map, length_combine, length_seq; lia).
  rewrite map_nth. rewrite combine_nth by (rewrite length_seq; reflexivity).
  rewrite seq_nth by exact Hj. unfold f. cbn [fst snd]. simpl (0 + j)%nat.
  unfold slice_bound.
  destruct (Z.ltb_spec lo 0); [lia|]. destruct (Z.ltb_spec hi 0); [lia|].
  assert (Hjn : (Z.of_nat j < Z.of_nat (length a))%Z) by lia.
  destruct (Z.leb_spec lo (Z.of_nat j)); destruct (Z.ltb_spec (Z.of_nat j) hi);
    destruct (Z.leb_spec (Z.min lo (Z.of_nat (length a))) (Z.of_nat j));
    destruct (Z.ltb_spec (Z.of_nat j) (Z.min hi (Z.of_nat (length a))));
    simpl; try reflexivity; lia.
Qed.

Lemma last_nonempty (l : list Z) (d d' : Z) :
  l <> [] -> last l d = last l d'.
Proof.
  induction l as [|x l IH]; intros Hne; [congruence|].
  destruct l as [|y l]; [reflexivity|].
  change (last (y :: l) d = last (y :: l) d'). apply IH. discriminate.
Qed.

Lemma fold_fill_segments (rest pre : list Z) (prev : Z) (labels : list Q) :
  fold_left
    (fun labels i =>
       slice_fill labels (nth i (pre ++ prev :: rest) 0 + 1)%Z
         (nth (i + 1) (pre ++ prev :: rest) 0 + 1)%Z (inject_Z (Z.of_nat i)))
    (seq (length pre) (length rest)) labels
  = ChangeUtils.fill_segments (length pre) prev rest labels.
Proof.
  revert pre prev labels. induction rest as [|c rest IH]; intros pre prev labels.
  - reflexivity.
  - simpl seq. simpl fold_left. simpl fill_segments.
    rewrite app_nth2 by lia. rewrite Nat.sub_diag. simpl (nth 0 _ _).
    rewrite app_nth2 by lia.
    replace (length pre + 1 - length pre)%nat with 1%nat by lia. simpl (nth 1 _ _).
    specialize (IH (pre ++ [prev]) c).
    rewrite <- app_assoc in IH. simpl app in IH.
    rewrite length_app in IH. simpl length in IH.
    replace (length pre + 1)%nat with (S (length pre)) in IH by lia.
    apply IH.
Qed.

Lemma length_fill_segments (rest : list Z) (i : nat) (prev : Z) (labels : list Q) :
  length (fill_segments i prev rest labels) = length labels.
Proof.
  revert i prev labels. induction rest as [|c rest IH]; intros i prev labels; simpl.
  - reflexivity.
  - rewrite IH. apply length_slice_fill.
Qed.

Lemma nth_fill_segments (rest : list Z) :
  forall (i : nat) (prev : Z) (labels : list Q) (j : nat),
    StronglySorted Z.le (prev :: rest) -> (-1 <= prev)%Z ->
    (j < length labels)%nat ->
    (Z.of_nat j <= last rest prev)%Z ->
    nth j (fill_segments i prev rest labels) 0
    = if (Z.of_nat j <=? prev)%Z then nth j labels 0
      else inject_Z (Z.of_nat (i + changepoints_before rest (Z.of_nat j))).
Proof.
  induction rest as [|c rest IH]; intros i prev labels j Hs Hprev Hj Hlast.
  - simpl in *. destruct (Z.leb_spec (Z.of_nat j) prev); [reflexivity | lia].
  - simpl fill_segments.
    apply StronglySorted_inv in Hs. destruct Hs as (Hs & Hall).
    assert (Hpc : (prev <= c)%Z) by (apply Forall_inv in Hall; exact Hall).
    assert (Hlast' : (Z.of_nat j <= last rest c)%Z).
    { destruct rest as [|z rest']; [exact Hlast|].
      rewrite (@last_nonempty (z :: rest') c prev) by discriminate.
      exact Hlast. }
    rewrite IH; [| exact Hs | lia | rewrite length_slice_fill; exact Hj | exact Hlast'].
    rewrite nth_slice_fill by (try exact Hj; lia).
    unfold changepoints_before. simpl filter.
    destruct (Z.leb_spec (Z.of_nat j) c) as [Hjc|Hjc].
    + destruct (Z.ltb_spec c (Z.of_nat j)); [lia|].
      destruct (Z.leb_spec (Z.of_nat j) prev) as [Hjp|Hjp].
      * destruct (Z.leb_spec (prev + 1) (Z.of_nat j)); [lia|]. reflexivity.
      * destruct (Z.leb_spec (prev + 1) (Z.of_nat j)); [|lia].
        destruct (Z.ltb_spec (Z.of_nat j) (c + 1)); [|lia]. simpl andb. cbv iota.
        (* nothing in the sorted rest lies before j *)
        assert (Hnone : filter (fun c0 => (c0 <? Z.of_nat j)%Z) rest = []).
        { apply StronglySorted_inv in Hs. destruct Hs as (_ & Hc).
          clear - Hc Hjc. induction rest as [|d rest IHr]; [reflexivity|].
          apply Forall_cons_iff in Hc. destruct Hc as (Hd & Hc). simpl.
          destruct (Z.ltb_spec d (Z.of_nat j)); [lia|]. apply IHr. exact Hc. }
        rewrite Hnone. simpl length. rewrite Nat.add_0_r. reflexivity.
    + destruct (Z.ltb_spec c (Z.of_nat j)); [|lia].
      destruct (Z.leb_spec (Z.of_nat j) prev); [lia|].
      simpl length. do 2 f_equal. lia.
Qed.

End LabelFacts.

(** X13: for changepoints in ascending order within [0, n), each position j of
    the n labels holds the number of changepoints before j: 0 over the first
    segment, 1 over the second, and so on. *)
Theorem changepoints_to_labels_counts (changepoints : list Z) (n : Z) :
  (0 <= n)%Z ->
  StronglySorted Z.le changepoints ->
  Forall (fun c => (0 <= c < n)%Z) changepoints ->
  exists labels,
    ChangeUtils.changepoints_to_labels changepoints n = Ok labels /\
    Z.of_nat (length labels) = n /\
    forall j, (j < length labels)%nat ->
      nth j labels 0
      = inject_Z (Z.of_nat (ChangeUtils.changepoints_before changepoints (Z.of_nat j))).
Proof.
  intros Hn Hs Hall. unfold ChangeUtils.changepoints_to_labels.
  destruct (Z.ltb_spec n 0); [lia|].
  eexists. split; [reflexivity|].
  change ([-1] ++ changepoints ++ [n - 1])%Z
    with ([] ++ (-1)%Z :: (changepoints ++ [(n - 1)%Z])).
  replace (length ([] ++ (-1)%Z :: (changepoints ++ [(n - 1)%Z])) - 1)%nat
    with (length (changepoints ++ [(n - 1)%Z]))
    by (simpl; lia).
  rewrite (@LabelFacts.fold_fill_segments (changepoints ++ [(n - 1)%Z]) [] (-1)).
  assert (Hlen : length (Np.zeros n) = Z.to_nat n) by apply PenaltyFacts.length_full.
  split; [rewrite LabelFacts.length_fill_segments, Hlen; lia|].
  intros j Hj. rewrite LabelFacts.length_fill_segments, Hlen in Hj.
  rewrite LabelFacts.nth_fill_segments.
  - destruct (Z.leb_spec (Z.of_nat j) (-1)); [lia|]. simpl length.
    unfold ChangeUtils.changepoints_before. rewrite filter_app. simpl filter.
    destruct (Z.ltb_spec (n - 1) (Z.of_nat j)); [lia|]. rewrite app_nil_r. reflexivity.
  - constructor.
    + clear - Hs Hall. induction Hs as [|c l Hs IH Hc]; simpl.
      * repeat constructor.
      * apply Forall_cons_iff in Hall. destruct Hall as (Hcn & Hall).
        constructor; [apply IH; exact Hall|].
        apply Forall_app. split; [exact Hc|]. constructor; [lia | constructor].
    + apply Forall_app. split.
      * eapply Forall_impl; [|exact Hall]. intros c Hc. cbv beta in Hc. lia.
      * constructor; [lia | constructor].
  - lia.
  - rewrite Hlen. exact Hj.
  - rewrite last_last. lia.
Qed.

Lemma changepoints_to_labels_counts_witness :
  exists labels,
    ChangeUtils.changepoints_to_labels [1; 3]%Z 6 = Ok labels /\
    Z.of_nat (length labels) = 6%Z /\
    forall j, (j < length labels)%nat ->
      nth j labels 0
      = inject_Z (Z.of_nat (ChangeUtils.changepoints_before [1; 3]%Z (Z.of_nat j))).
Proof.
  apply (@changepoints_to_labels_counts [1; 3]%Z 6%Z).
  - lia.
  - repeat constructor; lia.
  - repeat constructor; lia.
Defined.

(** ** Greedy changepoint selection *)

Module GreedyFacts.
Import BinSeg.

Lemma int_inject (z : Z) : int_ (inject_Z z) = z.
Proof. unfold int_, inject_Z. simpl. apply Z.quot_1_r. Qed.

Lemma insert_sorted_perm (x : Z) (l : list Z) : Permutation (x :: l) (insert_sorted x l).
Proof.
  induction l as [|y l IH]; simpl; [reflexivity|].
  destruct (x <=? y)%Z; [reflexivity|].
  rewrite perm_swap. constructor. exact IH.
Qed.

Lemma sort_ints_perm (l : list Z) : Permutation l (sort_ints l).
Proof.
  induction l as [|x l IH]; simpl; [constructor|].
  rewrite <- insert_sorted_perm. constructor. exact IH.
Qed.

Lemma insert_sorted_sorted (x : Z) (l : list Z) :
  StronglySorted Z.le l -> StronglySorted Z.le (insert_sorted x l).
Proof.
  induction l as [|y l IH]; intros Hs; simpl.
  - repeat constructor.
  - apply StronglySorted_inv in Hs. destruct Hs as (Hs & Hall).
    destruct (Z.leb_spec x y) as [Hxy|Hxy].
    + constructor; [constructor; assumption|].
      constructor; [exact Hxy|]. eapply Forall_impl; [|exact Hall].
      intros z Hz. cbv beta in Hz. lia.
    + constructor; [apply IH; exact Hs|].
      rewrite <- insert_sorted_perm. constructor; [lia | exact Hall].
Qed.

Lemma sort_ints_sorted (l : list Z) : StronglySorted Z.le (sort_ints l).
Proof.
  induction l as [|x l IH]; simpl; [constructor|].
  apply insert_sorted_sorted. exact IH.
Qed.

Lemma in_mask_inside (starts ends : list Z) (m : Q) (i : nat) :
  in_mask starts ends m i = true <-> inside starts ends i m.
Proof.
  unfold in_mask, inside. rewrite andb_true_iff, Qle_bool_iff, NpFacts.ltb_true.
  reflexivity.
Qed.

Lemma length_zeroed (starts ends : list Z) (cpt : Q) (scores : list Q) :
  length (zeroed starts ends cpt scores) = length scores.
Proof. unfold zeroed. rewrite length_map, length_seq. reflexivity. Qed.

Lemma nth_zeroed (starts ends : list Z) (cpt : Q) (scores : list Q) (i : nat) :
  (i < length scores)%nat ->
  nth i (zeroed starts ends cpt scores) 0
  = if in_mask starts ends cpt i then 0 else nth i scores 0.
Proof.
  intros Hi. unfold zeroed.
  set (f := fun i => if in_mask starts ends cpt i then 0 else nth i scores 0).
  rewrite nth_indep with (d' := f 0%nat)
    by (rewrite length_map, length_seq; exact Hi).
  rewrite map_nth, seq_nth by exact Hi. reflexivity.
Qed.

(** One masked assignment of the loop, on arrays of one length. *)
Lemma masked_step (starts ends : list Z) (cpt : Q) (scores : list Q) :
  length starts = length scores -> length ends = length scores ->
  (mask <- interval_mask cpt starts ends ;; assign_masked scores mask 0)
  = Ok (zeroed starts ends cpt scores).
Proof.
  intros Hs He. unfold interval_mask.
  rewrite !length_map, Hs, He, Nat.eqb_refl, bind_Ok.
  unfold assign_masked.
  rewrite length_map, length_combine, !length_map, Hs, He, Nat.min_id, Nat.eqb_refl.
  f_equal. apply nth_ext with (d := 0) (d' := 0).
  - rewrite length_zeroed, length_map, length_combine, length_map, length_combine,
      !length_map. lia.
  - intros i Hi.
    rewrite length_map, length_combine, length_map, length_combine, !length_map in Hi.
    assert (Hi' : (i < length scores)%nat) by lia.
    rewrite nth_zeroed by exact Hi'.
    set (f := fun sm : Q * bool => if snd sm then 0 else fst sm).
    rewrite nth_indep with (d' := f (0, false))
      by (rewrite length_map, length_combine, length_map, length_combine, !length_map; lia).
    rewrite map_nth, combine_nth
      by (rewrite length_map, length_combine, !length_map; lia).
    unfold f. cbn [fst snd].
    set (g := fun xy : bool * bool => fst xy && snd xy).
    change false with (g (false, false)).
    rewrite map_nth, combine_nth by (rewrite !length_map; lia).
    unfold g. cbn [fst snd].
    set (h := fun s => Qle_bool (inject_Z s) cpt).
    set (h' := fun e => Np.ltb cpt (inject_Z e)).
    rewrite nth_indep with (d' := h 0%Z) by (rewrite length_map; lia).
    rewrite map_nth.
    rewrite nth_indep with (l := map h' ends) (d' := h' 0%Z) by (rewrite length_map; lia).
    rewrite map_nth. reflexivity.
Qed.

Lemma count_above_le (threshold : Q) (l l' : list Q) :
  length l = length l' ->
  (forall i, (i < length l)%nat -> threshold < nth i l' 0 -> threshold < nth i l 0) ->
  (count_above threshold l' <= count_above threshold l)%nat.
Proof.
  revert l'. induction l as [|x l IH]; intros [|x' l'] Hlen H; simpl in Hlen; try discriminate.
  - apply Nat.le_refl.
  - unfold count_above in *. simpl filter.
    assert (Hrec : (length (filter (fun s => Np.ltb threshold s) l')
                    <= length (filter (fun s => Np.ltb threshold s) l))%nat).
    { apply IH; [lia|]. intros i Hi. apply (H (S i)). simpl. lia. }
    destruct (Np.ltb threshold x') eqn:E'.
    + apply NpFacts.ltb_true in E'. apply (H 0%nat) in E'; [|simpl; lia].
      apply NpFacts.ltb_true in E'. simpl in E'. rewrite E'. simpl. lia.
    + destruct (Np.ltb threshold x); simpl; lia.
Qed.

Lemma count_above_lt (threshold : Q) (l l' : list Q) (a : nat) :
  length l = length l' ->
  (forall i, (i < length l)%nat -> threshold < nth i l' 0 -> threshold < nth i l 0) ->
  (a < length l)%nat -> threshold < nth a l 0 -> nth a l' 0 <= threshold ->
  (count_above threshold l' < count_above threshold l)%nat.
Proof.
  revert l' a. induction l as [|x l IH]; intros [|x' l'] a Hlen H Ha Hal Hal';
    simpl in Hlen, Ha; try discriminate; [lia|].
  assert (Htl : forall i, (i < length l)%nat ->
                  threshold < nth i l' 0 -> threshold < nth i l 0).
  { intros i Hi. apply (H (S i)). simpl. lia. }
  unfold count_above in *. simpl filter.
  destruct a as [|a].
  - simpl in Hal, Hal'.
    apply NpFacts.ltb_true in Hal. apply NpFacts.ltb_false in Hal'.
    rewrite Hal, Hal'. simpl.
    pose proof (@count_above_le threshold l l' ltac:(lia) Htl) as Hle.
    unfold count_above in Hle. lia.
  - simpl in Hal, Hal'.
    pose proof (@IH l' a ltac:(lia) Htl ltac:(lia) Hal Hal') as Hlt.
    destruct (Np.ltb threshold x') eqn:E'.
    + apply NpFacts.ltb_true in E'. apply (H 0%nat) in E'; [|simpl; lia].
      apply NpFacts.ltb_true in E'. simpl in E'. rewrite E'. simpl. lia.
    + destruct (Np.ltb threshold x); simpl; lia.
Qed.

Lemma existsb_above (threshold : Q) (scores : list Q) :
  existsb (fun s => Np.ltb threshold s) scores = true <->
  exists i, above threshold scores i.
Proof.
  rewrite existsb_exists. split.
  - intros (s & Hin & Hs). apply NpFacts.ltb_true in Hs.
    destruct (In_nth _ _ 0 Hin) as (i & Hi & Hn).
    exists i. split; [exact Hi|]. rewrite Hn. exact Hs.
  - intros (i & Hi & Hs). exists (nth i scores 0).
    split; [apply nth_In; exact Hi | apply NpFacts.ltb_true; exact Hs].
Qed.

Lemma count_above_zero (threshold : Q) (scores : list Q) :
  count_above threshold scores = 0%nat -> forall i, ~ above threshold scores i.
Proof.
  intros Hc i Hi.
  assert (He : existsb (fun s => Np.ltb threshold s) scores = true)
    by (apply existsb_above; exists i; exact Hi).
  apply existsb_exists in He. destruct He as (s & Hin & Hs).
  unfold count_above in Hc. apply length_zero_iff_nil in Hc.
  assert (Hf : In s (filter (fun s => Np.ltb threshold s) scores))
    by (apply filter_In; split; assumption).
  rewrite Hc in Hf. destruct Hf.
Qed.

Section Loop.

Variables (scores0 maximizers : list Q) (starts ends : list Z) (threshold : Q).

Hypothesis Hlm : length maximizers = length scores0.
Hypothesis Hls : length starts = length scores0.
Hypothesis Hle : length ends = length scores0.
Hypothesis Hthr : 0 <= threshold.
Hypothesis Hown : forall i, above threshold scores0 i ->
                    inside starts ends i (nth i maximizers 0).

Let cp (j : nat) : Z := int_ (nth j maximizers 0).

Lemma greedy_loop_trace (fuel : nat) :
  forall (scores : list Q) (pre : list nat),
    length scores = length scores0 ->
    (count_above threshold scores <= fuel)%nat ->
    (forall i, above threshold scores i ->
       above threshold scores0 i /\ nth i scores 0 = nth i scores0 0 /\
       uncovered maximizers starts ends pre i) ->
    (forall i, above threshold scores0 i ->
       above threshold scores i \/
       exists k, In k pre /\ inside starts ends i (nth k maximizers 0)) ->
    exists sel,
      greedy_loop fuel scores maximizers starts ends threshold (map cp pre)
      = Ok (map cp (pre ++ sel)) /\
      greedy_trace scores0 maximizers starts ends threshold pre sel /\
      forall i, above threshold scores0 i ->
        exists k, In k (pre ++ sel) /\ inside starts ends i (nth k maximizers 0).
Proof using Hlm Hls Hle Hthr Hown.
  induction fuel as [|fuel IH]; intros scores pre Hlen Hcount Ha Hb.
  - exists []. rewrite app_nil_r.
    assert (Hnone : forall i, ~ above threshold scores i)
      by (apply count_above_zero; lia).
    assert (He : existsb (fun s => Np.ltb threshold s) scores = false).
    { destruct (existsb _ scores) eqn:E; [|reflexivity].
      apply existsb_above in E. destruct E as (i & Hi). destruct (Hnone i Hi). }
    simpl. rewrite He. split; [reflexivity|]. split; [exact I|].
    intros i Hi. destruct (Hb i Hi) as [Hab|Hcov]; [destruct (Hnone i Hab) | exact Hcov].
  - cbn [greedy_loop].
    destruct (existsb (fun s => Np.ltb threshold s) scores) eqn:He.
    + apply existsb_above in He. destruct He as (i0 & Hi0 & Hs0).
      assert (Hne : scores <> []) by (destruct scores; [simpl in Hi0; lia | discriminate]).
      destruct (NpFacts.argmax_spec Hne) as (a & Harg & Hal & Hmax & Hfirst).
      rewrite Harg, bind_Ok.
      rewrite (@NpFacts.get_inrange _ maximizers (Z.of_nat a) 0) by lia.
      rewrite Nat2Z.id, bind_Ok.
      set (cpt := nth a maximizers 0).
      pose proof (@masked_step starts ends cpt scores ltac:(lia) ltac:(lia)) as Hstep.
      change (mask <- interval_mask cpt starts ends ;;
              scores1 <- assign_masked scores mask 0 ;;
              greedy_loop fuel scores1 maximizers starts ends threshold
                (map cp pre ++ [int_ cpt]))
        with (bind (interval_mask cpt starts ends)
                (fun mask => bind (assign_masked scores mask 0)
                   (fun scores1 => greedy_loop fuel scores1 maximizers starts ends
                                     threshold (map cp pre ++ [int_ cpt])))).
      destruct (interval_mask cpt starts ends) as [mask|e]; [|discriminate Hstep].
      rewrite bind_Ok in Hstep. rewrite bind_Ok. rewrite Hstep, bind_Ok.
      assert (Haa : above threshold scores a).
      { split; [exact Hal|]. specialize (Hmax i0 Hi0). lra. }
      destruct (Ha a Haa) as (Ha0 & Heq & Hunc).
      assert (Hin : inside starts ends a cpt) by (apply Hown; exact Ha0).
      assert (Hz : forall i, above threshold (zeroed starts ends cpt scores) i ->
                     above threshold scores i /\ ~ inside starts ends i cpt /\
                     nth i (zeroed starts ends cpt scores) 0 = nth i scores 0).
      { intros i (Hi & Hs). rewrite length_zeroed in Hi.
        rewrite nth_zeroed in Hs |- * by exact Hi.
        destruct (in_mask starts ends cpt i) eqn:Em; [lra|].
        split; [split; assumption|]. split; [|reflexivity].
        intros Hins. apply in_mask_inside in Hins. congruence. }
      replace (map cp pre ++ [int_ cpt]) with (map cp (pre ++ [a]))
        by (rewrite map_app; reflexivity).
      destruct (IH (zeroed starts ends cpt scores) (pre ++ [a])) as (sel & Hrun & Htr & Hcov).
      * rewrite length_zeroed. exact Hlen.
      * assert (Hlt : (count_above threshold (zeroed starts ends cpt scores)
                       < count_above threshold scores)%nat).
        { apply count_above_lt with (a := a).
          - rewrite length_zeroed. reflexivity.
          - intros i Hi Hs. apply Hz. split; [rewrite length_zeroed; exact Hi | exact Hs].
          - exact Hal.
          - apply Haa.
          - rewrite nth_zeroed by exact Hal.
            apply in_mask_inside in Hin. rewrite Hin. exact Hthr. }
        lia.
      * intros i Hi. destruct (Hz i Hi) as (Hsi & Hnot & Heqi).
        destruct (Ha i Hsi) as (Hi0' & Heq' & Hunc').
        split; [exact Hi0'|]. split; [rewrite Heqi; exact Heq'|].
        intros k Hk. apply in_app_or in Hk. destruct Hk as [Hk|[<-|[]]].
        -- apply Hunc'. exact Hk.
        -- exact Hnot.
      * intros i Hi. destruct (Hb i Hi) as [Hab|(k & Hk & Hkin)].
        -- destruct (in_mask starts ends cpt i) eqn:Em.
           ++ right. exists a. split; [apply in_or_app; right; left; reflexivity|].
              apply in_mask_inside. exact Em.
           ++ left. destruct Hab as (Hil & His). split.
              ** rewrite length_zeroed. exact Hil.
              ** rewrite nth_zeroed by exact Hil. rewrite Em. exact His.
        -- right. exists k. split; [apply in_or_app; left; exact Hk | exact Hkin].
      * exists (a :: sel).
        replace (pre ++ a :: sel) with ((pre ++ [a]) ++ sel)
          by (rewrite <- app_assoc; reflexivity).
        split; [exact Hrun|]. split; [|exact Hcov].
        split; [|exact Htr].
        split; [exact Ha0|]. split; [exact Hunc|].
        intros i Hi Hiu.
        assert (Hsi : above threshold scores i).
        { destruct (Hb i Hi) as [Hab|(k & Hk & Hkin)]; [exact Hab|].
          destruct (Hiu k Hk Hkin). }
        destruct (Ha i Hsi) as (_ & Heqi & _).
        rewrite <- Heqi, <- Heq. split.
        -- apply Hmax. apply Hsi.
        -- intros Hlt. apply Hfirst. exact Hlt.
    + exists []. rewrite app_nil_r. split; [reflexivity|]. split; [exact I|].
      intros i Hi. destruct (Hb i Hi) as [Hab|Hcov]; [|exact Hcov].
      assert (E : existsb (fun s => Np.ltb threshold s) scores = true)
        by (apply existsb_above; exists i; exact Hab).
      congruence.
Qed.

End Loop.

End GreedyFacts.

Module GreedyOrder.
Import BinSeg.

Lemma count_above_length (threshold : Q) (scores : list Q) :
  (count_above threshold scores <= length scores)%nat.
Proof. unfold count_above. apply filter_length_le. Qed.

(** A greedy choice lies in its own interval and in none of the earlier
    ones, so the chosen maximizers are pairwise different. *)
Lemma greedy_trace_distinct (scores maximizers : list Q) (starts ends : list Z)
    (threshold : Q) (sel pre : list nat) :
  (forall i, above threshold scores i -> inside starts ends i (nth i maximizers 0)) ->
  greedy_trace scores maximizers starts ends threshold pre sel ->
  forall j, In j sel ->
    (forall k, In k pre -> ~ nth k maximizers 0 == nth j maximizers 0) /\
    Forall (above threshold scores) sel.
Proof.
  intros Hown. revert pre. induction sel as [|a sel IH]; intros pre Htr j Hj; [destruct Hj|].
  destruct Htr as ((Ha & Hunc & _) & Htr).
  assert (Hall : Forall (above threshold scores) (a :: sel)).
  { constructor; [exact Ha|].
    destruct sel as [|b sel']; [constructor|].
    apply (IH (pre ++ [a]) Htr b). left. reflexivity. }
  split; [|exact Hall].
  destruct Hj as [<-|Hj].
  - intros k Hk Heq. apply (Hunc k Hk).
    destruct (Hown a Ha) as (H1 & H2). unfold inside. rewrite Heq. split; assumption.
  - intros k Hk. apply (IH (pre ++ [a]) Htr j Hj). apply in_or_app. left. exact Hk.
Qed.

Lemma greedy_trace_nodup (scores : list Q) (ms : list Z) (starts ends : list Z)
    (threshold : Q) (sel pre : list nat) :
  (forall i, above threshold scores i ->
     inside starts ends i (nth i (map inject_Z ms) 0)) ->
  greedy_trace scores (map inject_Z ms) starts ends threshold pre sel ->
  NoDup (map (fun j => int_ (nth j (map inject_Z ms) 0)) pre) ->
  NoDup (map (fun j => int_ (nth j (map inject_Z ms) 0)) (pre ++ sel)).
Proof.
  intros Hown. revert pre. induction sel as [|a sel IH]; intros pre Htr Hnd.
  - rewrite app_nil_r. exact Hnd.
  - replace (pre ++ a :: sel) with ((pre ++ [a]) ++ sel)
      by (rewrite <- app_assoc; reflexivity).
    apply IH; [apply Htr|].
    rewrite map_app. simpl map. apply NoDup_app_remove_l with (l := []). simpl.
    apply Permutation_NoDup with (l := int_ (nth a (map inject_Z ms) 0)
                                          :: map (fun j => int_ (nth j (map inject_Z ms) 0)) pre).
    + apply Permutation_cons_append.
    + constructor; [|exact Hnd].
      intros Hin. apply in_map_iff in Hin. destruct Hin as (k & Hk & Hkin).
      destruct (@greedy_trace_distinct scores (map inject_Z ms) starts ends threshold
                  (a :: sel) pre Hown Htr a (or_introl eq_refl)) as (Hd & _).
      apply (Hd k Hkin).
      assert (Hint : forall j, nth j (map inject_Z ms) 0 = inject_Z (nth j ms 0%Z)).
      { intros j. change 0 with (inject_Z 0). apply map_nth. }
      rewrite !Hint in Hk |- *. rewrite !GreedyFacts.int_inject in Hk. rewrite Hk.
      reflexivity.
Qed.

Lemma sorted_nodup_strict (l : list Z) :
  StronglySorted Z.le l -> NoDup l -> StronglySorted Z.lt l.
Proof.
  induction l as [|x l IH]; intros Hs Hnd; [constructor|].
  apply StronglySorted_inv in Hs. destruct Hs as (Hs & Hall).
  apply NoDup_cons_iff in Hnd. destruct Hnd as (Hx & Hnd).
  constructor; [apply IH; assumption|].
  apply Forall_forall. intros y Hy.
  rewrite Forall_forall in Hall. specialize (Hall y Hy).
  assert (x <> y) by (intros ->; contradiction). lia.
Qed.

End GreedyOrder.

(** X14: on arrays of one length, with a non-negative threshold and every
    maximizer of an interval above the threshold inside that interval, the
    greedy selection returns within [len(scores)] iterations.  The
    changepoints come back in ascending order; they are the maximizers of
    the intervals chosen greedily: each time the first interval of the
    highest score among those above the threshold that contain none of the
    maximizers chosen before; and in the end every interval above the
    threshold contains a chosen maximizer. *)
Theorem greedy_changepoint_selection_greedy
    (scores maximizers : list Q) (starts ends : list Z) (threshold : Q) (fuel : nat) :
  length maximizers = length scores ->
  length starts = length scores ->
  length ends = length scores ->
  0 <= threshold ->
  (forall i, BinSeg.above threshold scores i ->
     BinSeg.inside starts ends i (nth i maximizers 0)) ->
  (length scores <= fuel)%nat ->
  exists cpts sel,
    BinSeg.greedy_changepoint_selection fuel scores maximizers starts ends threshold
    = Ok cpts /\
    StronglySorted Z.le cpts /\
    Permutation cpts (map (fun j => BinSeg.int_ (nth j maximizers 0)) sel) /\
    BinSeg.greedy_trace scores maximizers starts ends threshold [] sel /\
    forall i, BinSeg.above threshold scores i ->
      exists k, In k sel /\ BinSeg.inside starts ends i (nth k maximizers 0).
Proof.
  intros Hlm Hls Hle Hthr Hown Hfuel.
  destruct (@GreedyFacts.greedy_loop_trace scores maximizers starts ends threshold
              Hlm Hls Hle Hthr Hown fuel scores [] eq_refl)
    as (sel & Hrun & Htr & Hcov).
  - pose proof (GreedyOrder.count_above_length threshold scores). lia.
  - intros i Hi. split; [exact Hi|]. split; [reflexivity|]. intros k [].
  - intros i Hi. left. exact Hi.
  - simpl in Hrun, Hcov.
    exists (BinSeg.sort_ints (map (fun j => BinSeg.int_ (nth j maximizers 0)) sel)), sel.
    unfold BinSeg.greedy_changepoint_selection. rewrite Hrun, bind_Ok.
    split; [reflexivity|]. split; [apply GreedyFacts.sort_ints_sorted|].
    split; [symmetry; apply GreedyFacts.sort_ints_perm|].
    split; [exact Htr | exact Hcov].
Qed.

Lemma greedy_changepoint_selection_greedy_witness :
  exists cpts sel,
    BinSeg.greedy_changepoint_selection 3 [3; 1; 4] [1; 2; 3] [0; 1; 2]%Z [2; 5; 6]%Z 2
    = Ok cpts /\
    StronglySorted Z.le cpts /\
    Permutation cpts (map (fun j => BinSeg.int_ (nth j [1; 2; 3] 0)) sel) /\
    BinSeg.greedy_trace [3; 1; 4] [1; 2; 3] [0; 1; 2]%Z [2; 5; 6]%Z 2 [] sel /\
    forall i, BinSeg.above 2 [3; 1; 4] i ->
      exists k, In k sel /\ BinSeg.inside [0; 1; 2]%Z [2; 5; 6]%Z i (nth k [1; 2; 3] 0).
Proof.
  apply (@greedy_changepoint_selection_greedy
           [3; 1; 4] [1; 2; 3] [0; 1; 2]%Z [2; 5; 6]%Z 2 3%nat);
    try reflexivity; try (simpl; lia); try lra.
  intros i (Hi & Hs). simpl in Hi.
  destruct i as [|[|[|i]]]; simpl in Hs |- *; unfold BinSeg.inside; simpl;
    try lia; try lra; split; unfold inject_Z; lra.
Defined.

(** X15: with integer-valued maximizers, under the same conditions, no
    changepoint is returned twice: the result is strictly increasing. *)
Theorem greedy_changepoints_strictly_increasing
    (scores : list Q) (ms starts ends : list Z) (threshold : Q) (fuel : nat) :
  length ms = length scores ->
  length starts = length scores ->
  length ends = length scores ->
  0 <= threshold ->
  (forall i, BinSeg.above threshold scores i ->
     (nth i starts 0 <= nth i ms 0 < nth i ends 0)%Z) ->
  (length scores <= fuel)%nat ->
  exists cpts,
    BinSeg.greedy_changepoint_selection fuel scores (map inject_Z ms) starts ends threshold
    = Ok cpts /\
    StronglySorted Z.lt cpts.
Proof.
  intros Hlm Hls Hle Hthr Hown Hfuel.
  assert (Hint : forall j, nth j (map inject_Z ms) 0 = inject_Z (nth j ms 0%Z)).
  { intros j. change 0 with (inject_Z 0). apply map_nth. }
  assert (Hown' : forall i, BinSeg.above threshold scores i ->
                    BinSeg.inside starts ends i (nth i (map inject_Z ms) 0)).
  { intros i Hi. specialize (Hown i Hi). unfold BinSeg.inside. rewrite Hint.
    rewrite <- Zle_Qle, <- Zlt_Qlt. exact Hown. }
  destruct (@GreedyFacts.greedy_loop_trace scores (map inject_Z ms) starts ends threshold
              ltac:(rewrite length_map; exact Hlm) Hls Hle Hthr Hown' fuel scores []
              eq_refl)
    as (sel & Hrun & Htr & _).
  - pose proof (GreedyOrder.count_above_length threshold scores). lia.
  - intros i Hi. split; [exact Hi|]. split; [reflexivity|]. intros k [].
  - intros i Hi. left. exact Hi.
  - simpl in Hrun.
    eexists. unfold BinSeg.greedy_changepoint_selection. rewrite Hrun, bind_Ok.
    split; [reflexivity|].
    apply GreedyOrder.sorted_nodup_strict; [apply GreedyFacts.sort_ints_sorted|].
    eapply Permutation_NoDup; [apply GreedyFacts.sort_ints_perm|].
    apply (@GreedyOrder.greedy_trace_nodup scores ms starts ends threshold sel []
             Hown' Htr). constructor.
Qed.

Lemma greedy_changepoints_strictly_increasing_witness :
  exists cpts,
    BinSeg.greedy_changepoint_selection 3 [3; 1; 4] (map inject_Z [1; 2; 3]%Z)
      [0; 1; 2]%Z [2; 5; 6]%Z 2
    = Ok cpts /\
    StronglySorted Z.lt cpts.
Proof.
  apply (@greedy_changepoints_strictly_increasing
           [3; 1; 4] [1; 2; 3]%Z [0; 1; 2]%Z [2; 5; 6]%Z 2 3%nat);
    try reflexivity; try (simpl; lia); try lra.
  intros i (Hi & Hs). simpl in Hi.
  destruct i as [|[|[|i]]]; simpl in Hs |- *; try lia; lra.
Defined.

(** X16: with a negative threshold the loop never ends once a score exceeds the
    threshold: a zeroed score still exceeds it. *)
Theorem greedy_negative_threshold_never_returns
    (scores maximizers : list Q) (starts ends : list Z) (threshold : Q) :
  length maximizers = length scores ->
  length starts = length scores ->
  length ends = length scores ->
  threshold < 0 ->
  (exists i, BinSeg.above threshold scores i) ->
  forall fuel,
    BinSeg.greedy_changepoint_selection fuel scores maximizers starts ends threshold
    = Raise OutOfFuel.
Proof.
  intros Hlm Hls Hle Hthr Hex fuel.
  unfold BinSeg.greedy_changepoint_selection.
  assert (Hloop : forall cpts,
            BinSeg.greedy_loop fuel scores maximizers starts ends threshold cpts
            = Raise OutOfFuel); [|rewrite Hloop; reflexivity].
  revert scores Hlm Hls Hle Hex.
  induction fuel as [|fuel IH]; intros scores Hlm Hls Hle Hex cpts.
  - simpl. apply GreedyFacts.existsb_above in Hex. rewrite Hex. reflexivity.
  - cbn [BinSeg.greedy_loop].
    pose proof Hex as Hex'. apply GreedyFacts.existsb_above in Hex'. rewrite Hex'.
    destruct Hex as (i0 & Hi0 & Hs0).
    assert (Hne : scores <> []) by (destruct scores; [simpl in Hi0; lia | discriminate]).
    destruct (NpFacts.argmax_spec Hne) as (a & Harg & Hal & Hmax & _).
    rewrite Harg, bind_Ok.
    rewrite (@NpFacts.get_inrange _ maximizers (Z.of_nat a) 0) by lia.
    rewrite Nat2Z.id, bind_Ok.
    set (cpt := nth a maximizers 0).
    pose proof (@GreedyFacts.masked_step starts ends cpt scores Hls Hle) as Hstep.
    change (mask <- BinSeg.interval_mask cpt starts ends ;;
            scores1 <- BinSeg.assign_masked scores mask 0 ;;
            BinSeg.greedy_loop fuel scores1 maximizers starts ends threshold
              (cpts ++ [BinSeg.int_ cpt]))
      with (bind (BinSeg.interval_mask cpt starts ends)
              (fun mask => bind (BinSeg.assign_masked scores mask 0)
                 (fun scores1 => BinSeg.greedy_loop fuel scores1 maximizers starts ends
                                   threshold (cpts ++ [BinSeg.int_ cpt])))).
    destruct (BinSeg.interval_mask cpt starts ends) as [mask|e]; [|discriminate Hstep].
    rewrite bind_Ok in Hstep. rewrite bind_Ok. rewrite Hstep, bind_Ok.
    apply IH; rewrite ?GreedyFacts.length_zeroed; try assumption.
    exists a. split; [rewrite GreedyFacts.length_zeroed; exact Hal|].
    rewrite GreedyFacts.nth_zeroed by exact Hal.
    destruct (BinSeg.in_mask starts ends cpt a); [exact Hthr|].
    specialize (Hmax i0 Hi0). lra.
Qed.

Lemma greedy_negative_threshold_never_returns_witness :
  BinSeg.greedy_changepoint_selection 1000 [3; 1; 4] [1; 2; 3] [0; 1; 2]%Z [2; 5; 6]%Z (-1)
  = Raise OutOfFuel.
Proof.
  refine (@greedy_negative_threshold_never_returns
            [3; 1; 4] [1; 2; 3] [0; 1; 2]%Z [2; 5; 6]%Z (-1)
            eq_refl eq_refl eq_refl eq_refl _ 1000%nat).
  exists 0%nat. split; [simpl; lia | simpl; lra].
Defined.

(** ** Seeded intervals *)

Module SeededFacts.
Import BinSeg.


Lemma combine_app {A B : Type} (a a' : list A) (b b' : list B) :
  length a = length b -> combine (a ++ a') (b ++ b') = combine a b ++ combine a' b'.
Proof.
  revert b. induction a as [|x a IH]; intros [|y b] Hl; simpl in Hl; try discriminate.
  - reflexivity.
  - simpl. rewrite IH by lia. reflexivity.
Qed.



Section Level.

Variables n interval_len step min_len max_len : Z.

Hypothesis Hstep : (1 <= step <= interval_len)%Z.
Hypothesis Hstep2 : (2 <= interval_len -> step < interval_len)%Z.
Hypothesis Hmin : (min_len <= interval_len)%Z.
Hypothesis Hmax : (interval_len <= max_len)%Z.



End Level.


Section Outer.

Variables n min_len max_len : Z.
Variables growth_factor step_factor : Q.
Variable inner : nat.

Hypothesis Hsf : step_factor < 1.
Hypothesis Hinner : (Z.to_nat n <= inner)%nat.
Hypothesis Hmaxn : (max_len <= n)%Z.
Hypothesis Hmin1 : (1 <= min_len)%Z.



End Outer.


End SeededFacts.





(** ** The seeded binary segmentation run *)

Module RunFacts.
Import BinSeg.




Section Interval.

Variable Params : Type.
Variable score_func : Params -> Z -> Z -> Z -> Q.
Variables (params : Params) (min_segment_length start end_ : Z).

Hypothesis Hmsl : (1 <= min_segment_length)%Z.
Hypothesis Hse : (start < end_)%Z.


End Interval.



End RunFacts.







(** ** The windows of the moving score *)

Module MoscoreFacts.
Import Moscore.

(** On ascending lengths the lengths that fit are a prefix. *)
Lemma fit_prefix (c : Z) (l : list Z) :
  StronglySorted Z.le l ->
  exists rest, l = filter (fun k => (k <=? c)%Z) l ++ rest /\
               Forall (fun k => (c < k)%Z) rest.
Proof.
  induction 1 as [|k l Hs (rest & Heq & Hrest) Hall].
  - exists []. split; [reflexivity | constructor].
  - simpl. destruct (Z.leb_spec k c) as [Hk|Hk].
    + exists rest. split; [simpl; f_equal; exact Heq | exact Hrest].
    + exists (k :: l). split.
      * replace (filter (fun k0 => (k0 <=? c)%Z) l) with (@nil Z); [reflexivity|].
        symmetry. clear - Hall Hk. induction l as [|x l IH]; [reflexivity|].
        apply Forall_cons_iff in Hall. destruct Hall as (Hx & Hall). simpl.
        destruct (Z.leb_spec x c); [lia | apply IH; exact Hall].
      * constructor; [exact Hk|]. eapply Forall_impl; [|exact Hall].
        intros x Hx. cbv beta in Hx. lia.
Qed.

Lemma combine_map_prefix {A : Type} (f : Z -> A) (fit rest : list Z) :
  combine (map f fit) (fit ++ rest) = map (fun k => (f k, k)) fit.
Proof.
  induction fit as [|k fit IH]; simpl; [reflexivity|]. rewrite IH. reflexivity.
Qed.

Lemma filter_all {A : Type} (p : A -> bool) (l : list A) :
  Forall (fun a => p a = true) l -> filter p l = l.
Proof.
  induction 1 as [|a l Ha _ IH]; simpl; [reflexivity|]. rewrite Ha, IH. reflexivity.
Qed.

Section Windows.

Variables (n left_bandwidth right_bandwidth : Z) (anomaly_lengths : list Z).

Let fits (k : Z) : bool := (left_bandwidth + k + right_bandwidth <=? n)%Z.
Let fit : list Z := filter fits anomaly_lengths.
Let start_array (k : Z) : list Z := Np.arange left_bandwidth (n - k - right_bandwidth).
Let end_array (k : Z) : list Z := map (fun start => (start + k - 1)%Z) (start_array k).

(** On ascending lengths the two generators of [run_moscore_anomaly] walk
    the same lengths. *)
Lemma ends_aligned :
  StronglySorted Z.le anomaly_lengths ->
  map (fun sk : list Z * Z => map (fun start => (start + snd sk - 1)%Z) (fst sk))
      (filter (fun sk : list Z * Z => fits (snd sk))
         (combine (map start_array fit) anomaly_lengths))
  = map end_array fit.
Proof.
  intros Hs.
  destruct (@fit_prefix (n - left_bandwidth - right_bandwidth) anomaly_lengths Hs)
    as (rest & Heq & _).
  assert (Hfit : filter (fun k => (k <=? n - left_bandwidth - right_bandwidth)%Z)
                   anomaly_lengths = fit).
  { unfold fit. apply filter_ext. intros k. unfold fits.
    destruct (Z.leb_spec k (n - left_bandwidth - right_bandwidth));
      destruct (Z.leb_spec (left_bandwidth + k + right_bandwidth) n); try reflexivity; lia. }
  rewrite Hfit in Heq.
  replace (combine (map start_array fit) anomaly_lengths)
    with (combine (map start_array fit) (fit ++ rest))
    by (rewrite <- Heq; reflexivity).
  rewrite combine_map_prefix.
  rewrite filter_all.
  - rewrite map_map. reflexivity.
  - apply Forall_forall. intros sk Hsk. apply in_map_iff in Hsk.
    destruct Hsk as (k & <- & Hk). cbn [snd]. unfold fit in Hk.
    apply filter_In in Hk. apply Hk.
Qed.

Lemma windows_ok (ks : list Z) :
  (forall k, In k ks -> In k anomaly_lengths) ->
  Forall2 (window n anomaly_lengths left_bandwidth right_bandwidth)
    (concat (map start_array ks)) (concat (map end_array ks)).
Proof.
  induction ks as [|k ks IH]; intros Hin; simpl; [constructor|].
  apply Forall2_app; [|apply IH; intros k' Hk'; apply Hin; right; exact Hk'].
  unfold end_array. 
  assert (Hblock : Forall (fun s => (left_bandwidth <= s < n - k - right_bandwidth)%Z)
                     (start_array k)).
  { apply Forall_forall. intros s Hs. unfold start_array, Np.arange in Hs.
    apply in_map_iff in Hs. destruct Hs as (j & <- & Hj). apply in_seq in Hj. lia. }
  induction Hblock as [|s l Hs _ IHl]; simpl; [constructor|].
  constructor; [|exact IHl].
  unfold window. split; [lia|]. split; [lia|].
  exists k. split; [apply Hin; left; reflexivity | reflexivity].
Qed.

Lemma windows_complete (ks : list Z) (k s : Z) :
  In k ks -> (left_bandwidth <= s < n - k - right_bandwidth)%Z ->
  In (s, (s + k - 1)%Z)
     (combine (concat (map start_array ks)) (concat (map end_array ks))).
Proof.
  intros Hk Hs. induction ks as [|k' ks IH]; [destruct Hk|]. simpl.
  rewrite SeededFacts.combine_app by (unfold end_array; rewrite length_map; reflexivity).
  apply in_or_app. destruct Hk as [->|Hk]; [left | right; apply IH; exact Hk].
  unfold end_array.
  assert (Hin : In s (start_array k)).
  { unfold start_array, Np.arange. apply in_map_iff.
    exists (Z.to_nat (s - left_bandwidth)). split; [lia|]. apply in_seq. lia. }
  clear - Hin. induction (start_array k) as [|x l IHl]; [destruct Hin|].
  simpl. destruct Hin as [->|Hin]; [left; reflexivity | right; apply IHl; exact Hin].
Qed.

End Windows.

End MoscoreFacts.

(** X22: for ascending anomaly lengths of which the first fits
    (left_bandwidth + k + right_bandwidth <= n), the run builds as many ends
    as starts and hands them to the score and to the selection.  Every
    window has one of the lengths and a background inside 0..n-2, and every
    window of a length k that starts in left_bandwidth..n-k-right_bandwidth-1
    is built. *)
Theorem run_moscore_anomaly_windows
    (Params : Type)
    (score_f : Params -> list Z -> list Z -> list Z -> list Z -> res (list Q))
    (score_init_f : list (list Q) -> Params)
    (greedy_anomaly_selection :
       list Q -> list Z -> list Z -> list Z -> list Z -> Q -> res (list (Z * Z)))
    (X : list (list Q)) (anomaly_lengths : list Z) (left_bandwidth right_bandwidth : Z)
    (threshold : Q) :
  StronglySorted Z.le anomaly_lengths ->
  (left_bandwidth + hd 0%Z anomaly_lengths + right_bandwidth <= Z.of_nat (length X))%Z ->
  anomaly_lengths <> [] ->
  exists starts ends,
    Moscore.run_moscore_anomaly score_f score_init_f greedy_anomaly_selection X
      anomaly_lengths left_bandwidth right_bandwidth threshold
    = (scores <-
         score_f (score_init_f X) (map (fun s => (s - left_bandwidth)%Z) starts)
           (map (fun e => (e + right_bandwidth)%Z) ends) starts ends ;;
       anomalies <-
         greedy_anomaly_selection scores starts ends
           (map (fun s => (s - left_bandwidth)%Z) starts)
           (map (fun e => (e + right_bandwidth)%Z) ends) threshold ;;
       Ok (anomalies, scores, starts, ends)) /\
    Forall2 (Moscore.window (Z.of_nat (length X)) anomaly_lengths left_bandwidth
               right_bandwidth) starts ends /\
    forall k s,
      In k anomaly_lengths ->
      (left_bandwidth <= s < Z.of_nat (length X) - k - right_bandwidth)%Z ->
      In (s, (s + k - 1)%Z) (combine starts ends).
Proof.
  intros Hs Hfirst Hne.
  set (n := Z.of_nat (length X)) in *.
  set (fits := fun k => (left_bandwidth + k + right_bandwidth <=? n)%Z).
  set (fit := filter fits anomaly_lengths).
  set (start_array := fun k => Np.arange left_bandwidth (n - k - right_bandwidth)).
  set (end_array := fun k => map (fun start => (start + k - 1)%Z) (start_array k)).
  exists (concat (map start_array fit)), (concat (map end_array fit)).
  assert (Hfit : fit <> []).
  { destruct anomaly_lengths as [|k l]; [congruence|]. simpl in Hfirst.
    unfold fit. simpl. unfold fits at 1.
    destruct (Z.leb_spec (left_bandwidth + k + right_bandwidth) n); [discriminate | lia]. }
  split; [|split].
  - unfold Moscore.run_moscore_anomaly. fold n. cbv zeta.
    pose proof (@MoscoreFacts.ends_aligned n left_bandwidth right_bandwidth
                  anomaly_lengths Hs) as Ha.
    cbv beta in Ha. rewrite Ha.
    fold fits. fold fit. fold start_array. fold end_array.
    destruct fit as [|k0 fit']; [congruence|]. reflexivity.
  - apply MoscoreFacts.windows_ok. intros k Hk. unfold fit in Hk.
    apply filter_In in Hk. apply Hk.
  - intros k s Hk Hks.
    apply MoscoreFacts.windows_complete; [|exact Hks].
    unfold fit. apply filter_In. split; [exact Hk|]. unfold fits.
    destruct (Z.leb_spec (left_bandwidth + k + right_bandwidth) n); [reflexivity | lia].
Qed.

Lemma run_moscore_anomaly_windows_witness :
  exists starts ends,
    Moscore.run_moscore_anomaly MoscoreInputs.score Inputs.init MoscoreInputs.select
      (Inputs.frame 8) [2; 3]%Z 1 2 0
    = (scores <-
         MoscoreInputs.score (Inputs.init (Inputs.frame 8))
           (map (fun s => (s - 1)%Z) starts) (map (fun e => (e + 2)%Z) ends) starts ends ;;
       anomalies <-
         MoscoreInputs.select scores starts ends (map (fun s => (s - 1)%Z) starts)
           (map (fun e => (e + 2)%Z) ends) 0 ;;
       Ok (anomalies, scores, starts, ends)) /\
    Forall2 (Moscore.window (Z.of_nat (length (Inputs.frame 8))) [2; 3]%Z 1 2) starts ends /\
    forall k s,
      In k [2; 3]%Z ->
      (1 <= s < Z.of_nat (length (Inputs.frame 8)) - k - 2)%Z ->
      In (s, (s + k - 1)%Z) (combine starts ends).
Proof.
  apply (@run_moscore_anomaly_windows unit MoscoreInputs.score Inputs.init
           MoscoreInputs.select (Inputs.frame 8) [2; 3]%Z 1%Z 2%Z 0).
  - repeat constructor; lia.
  - simpl. lia.
  - discriminate.
Defined.

(** X23: when no anomaly length fits, [np.concatenate] is given an empty tuple
    and the run raises, before the score or the selection is called. *)
Theorem run_moscore_anomaly_no_window
    (Params : Type)
    (score_f : Params -> list Z -> list Z -> list Z -> list Z -> res (list Q))
    (score_init_f : list (list Q) -> Params)
    (greedy_anomaly_selection :
       list Q -> list Z -> list Z -> list Z -> list Z -> Q -> res (list (Z * Z)))
    (X : list (list Q)) (anomaly_lengths : list Z) (left_bandwidth right_bandwidth : Z)
    (threshold : Q) :
  Forall (fun k => (Z.of_nat (length X) < left_bandwidth + k + right_bandwidth)%Z)
    anomaly_lengths ->
  Moscore.run_moscore_anomaly score_f score_init_f greedy_anomaly_selection X
    anomaly_lengths left_bandwidth right_bandwidth threshold
  = Raise (ValueError "need at least one array to concatenate"%string).
Proof.
  intros Hall. unfold Moscore.run_moscore_anomaly. cbv zeta.
  replace (filter (fun k => (left_bandwidth + k + right_bandwidth <=? Z.of_nat (length X))%Z)
             anomaly_lengths) with (@nil Z); [reflexivity|].
  symmetry. induction Hall as [|k l Hk _ IH]; [reflexivity|]. simpl.
  destruct (Z.leb_spec (left_bandwidth + k + right_bandwidth) (Z.of_nat (length X)));
    [lia | exact IH].
Qed.

Lemma run_moscore_anomaly_no_window_witness :
  Moscore.run_moscore_anomaly MoscoreInputs.score Inputs.init MoscoreInputs.select
    (Inputs.frame 4) [2; 3]%Z 1 2 0
  = Raise (ValueError "need at least one array to concatenate"%string).
Proof.
  apply (@run_moscore_anomaly_no_window unit MoscoreInputs.score Inputs.init
           MoscoreInputs.select (Inputs.frame 4) [2; 3]%Z 1%Z 2%Z 0).
  repeat constructor; simpl; lia.
Defined.
